(** * year_wrap_viewer: keeping the preview on the page under the cursor

    A shallow embedding of [clampIndex], [computePagesRanges],
    [findPageIndexAtOffset] and of the two debounced triggers of the [App]
    component ([scheduleParse], [scheduleCursorSync]) together with the
    navigation handlers and the effect of [StoryPreview].

    JavaScript numbers that hold indices, offsets and counts are modelled
    as [Z]; a string is the list of its UTF-16 code units. *)

From Stdlib Require Import String Ascii ZArith List Bool Lia.
Import ListNotations.
Open Scope Z_scope.

(** ** Text *)

(** A JavaScript string: its UTF-16 code units, as [text[i]] and
    [indexOf] see them. *)
Definition text := list N.

Definition js (s : string) : text :=
  map N_of_ascii (list_ascii_of_string s).
Arguments js s%_string.

Definition quote : N := 34.      (* the double quote *)
Definition backslash : N := 92.
Definition lbrace : N := 123.
Definition rbrace : N := 125.
Definition lbracket : N := 91.
Definition rbracket : N := 93.

(** [dq s] is [s] between double quotes. *)
Definition dq (s : text) : text := quote :: s ++ [quote].

(** The key searched for: [pages] between double quotes. *)
Definition pages_key : text := dq (js "pages").

Definition len (t : text) : Z := Z.of_nat (length t).

Fixpoint starts_with (needle t : text) : bool :=
  match needle, t with
  | [], _ => true
  | _ :: _, [] => false
  | a :: needle', b :: t' => N.eqb a b && starts_with needle' t'
  end.

(** [index_from needle t i]: [t] is the part of the string at offsets
    [i, i+1, ...]; the offset of the first occurrence of [needle], or -1. *)
Fixpoint index_from (needle t : text) (i : Z) : Z :=
  if starts_with needle t then i
  else match t with
       | [] => -1
       | _ :: t' => index_from needle t' (i + 1)
       end.

(** [String.prototype.indexOf(needle, position)]: the position is clamped
    to [0 .. length]. *)
Definition indexOf (t needle : text) (position : Z) : Z :=
  let p := Z.min (Z.max position 0) (len t) in
  index_from needle (skipn (Z.to_nat p) t) p.

(** ** clampIndex *)

Definition clampIndex (idx len : Z) : Z :=
  if len <=? 0 then 0
  else Z.max 0 (Z.min (len - 1) idx).

(** ** computePagesRanges *)

Module Range.
Record t := mk { start : Z; end_ : Z }.
End Range.

(** The variables of the scanning loop. *)
Record vars := mkVars {
  inString : bool;
  escape : bool;
  depth : Z;
  start : Z;
  ranges : list Range.t
}.

Inductive flow := Continue (v : vars) | Break (v : vars).

(** One iteration of the [for] loop at offset [i] on character [ch]. *)
Definition body (i : Z) (ch : N) (v : vars) : flow :=
  if inString v then
    if escape v then
      Continue (mkVars (inString v) false (depth v) (start v) (ranges v))
    else if N.eqb ch backslash then
      Continue (mkVars (inString v) true (depth v) (start v) (ranges v))
    else if N.eqb ch quote then
      Continue (mkVars false (escape v) (depth v) (start v) (ranges v))
    else Continue v
  else if N.eqb ch quote then
    Continue (mkVars true (escape v) (depth v) (start v) (ranges v))
  else if N.eqb ch lbrace then
    let start1 := if depth v =? 0 then i else start v in
    Continue (mkVars (inString v) (escape v) (depth v + 1) start1 (ranges v))
  else if N.eqb ch rbrace then
    let depth1 := if depth v >? 0 then depth v - 1 else depth v in
    if (depth1 =? 0) && (start v >=? 0) then
      Continue (mkVars (inString v) (escape v) depth1 (-1)
                  (ranges v ++ [Range.mk (start v) (i + 1)]))
    else
      Continue (mkVars (inString v) (escape v) depth1 (start v) (ranges v))
  else if N.eqb ch rbracket && (depth v =? 0) then Break v
  else Continue v.

(** [for (; i < text.length; i++)]: [rest] is the text from offset [i] on. *)
Fixpoint loop (rest : text) (i : Z) (v : vars) : vars :=
  match rest with
  | [] => v
  | ch :: rest' =>
      match body i ch v with
      | Continue v' => loop rest' (i + 1) v'
      | Break v' => v'
      end
  end.

Definition init_vars : vars := mkVars false false 0 (-1) [].

(** A JavaScript value as [computePagesRanges] tests it with [typeof]. *)
Inductive js_value :=
| JsString (s : text)
| JsOther.

Definition computePagesRanges (v : js_value) : list Range.t :=
  match v with
  | JsOther => []
  | JsString text =>
      let keyIdx := indexOf text pages_key 0 in
      if keyIdx <? 0 then []
      else
        let arrStart := indexOf text [lbracket] keyIdx in
        if arrStart <? 0 then []
        else
          ranges (loop (skipn (Z.to_nat (arrStart + 1)) text)
                       (arrStart + 1) init_vars)
  end.

(** ** findPageIndexAtOffset *)

(** The loop of [findPageIndexAtOffset] from index [i] on; [None] is
    JavaScript's [null]. *)
Fixpoint find_from (rs : list Range.t) (i : Z) (offset : Z) : option Z :=
  match rs with
  | [] => None
  | r :: rs' =>
      if (offset >=? Range.start r) && (offset <=? Range.end_ r) then Some i
      else find_from rs' (i + 1) offset
  end.

Definition findPageIndexAtOffset (ranges : list Range.t) (offset : Z)
  : option Z :=
  find_from ranges 0 offset.

(** ** Vocabulary of the scanner's properties *)

(** [first_at needle a t]: [needle] occurs in [t], and its first occurrence
    starts right after the prefix [a]. *)
Definition occurs (needle t : text) : Prop :=
  exists a b, t = a ++ needle ++ b.

Definition first_at (needle a t : text) : Prop :=
  (exists b, t = a ++ needle ++ b) /\
  forall a' b', t = a' ++ needle ++ b' -> (length a <= length a')%nat.

(** The inside of a string literal: no quote that is not escaped, and no
    escape left pending at its end. *)
Inductive str_body : text -> Prop :=
| sb_nil : str_body []
| sb_plain c s :
    c <> quote -> c <> backslash -> str_body s -> str_body (c :: s)
| sb_escaped c s :
    str_body s -> str_body (backslash :: c :: s).

(** Characters that are nothing special inside a string, and inside a
    record. *)
Definition plain_in_string (c : N) : bool :=
  negb (N.eqb c quote) && negb (N.eqb c backslash).

Definition plain_in_record (c : N) : bool :=
  negb (N.eqb c quote) && negb (N.eqb c lbrace) && negb (N.eqb c rbrace).

(** The inside of a record: braces balanced, string literals closed; any
    other character (brackets included) is free. *)
Inductive nested : text -> Prop :=
| ne_nil : nested []
| ne_char c u :
    c <> quote -> c <> lbrace -> c <> rbrace -> nested u -> nested (c :: u)
| ne_string s u :
    str_body s -> nested u -> nested (dq s ++ u)
| ne_group u1 u2 :
    nested u1 -> nested u2 -> nested (lbrace :: u1 ++ rbrace :: u2).

(** What stands between the [[] of the array and the []] that closes it:
    records, string literals, and other characters. *)
Inductive element :=
| Gap (c : N)
| Lit (s : text)
| Rec (u : text).

Definition element_ok (e : element) : Prop :=
  match e with
  | Gap c => c <> quote /\ c <> lbrace /\ c <> rbrace /\ c <> rbracket
  | Lit s => str_body s
  | Rec u => nested u
  end.

Definition render_el (e : element) : text :=
  match e with
  | Gap c => [c]
  | Lit s => dq s
  | Rec u => lbrace :: u ++ [rbrace]
  end.

Definition render (els : list element) : text :=
  concat (map render_el els).

Definition is_record (e : element) : bool :=
  match e with Rec _ => true | _ => false end.

(** The number of top-level records of the array. *)
Definition count_records (els : list element) : nat :=
  length (filter is_record els).

(** The spans of the top-level records when the array body starts at
    offset [i]: a record spans from its opening brace to just after its
    closing brace. *)
Fixpoint spans (i : Z) (els : list element) : list Range.t :=
  match els with
  | [] => []
  | e :: els' =>
      let n := len (render_el e) in
      (if is_record e then [Range.mk i (i + n)] else [])
        ++ spans (i + n) els'
  end.

(** [offset] lies within [r], both ends included. *)
Definition within (r : Range.t) (offset : Z) : Prop :=
  Range.start r <= offset <= Range.end_ r.

(** Ranges in left-to-right order that do not overlap. *)
Fixpoint ordered (rs : list Range.t) : Prop :=
  match rs with
  | [] => True
  | r :: rs' =>
      (forall r', In r' rs' -> Range.end_ r <= Range.start r') /\ ordered rs'
  end.

(** [char_at t i] is [t[i]]. *)
Definition char_at (t : text) (i : Z) : option N :=
  if i <? 0 then None else nth_error t (Z.to_nat i).

(** What holds of a range of text [t] once it has been pushed. *)
Definition closed_range (t : text) (r : Range.t) : Prop :=
  0 <= Range.start r /\ Range.start r < Range.end_ r /\
  Range.end_ r <= len t /\
  char_at t (Range.start r) = Some lbrace /\
  char_at t (Range.end_ r - 1) = Some rbrace.

(** The invariant of the scanning loop before the iteration at offset
    [i] of text [t]. *)
Definition scan_inv (t : text) (i : Z) (v : vars) : Prop :=
  i <= len t /\
  -1 <= start v < i /\
  (forall r, In r (ranges v) ->
             closed_range t r /\ Range.end_ r <= i /\
             (0 <= start v -> Range.end_ r <= start v)) /\
  (0 <= start v -> char_at t (start v) = Some lbrace) /\
  ordered (ranges v).

(** ** Sample texts *)

(** In the comments on the samples ['] stands for the double quote.

    [{'data':{'pages':[{'id':'a'},{'id':'b'}]}}] *)
Definition sample_two : text :=
  js "{" ++ dq (js "data") ++ js ":{" ++ pages_key ++ js ":" ++ lbracket ::
     render [Rec (dq (js "id") ++ js ":" ++ dq (js "a")); Gap 44;
             Rec (dq (js "id") ++ js ":" ++ dq (js "b"))]
     ++ rbracket :: js "}}".

(** [{'pages':[{'t':'{unbalanced'}]}] *)
Definition sample_unbalanced : text :=
  js "{" ++ pages_key ++ js ":" ++ lbracket ::
     (lbrace :: (dq (js "t") ++ js ":") ++ dq (js "{unbalanced") ++ []
             ++ [rbrace])
     ++ rbracket :: js "}".

(** [{'pages':[{'t':'a\'}b'}]}] : the string holds an escaped quote. *)
Definition sample_escaped : text :=
  js "{" ++ pages_key ++ js ":" ++ lbracket ::
     (lbrace :: (dq (js "t") ++ js ":")
             ++ dq (js "a" ++ repeat backslash (2 * 0 + 1) ++ quote :: js "}b")
             ++ [] ++ [rbrace])
     ++ rbracket :: js "}".

(** [{'pages':[{'id':'a'},{'id':] : the second record is still being
    typed. *)
Definition sample_open : text :=
  js "{" ++ pages_key ++ js ":[{" ++ dq (js "id") ++ js ":" ++ dq (js "a")
     ++ js "},{" ++ dq (js "id") ++ js ":".

(** ** JSON values *)

(** What [JSON.parse] returns.  Of a number the component only tests
    whether it is zero. *)
#[local] Unset Elimination Schemes.
Inductive json :=
| JNull
| JBool (b : bool)
| JNum (nonzero : bool)
| JStr (s : text)
| JArr (items : list json)
| JObj (fields : list (text * json)).
#[local] Set Elimination Schemes.

Fixpoint text_eqb (a b : text) : bool :=
  match a, b with
  | [], [] => true
  | x :: a', y :: b' => N.eqb x y && text_eqb a' b'
  | _, _ => false
  end.

Fixpoint assoc (k : text) (fields : list (text * json)) : option json :=
  match fields with
  | [] => None
  | (k', v) :: rest => if text_eqb k k' then Some v else assoc k rest
  end.

(** [v?.k]: [None] is [undefined]. *)
Definition get (k : text) (v : option json) : option json :=
  match v with
  | Some (JObj fields) => assoc k fields
  | _ => None
  end.

(** [Array.isArray(config?.data?.pages) ? config.data.pages : []] *)
Definition pagesOf (config : json) : list json :=
  match get (js "pages") (get (js "data") (Some config)) with
  | Some (JArr items) => items
  | _ => []
  end.

(** JavaScript truthiness, as in [parsedConfig ? ... : ...]. *)
Definition truthy (v : json) : bool :=
  match v with
  | JNull => false
  | JBool b => b
  | JNum nonzero => nonzero
  | JStr s => match s with [] => false | _ => true end
  | JArr _ => true
  | JObj _ => true
  end.

(** ** The component and its environment

    The [App] component, the [StoryPreview] it renders, the editor widget
    and the browser's timers form one [world].  An event (a user action,
    the editor mounting, the configuration arriving, time passing) runs its
    handler, then the render it causes with the effects whose dependencies
    changed ([commit]).  JavaScript runs them on one thread, so each is
    one step.  Timers fire when time passes ([Elapse]), in the order of
    their due times, each followed by its own render.

    A closure reads the [parsedConfig] of the render that created it: the
    timer callback of [scheduleCursorSync] therefore carries that value
    with it.  [onChange] and the effects belong to the current render.
    The cursor listener is registered once, by [onMount], and the editor
    component calls the [onMount] it was given when it was first rendered:
    the one of the first render of [App], whose [parsedConfig] is the
    initial state, [null].  The listener keeps that value
    ([listenerConfig]) whatever is parsed later.

    The state [parseError], [dirty], [saving] and [canSaveToServer] and
    the saving of the configuration play no part in the triggers and are
    left out. *)

(** The callbacks handed to [window.setTimeout], with what they close
    over. *)
Inductive callback :=
| ParseCb (nextText : text)
| CursorCb (nextText : text) (parsedConfig : json).

Record timer := mkTimer { tid : Z; due : Z; cb : callback }.

Definition is_parse (tm : timer) : bool :=
  match cb tm with ParseCb _ => true | CursorCb _ _ => false end.

Definition is_cursor (tm : timer) : bool :=
  match cb tm with ParseCb _ => false | CursorCb _ _ => true end.

Record world := mkWorld {
  (* React state of [App] *)
  editorText : text;
  parsedConfig : json;
  activePageIndex : Z;
  followCursor : bool;
  (* refs of [App] *)
  debounceRef : option Z;
  cursorDebounceRef : option Z;
  editorTextRef : text;
  monacoEditorRef : bool;
  followCursorRef : bool;
  (* [parsedConfig] as the cursor listener registered by [onMount]
     closes over it: that of the first render *)
  listenerConfig : json;
  (* [pages.length] at the last run of the effect of [StoryPreview];
     [None] while it is not rendered *)
  previewPagesLen : option Z;
  (* the editor widget: its content and the offset of its cursor
     ([None]: no position or no model) *)
  ed_value : text;
  ed_offset : option Z;
  (* the browser: clock in ms, next timer id, pending timers *)
  now : Z;
  next_id : Z;
  timers : list timer;
  (* ghost: the texts of the parse cycles that have run, oldest first *)
  parse_log : list text
}.

Definition set_parsedConfig (x : json) (w : world) : world :=
  mkWorld (editorText w) x (activePageIndex w) (followCursor w)
    (debounceRef w) (cursorDebounceRef w) (editorTextRef w)
    (monacoEditorRef w) (followCursorRef w) (listenerConfig w)
    (previewPagesLen w) (ed_value w) (ed_offset w) (now w) (next_id w)
    (timers w) (parse_log w).

Definition set_activePageIndex (x : Z) (w : world) : world :=
  mkWorld (editorText w) (parsedConfig w) x (followCursor w) (debounceRef w)
    (cursorDebounceRef w) (editorTextRef w) (monacoEditorRef w)
    (followCursorRef w) (listenerConfig w) (previewPagesLen w) (ed_value w)
    (ed_offset w) (now w) (next_id w) (timers w) (parse_log w).

Definition set_followCursor (x : bool) (w : world) : world :=
  mkWorld (editorText w) (parsedConfig w) (activePageIndex w) x
    (debounceRef w) (cursorDebounceRef w) (editorTextRef w)
    (monacoEditorRef w) (followCursorRef w) (listenerConfig w)
    (previewPagesLen w) (ed_value w) (ed_offset w) (now w) (next_id w)
    (timers w) (parse_log w).

Definition set_debounceRef (x : option Z) (w : world) : world :=
  mkWorld (editorText w) (parsedConfig w) (activePageIndex w)
    (followCursor w) x (cursorDebounceRef w) (editorTextRef w)
    (monacoEditorRef w) (followCursorRef w) (listenerConfig w)
    (previewPagesLen w) (ed_value w) (ed_offset w) (now w) (next_id w)
    (timers w) (parse_log w).

Definition set_cursorDebounceRef (x : option Z) (w : world) : world :=
  mkWorld (editorText w) (parsedConfig w) (activePageIndex w)
    (followCursor w) (debounceRef w) x (editorTextRef w) (monacoEditorRef w)
    (followCursorRef w) (listenerConfig w) (previewPagesLen w) (ed_value w)
    (ed_offset w) (now w) (next_id w) (timers w) (parse_log w).

Definition set_monacoEditorRef (x : bool) (w : world) : world :=
  mkWorld (editorText w) (parsedConfig w) (activePageIndex w)
    (followCursor w) (debounceRef w) (cursorDebounceRef w) (editorTextRef w)
    x (followCursorRef w) (listenerConfig w) (previewPagesLen w)
    (ed_value w) (ed_offset w) (now w) (next_id w) (timers w) (parse_log w).

Definition set_followCursorRef (x : bool) (w : world) : world :=
  mkWorld (editorText w) (parsedConfig w) (activePageIndex w)
    (followCursor w) (debounceRef w) (cursorDebounceRef w) (editorTextRef w)
    (monacoEditorRef w) x (listenerConfig w) (previewPagesLen w)
    (ed_value w) (ed_offset w) (now w) (next_id w) (timers w) (parse_log w).

Definition set_listenerConfig (x : json) (w : world) : world :=
  mkWorld (editorText w) (parsedConfig w) (activePageIndex w)
    (followCursor w) (debounceRef w) (cursorDebounceRef w) (editorTextRef w)
    (monacoEditorRef w) (followCursorRef w) x (previewPagesLen w)
    (ed_value w) (ed_offset w) (now w) (next_id w) (timers w) (parse_log w).

Definition set_previewPagesLen (x : option Z) (w : world) : world :=
  mkWorld (editorText w) (parsedConfig w) (activePageIndex w)
    (followCursor w) (debounceRef w) (cursorDebounceRef w) (editorTextRef w)
    (monacoEditorRef w) (followCursorRef w) (listenerConfig w) x
    (ed_value w) (ed_offset w) (now w) (next_id w) (timers w) (parse_log w).

Definition set_ed_value (x : text) (w : world) : world :=
  mkWorld (editorText w) (parsedConfig w) (activePageIndex w)
    (followCursor w) (debounceRef w) (cursorDebounceRef w) (editorTextRef w)
    (monacoEditorRef w) (followCursorRef w) (listenerConfig w)
    (previewPagesLen w) x (ed_offset w) (now w) (next_id w) (timers w)
    (parse_log w).

Definition set_ed_offset (x : option Z) (w : world) : world :=
  mkWorld (editorText w) (parsedConfig w) (activePageIndex w)
    (followCursor w) (debounceRef w) (cursorDebounceRef w) (editorTextRef w)
    (monacoEditorRef w) (followCursorRef w) (listenerConfig w)
    (previewPagesLen w) (ed_value w) x (now w) (next_id w) (timers w)
    (parse_log w).

Definition set_now (x : Z) (w : world) : world :=
  mkWorld (editorText w) (parsedConfig w) (activePageIndex w)
    (followCursor w) (debounceRef w) (cursorDebounceRef w) (editorTextRef w)
    (monacoEditorRef w) (followCursorRef w) (listenerConfig w)
    (previewPagesLen w) (ed_value w) (ed_offset w) x (next_id w) (timers w)
    (parse_log w).

Definition set_next_id (x : Z) (w : world) : world :=
  mkWorld (editorText w) (parsedConfig w) (activePageIndex w)
    (followCursor w) (debounceRef w) (cursorDebounceRef w) (editorTextRef w)
    (monacoEditorRef w) (followCursorRef w) (listenerConfig w)
    (previewPagesLen w) (ed_value w) (ed_offset w) (now w) x (timers w)
    (parse_log w).

Definition set_timers (x : list timer) (w : world) : world :=
  mkWorld (editorText w) (parsedConfig w) (activePageIndex w)
    (followCursor w) (debounceRef w) (cursorDebounceRef w) (editorTextRef w)
    (monacoEditorRef w) (followCursorRef w) (listenerConfig w)
    (previewPagesLen w) (ed_value w) (ed_offset w) (now w) (next_id w) x
    (parse_log w).

Definition set_parse_log (x : list text) (w : world) : world :=
  mkWorld (editorText w) (parsedConfig w) (activePageIndex w)
    (followCursor w) (debounceRef w) (cursorDebounceRef w) (editorTextRef w)
    (monacoEditorRef w) (followCursorRef w) (listenerConfig w)
    (previewPagesLen w) (ed_value w) (ed_offset w) (now w) (next_id w)
    (timers w) x.

Definition set_editorText (x : text) (w : world) : world :=
  mkWorld x (parsedConfig w) (activePageIndex w) (followCursor w)
    (debounceRef w) (cursorDebounceRef w) (editorTextRef w)
    (monacoEditorRef w) (followCursorRef w) (listenerConfig w)
    (previewPagesLen w) (ed_value w) (ed_offset w) (now w) (next_id w)
    (timers w) (parse_log w).

Definition set_editorTextRef (x : text) (w : world) : world :=
  mkWorld (editorText w) (parsedConfig w) (activePageIndex w)
    (followCursor w) (debounceRef w) (cursorDebounceRef w) x
    (monacoEditorRef w) (followCursorRef w) (listenerConfig w)
    (previewPagesLen w) (ed_value w) (ed_offset w) (now w) (next_id w)
    (timers w) (parse_log w).

(** The first render of [App]: no text, no editor, follow mode on. *)
Definition initial : world :=
  mkWorld [] JNull 0 true None None [] false true JNull None [] None 0 1 []
    [].

(** *** Timers *)

(** [window.setTimeout(cb, delay)]; the id returned is [next_id w]. *)
Definition setTimeout (c : callback) (delay : Z) (w : world) : world :=
  set_next_id (next_id w + 1)
    (set_timers (timers w ++ [mkTimer (next_id w) (now w + delay) c]) w).

Definition clearTimeout (id : Z) (w : world) : world :=
  set_timers (filter (fun tm => negb (tid tm =? id)) (timers w)) w.

(** [a] fires before [b]: earlier due time, then earlier creation. *)
Definition before (a b : timer) : bool :=
  (due a <? due b) || ((due a =? due b) && (tid a <? tid b)).

(** The pending timer to fire next among those due by [target]. *)
Fixpoint next_due (target : Z) (tms : list timer) : option timer :=
  match tms with
  | [] => None
  | tm :: rest =>
      let r := next_due target rest in
      if due tm <=? target then
        match r with
        | Some tm' => if before tm' tm then Some tm' else Some tm
        | None => Some tm
        end
      else r
  end.

(** The events of the component's life: [loadConfig] gets the text [t];
    the editor mounts; the user edits the text to [t] ([onChange]); the
    cursor moves to [offset] ([onDidChangeCursorPosition]); Prev or the
    left half of the story is clicked; Next or the right half; the
    follow-cursor checkbox is set to [b]; [ms] milliseconds pass. *)
Inductive event :=
| Loaded (t : text)
| Mount
| Change (t : text)
| CursorMove (offset : option Z)
| GoPrev
| GoNext
| SetFollow (b : bool)
| Elapse (ms : Z).

Section App.

(** [JSON.parse]: [None] when it throws. *)
Variable JSON_parse : text -> option json.

(** [safeJsonParse(text).value]: [null] when the parse failed. *)
Definition safeJsonParse (t : text) : json :=
  match JSON_parse t with
  | Some v => v
  | None => JNull
  end.

Definition scheduleParse (nextText : text) (w : world) : world :=
  let w1 := match debounceRef w with
            | Some id => clearTimeout id w
            | None => w
            end in
  set_debounceRef (Some (next_id w1)) (setTimeout (ParseCb nextText) 450 w1).

(** The callback of [scheduleParse]. *)
Definition parse_callback (nextText : text) (w : world) : world :=
  set_parsedConfig (safeJsonParse nextText)
    (set_parse_log (parse_log w ++ [nextText]) w).

(** [scheduleCursorSync] as created by a render whose [parsedConfig]
    is [config]. *)
Definition scheduleCursorSync (config : json) (nextText : text) (w : world)
  : world :=
  if negb (followCursorRef w) then w
  else if negb (monacoEditorRef w) then w
  else
    let w1 := match cursorDebounceRef w with
              | Some id => clearTimeout id w
              | None => w
              end in
    set_cursorDebounceRef (Some (next_id w1))
      (setTimeout (CursorCb nextText config) 120 w1).

(** The callback of [scheduleCursorSync]. *)
Definition cursor_callback (nextText : text) (config : json) (w : world)
  : world :=
  match ed_offset w with
  | None => w
  | Some offset =>
      let ranges := computePagesRanges (JsString nextText) in
      match findPageIndexAtOffset ranges offset with
      | None => w
      | Some idx =>
          let pagesLen := Z.of_nat (length (pagesOf config)) in
          let len := if pagesLen =? 0 then Z.of_nat (length ranges)
                     else pagesLen in
          set_activePageIndex
            (clampIndex idx (if len =? 0 then 1 else len)) w
      end
  end.

(** [goPrev] and [goNext] of [StoryPreview]. *)
Definition goPrev (w : world) : world :=
  let pages := pagesOf (parsedConfig w) in
  set_activePageIndex
    (clampIndex (activePageIndex w - 1) (Z.of_nat (length pages)))
    (set_followCursor false w).

Definition goNext (w : world) : world :=
  let pages := pagesOf (parsedConfig w) in
  set_activePageIndex
    (clampIndex (activePageIndex w + 1) (Z.of_nat (length pages)))
    (set_followCursor false w).

(** The effect of [StoryPreview] on [[pages.length]]. *)
Definition preview_effect (w : world) : world :=
  if truthy (parsedConfig w) then
    let n := Z.of_nat (length (pagesOf (parsedConfig w))) in
    let run := set_previewPagesLen (Some n)
                 (set_activePageIndex (clampIndex (activePageIndex w) n) w) in
    match previewPagesLen w with
    | Some m => if m =? n then w else run
    | None => run
    end
  else set_previewPagesLen None w.

(** The two effects of [App] on [[followCursor]]. *)
Definition follow_effects (w : world) : world :=
  let w1 := set_followCursorRef (followCursor w) w in
  if negb (followCursorRef w1) then w1
  else if negb (monacoEditorRef w1) then w1
  else scheduleCursorSync (parsedConfig w1) (ed_value w1) w1.

(** The render that follows a handler or a callback, and its effects;
    [follow0] is [followCursor] as the previous render saw it. *)
Definition commit (follow0 : bool) (w : world) : world :=
  let w1 := preview_effect w in
  if Bool.eqb follow0 (followCursor w1) then w1 else follow_effects w1.

Definition run_callback (c : callback) (w : world) : world :=
  match c with
  | ParseCb nextText => parse_callback nextText w
  | CursorCb nextText config => cursor_callback nextText config w
  end.

(** The timer [tm] fires. *)
Definition fire (tm : timer) (w : world) : world :=
  let w1 := set_now (Z.max (now w) (due tm)) (clearTimeout (tid tm) w) in
  commit (followCursor w1) (run_callback (cb tm) w1).

Fixpoint run_due (fuel : nat) (target : Z) (w : world) : world :=
  match fuel with
  | O => w
  | S fuel' =>
      match next_due target (timers w) with
      | None => w
      | Some tm => run_due fuel' target (fire tm w)
      end
  end.

(** [ms] milliseconds pass: the timers due by then fire in order. *)
Definition elapse (ms : Z) (w : world) : world :=
  let target := now w + Z.max 0 ms in
  set_now target (run_due (length (timers w)) target w).

Definition handler (ev : event) (w : world) : world :=
  match ev with
  | Loaded t =>
      set_parsedConfig (safeJsonParse t)
        (set_editorTextRef t (set_editorText t (set_ed_value t w)))
  | Mount =>
      if monacoEditorRef w then w
      else
        set_listenerConfig (parsedConfig initial) (set_monacoEditorRef true w)
  | Change t =>
      if negb (monacoEditorRef w) then w
      else
        scheduleCursorSync (parsedConfig w) t
          (scheduleParse t
             (set_editorTextRef t (set_editorText t (set_ed_value t w))))
  | CursorMove offset =>
      if negb (monacoEditorRef w) then w
      else
        let w1 := set_ed_offset offset w in
        scheduleCursorSync (listenerConfig w1) (ed_value w1) w1
  | GoPrev => if truthy (parsedConfig w) then goPrev w else w
  | GoNext => if truthy (parsedConfig w) then goNext w else w
  | SetFollow b =>
      if truthy (parsedConfig w) then set_followCursor b w else w
  | Elapse ms => elapse ms w
  end.

Definition dispatch (ev : event) (w : world) : world :=
  commit (followCursor w) (handler ev w).

Fixpoint run (evs : list event) (w : world) : world :=
  match evs with
  | [] => w
  | ev :: evs' => run evs' (dispatch ev w)
  end.

End App.

(** ** Sample documents *)

Definition page (id : string) : json := JObj [(js "id", JStr (js id))].

Definition document (pages : list json) : json :=
  JObj [(js "data", JObj [(js "pages", JArr pages)])].

(** [{'data':{'pages':[{'id':'a'}]}}] *)
Definition sample_one : text :=
  js "{" ++ dq (js "data") ++ js ":{" ++ pages_key ++ js ":[{"
     ++ dq (js "id") ++ js ":" ++ dq (js "a") ++ js "}]}}".

(** A stand-in for [JSON.parse] that knows the two sample texts and
    rejects every other text. *)
Definition sample_parse (t : text) : option json :=
  if text_eqb t sample_two then Some (document [page "a"; page "b"])
  else if text_eqb t sample_one then Some (document [page "a"])
  else None.

(** ** Vocabulary of the triggers' properties *)

(** Timer ids are fresh and distinct; a pending timer is the one its
    kind's ref points to, and a ref points to no timer of the other kind;
    the refs hold ids already handed out. *)
Definition timers_ok (w : world) : Prop :=
  (forall tm, In tm (timers w) -> tid tm < next_id w) /\
  NoDup (map tid (timers w)) /\
  (forall tm, In tm (timers w) ->
              is_parse tm = true <-> debounceRef w = Some (tid tm)) /\
  (forall tm, In tm (timers w) ->
              is_cursor tm = true <-> cursorDebounceRef w = Some (tid tm)) /\
  (forall id, debounceRef w = Some id -> id < next_id w) /\
  (forall id, cursorDebounceRef w = Some id -> id < next_id w).

(** The pending timers of each kind. *)
Definition parse_timers (w : world) : list timer :=
  filter is_parse (timers w).

Definition cursor_timers (w : world) : list timer :=
  filter is_cursor (timers w).

(** The bound the cursor callback clamps with: the page count of the
    configuration it closes over when that is not zero, else the number of
    ranges just scanned, else 1. *)
Definition clamp_bound (config : json) (ranges : list Range.t) : Z :=
  let pagesLen := Z.of_nat (length (pagesOf config)) in
  if pagesLen =? 0 then
    (if Z.of_nat (length ranges) =? 0 then 1 else Z.of_nat (length ranges))
  else pagesLen.

(** [w'] differs from [w] at most in [activePageIndex] and in the
    bookkeeping of the effect of [StoryPreview]. *)
Definition quiet (w w' : world) : Prop :=
  w' = set_previewPagesLen (previewPagesLen w')
         (set_activePageIndex (activePageIndex w') w).

(** The worlds the component can be in. *)
Definition reachable (parse : text -> option json) (w : world) : Prop :=
  exists evs, w = run parse evs initial.

(** What the text-change trigger reads and writes, with the flags that
    gate the handlers. *)
Definition parse_view (w : world)
  : list timer * option Z * list text * json * bool * bool :=
  (parse_timers w, debounceRef w, parse_log w, parsedConfig w,
   monacoEditorRef w, followCursor w).

(** After a render the ref of follow mode mirrors the state, and the
    effect of [StoryPreview] has seen the current page count. *)
Definition synced (w : world) : Prop :=
  followCursorRef w = followCursor w /\
  previewPagesLen w
  = if truthy (parsedConfig w)
    then Some (Z.of_nat (length (pagesOf (parsedConfig w))))
    else None.

(** ** Tactics *)

(** Run one iteration of the scanning loop on the character at the head. *)
Ltac loop_step :=
  cbn [loop app]; try unfold body; cbn -[Z.add Z.sub Z.mul Z.of_nat len].

(** ** Further vocabulary *)

(** The variables an iteration leaves, whether it continues or breaks. *)
Definition flow_vars (f : flow) : vars :=
  match f with
  | Continue v => v
  | Break v => v
  end.

(** *** What [StoryPreview] renders *)

(** [pages.length] *)
Definition pageCount (w : world) : Z :=
  Z.of_nat (length (pagesOf (parsedConfig w))).

(** [pages[activeIndex]]; [None] is [undefined]. *)
Definition activePage (w : world) : option json :=
  if activePageIndex w <? 0 then None
  else nth_error (pagesOf (parsedConfig w)) (Z.to_nat (activePageIndex w)).

(** The progress bars, [pages.map((p, idx) => ...)], from index [idx]
    on.  Each page gives one bar, with key [p.id || idx], lit when
    [idx <= activeIndex].  Reading [p.id] throws a TypeError when the
    page [p] is [null]: the result is [None], the render fails and shows
    no bar at all.  Of any other value, [p.id] is the property or
    [undefined]. *)
Fixpoint bars_from (activeIndex idx : Z) (pages : list json)
  : option (list bool) :=
  match pages with
  | [] => Some []
  | JNull :: _ => None
  | _ :: rest =>
      match bars_from activeIndex (idx + 1) rest with
      | Some bs => Some ((idx <=? activeIndex) :: bs)
      | None => None
      end
  end.

Definition bars (w : world) : option (list bool) :=
  bars_from (activePageIndex w) 0 (pagesOf (parsedConfig w)).

(** [disabled={activeIndex === 0}] of Prev and
    [disabled={activeIndex >= pages.length - 1}] of Next. *)
Definition prevDisabled (w : world) : bool := activePageIndex w =? 0.

Definition nextDisabled (w : world) : bool :=
  activePageIndex w >=? pageCount w - 1.

(** ** Strings: trimming, hexadecimal numbers, decimal rendering *)

From Stdlib Require DecimalString.

(** The code units [String.prototype.trim] and [parseInt] skip: the white
    space and line terminators of the language. *)
Definition is_white (c : N) : bool :=
  existsb (N.eqb c)
    [9; 10; 11; 12; 13; 32; 160; 5760; 8232; 8233; 8239; 8287; 12288;
     65279]%N
  || ((8192 <=? c) && (c <=? 8202))%N.

Fixpoint trim_start (t : text) : text :=
  match t with
  | [] => []
  | c :: t' => if is_white c then trim_start t' else t
  end.

(** [t.trim()] *)
Definition trim (t : text) : text :=
  rev (trim_start (rev (trim_start t))).

(** The value of a hexadecimal digit. *)
Definition digit_value (c : N) : option Z :=
  if ((48 <=? c) && (c <=? 57))%N then Some (Z.of_N c - 48)
  else if ((97 <=? c) && (c <=? 102))%N then Some (Z.of_N c - 87)
  else if ((65 <=? c) && (c <=? 70))%N then Some (Z.of_N c - 55)
  else None.

(** The values of the longest prefix of hexadecimal digits. *)
Fixpoint leading_digits (t : text) : list Z :=
  match t with
  | [] => []
  | c :: t' =>
      match digit_value c with
      | Some d => d :: leading_digits t'
      | None => []
      end
  end.

(** A JavaScript number that is an integer, or [NaN] ([None]). *)
Definition number := option Z.

(** [parseInt(s, 16)]: white space skipped, a sign, a [0x] prefix, then
    the longest run of digits; [NaN] when there is none.  (Exact as long
    as the value is below 2^53, as it is for the two characters
    [hexToRgb] passes.) *)
Definition parseInt16 (s : text) : number :=
  let s1 := trim_start s in
  let sign := match s1 with
              | c :: _ => if N.eqb c 45 then -1 else 1
              | [] => 1
              end in
  let s2 := match s1 with
            | c :: r => if N.eqb c 43 || N.eqb c 45 then r else s1
            | [] => s1
            end in
  let s3 := match s2 with
            | a :: b :: r =>
                if N.eqb a 48 && (N.eqb b 120 || N.eqb b 88) then r else s2
            | _ => s2
            end in
  match leading_digits s3 with
  | [] => None
  | ds => Some (sign * fold_left (fun acc d => acc * 16 + d) ds 0)
  end.

(** A number in a template literal. *)
Definition show_number (n : number) : text :=
  match n with
  | Some z => js (DecimalString.NilZero.string_of_int (Z.to_int z))
  | None => js "NaN"
  end.

(** ** computeValueFontSize *)

Definition computeValueFontSize (v : js_value) : Z :=
  let t := match v with
           | JsString s => trim s
           | JsOther => []
           end in
  let len := len t in
  if len <=? 10 then 54
  else if len <=? 16 then 48
  else if len <=? 26 then 40
  else if len <=? 40 then 34
  else 30.

(** ** hexToRgb and toRgba *)

Record rgb := mkRgb { r : number; g : number; b : number }.

(** [None] is [null]. *)
Definition hexToRgb (hex : js_value) : option rgb :=
  match hex with
  | JsOther => None
  | JsString h =>
      let v := trim h in
      if negb (starts_with [35%N] v) then None
      else
        match tl v with
        | [c0; c1; c2] =>
            Some (mkRgb (parseInt16 [c0; c0]) (parseInt16 [c1; c1])
                    (parseInt16 [c2; c2]))
        | [c0; c1; c2; c3; c4; c5] =>
            Some (mkRgb (parseInt16 [c0; c1]) (parseInt16 [c2; c3])
                    (parseInt16 [c4; c5]))
        | _ => None
        end
  end.

Section Colours.

(** The type of the [alpha] argument and its conversion to a string in a
    template literal. *)
Variable alpha_t : Type.
Variable show_alpha : alpha_t -> text.

Definition black (alpha : alpha_t) : text :=
  js "rgba(0,0,0," ++ show_alpha alpha ++ js ")".

Definition toRgba (color : js_value) (alpha : alpha_t) : text :=
  match color with
  | JsOther => black alpha
  | JsString c =>
      if starts_with (js "rgba(") c || starts_with (js "rgb(") c then c
      else
        match hexToRgb color with
        | None => black alpha
        | Some rgb =>
            js "rgba(" ++ show_number (r rgb) ++ js ","
               ++ show_number (g rgb) ++ js ","
               ++ show_number (b rgb) ++ js ","
               ++ show_alpha alpha ++ js ")"
        end
  end.

End Colours.

(** ** Theme sets

    The configuration as [findThemeSet] and [resolveThemeForPage] read
    it: a JSON value with its numbers.  The type of numbers, their [===]
    and their truthiness are those of the language and are taken as
    given.  An object is the list of its properties, each key once.  The
    configuration is a result of [JSON.parse]: no object or array occurs
    at two places in it, so [===] between two of them, which compares
    identities, is false. *)

Section Themes.

Variable num : Type.
Variable num_eq : num -> num -> bool.
Variable num_truthy : num -> bool.

#[local] Unset Elimination Schemes.
Inductive value :=
| VNull
| VBool (b : bool)
| VNum (n : num)
| VStr (s : text)
| VArr (items : list value)
| VObj (fields : list (text * value)).
#[local] Set Elimination Schemes.

Fixpoint field (k : text) (fields : list (text * value)) : option value :=
  match fields with
  | [] => None
  | (k', v) :: rest => if text_eqb k k' then Some v else field k rest
  end.

(** [v?.k] for a key that no string, array, number or boolean has:
    [None] is [undefined]. *)
Definition prop (k : text) (v : option value) : option value :=
  match v with
  | Some (VObj fields) => field k fields
  | _ => None
  end.

Definition value_truthy (v : value) : bool :=
  match v with
  | VNull => false
  | VBool b => b
  | VNum n => num_truthy n
  | VStr s => match s with [] => false | _ => true end
  | VArr _ => true
  | VObj _ => true
  end.

(** [a === b], for two values at different places of the configuration
    or [undefined]. *)
Definition strict_eq (a b : option value) : bool :=
  match a, b with
  | None, None => true
  | Some VNull, Some VNull => true
  | Some (VBool x), Some (VBool y) => Bool.eqb x y
  | Some (VNum x), Some (VNum y) => num_eq x y
  | Some (VStr x), Some (VStr y) => text_eqb x y
  | _, _ => false
  end.

(** [config?.data?.theme_sets] *)
Definition theme_sets (config : value) : option value :=
  prop (js "theme_sets") (prop (js "data") (Some config)).

(** [None] is [null]. *)
Definition findThemeSet (config : value) (id : option value)
  : option value :=
  match theme_sets config with
  | Some (VArr sets) =>
      find (fun s => value_truthy s && strict_eq (prop (js "id") (Some s)) id)
        sets
  | _ => None
  end.

(** [a || b] where [b] is [null] or truthy. *)
Definition or_else (a b : option value) : option value :=
  match a with
  | Some v => if value_truthy v then a else b
  | None => b
  end.

(** [page] is [pages[activeIndex]], [undefined] when there is no such
    page. *)
Definition resolveThemeForPage (config : value) (page : option value)
  : option value :=
  let defaultId :=
    prop (js "resolved_theme_set") (prop (js "data") (Some config)) in
  let pageId := prop (js "theme_set") page in
  or_else (findThemeSet config pageId)
    (or_else (findThemeSet config defaultId)
       (or_else
          (match theme_sets config with
           | Some (VArr sets) => nth_error sets 0
           | _ => None
           end)
          None)).

End Themes.

Arguments VNull {num}.
Arguments VBool {num} b.
Arguments VNum {num} n.
Arguments VStr {num} s.
Arguments VArr {num} items.
Arguments VObj {num} fields.

(** [s && s.id === id], the test of [findThemeSet]. *)
Definition names {num : Type} (num_eq : num -> num -> bool)
    (num_truthy : num -> bool) (id : option (value num)) (s : value num)
  : bool :=
  value_truthy num num_truthy s
  && strict_eq num num_eq (prop num (js "id") (Some s)) id.

(** A sample configuration with two theme sets, numbers being integers. *)
Definition sample_themes : value Z :=
  VObj [(js "data",
         VObj [(js "resolved_theme_set", VStr (js "light"));
               (js "theme_sets",
                VArr [VObj [(js "id", VStr (js "dark"))];
                      VObj [(js "id", VStr (js "light"))]])])].

(** * Properties *)

(** ** clampIndex *)

(** C6: [clampIndex index count] lies in [0, count-1] when [count > 0],
    is [0] when [count <= 0], and clamping twice is clamping once. *)
Theorem clampIndex_range_idempotent :
  forall index count : Z,
    (0 < count -> 0 <= clampIndex index count <= count - 1) /\
    (count <= 0 -> clampIndex index count = 0) /\
    clampIndex (clampIndex index count) count = clampIndex index count.
Proof.
  intros index count. unfold clampIndex.
  destruct (Z.leb_spec count 0) as [Hle | Hgt].
  - repeat split; intros; try lia.
  - repeat split; intros; lia.
Qed.

Example clampIndex_samples :
  clampIndex 7 3 = 2 /\ clampIndex (-4) 3 = 0 /\ clampIndex 1 3 = 1 /\
  clampIndex 5 0 = 0 /\ clampIndex 5 (-2) = 0.
Proof. repeat split. Qed.

(** ** findPageIndexAtOffset *)

Lemma within_dec r offset :
  (offset >=? Range.start r) && (offset <=? Range.end_ r) = true
  <-> within r offset.
Proof.
  unfold within. rewrite andb_true_iff, Z.geb_le, Z.leb_le. tauto.
Qed.

Lemma find_from_some rs : forall i offset k,
  find_from rs i offset = Some k <->
  exists n r,
    k = i + Z.of_nat n /\ nth_error rs n = Some r /\ within r offset /\
    forall m r', (m < n)%nat -> nth_error rs m = Some r' -> ~ within r' offset.
Proof.
  induction rs as [| r0 rs IH]; intros i offset k; simpl.
  - split; [discriminate |].
    intros (n & r & _ & Hn & _). destruct n; discriminate.
  - destruct ((offset >=? Range.start r0) && (offset <=? Range.end_ r0)) eqn:E.
    + apply within_dec in E. split.
      * intros [= <-]. exists 0%nat, r0.
        split; [lia |]. split; [reflexivity |]. split; [exact E |].
        intros m r' Hm. lia.
      * intros (n & r & -> & Hn & Hw & Hfirst).
        destruct n as [| n]; [f_equal; lia |].
        exfalso. apply (Hfirst 0%nat r0); [lia | reflexivity | exact E].
    + assert (Hnot : ~ within r0 offset).
      { intro Hw. apply within_dec in Hw. congruence. }
      rewrite IH. split.
      * intros (n & r & -> & Hn & Hw & Hfirst).
        exists (S n), r.
        split; [lia |]. split; [exact Hn |]. split; [exact Hw |].
        intros [| m] r' Hm Hr'; simpl in Hr'.
        -- injection Hr' as <-. exact Hnot.
        -- apply (Hfirst m); [lia | exact Hr'].
      * intros (n & r & -> & Hn & Hw & Hfirst).
        destruct n as [| n]; simpl in Hn.
        -- injection Hn as <-. contradiction.
        -- exists n, r.
           split; [lia |]. split; [exact Hn |]. split; [exact Hw |].
           intros m r' Hm Hr'. apply (Hfirst (S m)); [lia | exact Hr'].
Qed.

Lemma find_from_none rs : forall i offset,
  find_from rs i offset = None <->
  forall r, In r rs -> ~ within r offset.
Proof.
  induction rs as [| r0 rs IH]; intros i offset; simpl.
  - split; [intros _ r [] | reflexivity].
  - destruct ((offset >=? Range.start r0) && (offset <=? Range.end_ r0)) eqn:E.
    + apply within_dec in E. split; [discriminate |].
      intros H. exfalso. apply (H r0); auto.
    + rewrite IH. split.
      * intros H r [<- | Hin]; [| auto].
        intro Hw. apply within_dec in Hw. congruence.
      * intros H r Hin. apply H. auto.
Qed.

(** C5: [findPageIndexAtOffset] returns the first index whose range holds
    the offset, both ends included, and [null] exactly when no range
    does; for the single range [{start:5, end:20}] that is index 0 for the
    offsets 5 to 20 and [null] for the others, 4 and 21 among them. *)
Theorem findPageIndexAtOffset_first_inclusive :
  forall (rs : list Range.t) (offset : Z),
    (forall k,
        findPageIndexAtOffset rs offset = Some k <->
        exists n r,
          k = Z.of_nat n /\ nth_error rs n = Some r /\ within r offset /\
          forall m r', (m < n)%nat -> nth_error rs m = Some r' ->
                       ~ within r' offset) /\
    (findPageIndexAtOffset rs offset = None <->
     forall r, In r rs -> ~ within r offset) /\
    (findPageIndexAtOffset [Range.mk 5 20] offset =
     if (5 <=? offset) && (offset <=? 20) then Some 0 else None).
Proof.
  intros rs offset. unfold findPageIndexAtOffset. split; [| split].
  - intro k. rewrite find_from_some. simpl. tauto.
  - apply find_from_none.
  - simpl. rewrite Z.geb_leb. reflexivity.
Qed.

Example findPageIndexAtOffset_samples :
  let r := [Range.mk 5 20] in
  findPageIndexAtOffset r 4 = None /\
  findPageIndexAtOffset r 5 = Some 0 /\
  findPageIndexAtOffset r 20 = Some 0 /\
  findPageIndexAtOffset r 21 = None /\
  findPageIndexAtOffset [Range.mk 0 9; Range.mk 5 20] 7 = Some 0 /\
  findPageIndexAtOffset [Range.mk 0 3; Range.mk 5 20] 7 = Some 1.
Proof. repeat split. Qed.

(** ** indexOf *)

Lemma len_app (a b : text) : len (a ++ b) = len a + len b.
Proof. unfold len. rewrite length_app. lia. Qed.

Lemma len_cons c (a : text) : len (c :: a) = len a + 1.
Proof. unfold len. simpl length. lia. Qed.

Lemma len_nonneg (a : text) : 0 <= len a.
Proof. unfold len. lia. Qed.

Lemma starts_with_true needle : forall t,
  starts_with needle t = true <-> exists b, t = needle ++ b.
Proof.
  induction needle as [| c needle IH]; intros t; simpl.
  - split; [intros _; exists t; reflexivity | reflexivity].
  - destruct t as [| d t].
    + split; [discriminate | intros [b Hb]; discriminate].
    + rewrite andb_true_iff, N.eqb_eq, IH. split.
      * intros [-> [b ->]]. exists b. reflexivity.
      * intros [b [= -> ->]]. split; [reflexivity | exists b; reflexivity].
Qed.

Lemma index_from_found needle : forall a t i,
  first_at needle a t -> index_from needle t i = i + len a.
Proof.
  induction a as [| c a IH]; intros t i [[b ->] Hmin].
  - simpl. destruct (needle ++ b) eqn:E; simpl;
      (replace (starts_with needle _) with true;
       [unfold len; simpl; lia |]);
      symmetry; apply starts_with_true; exists b; rewrite <- E; reflexivity.
  - simpl app. simpl index_from.
    destruct (starts_with needle (c :: a ++ needle ++ b)) eqn:E.
    + apply starts_with_true in E. destruct E as [b' E].
      specialize (Hmin [] b' E). simpl in Hmin. lia.
    + rewrite (IH (a ++ needle ++ b) (i + 1)).
      * rewrite len_cons. lia.
      * split; [exists b; reflexivity |].
        intros a' b' E'.
        specialize (Hmin (c :: a') b'). simpl in Hmin.
        rewrite E' in Hmin. specialize (Hmin eq_refl). lia.
Qed.

Lemma index_from_inv needle : forall t i,
  0 <= i -> 0 <= index_from needle t i ->
  exists a, first_at needle a t /\ index_from needle t i = i + len a.
Proof.
  induction t as [| c t IH]; intros i Hi Hfound; simpl in *.
  - destruct (starts_with needle []) eqn:E; [| lia].
    apply starts_with_true in E. destruct E as [b E].
    exists []. split; [| unfold len; simpl; lia].
    split; [exists b; exact E | intros; simpl; lia].
  - destruct (starts_with needle (c :: t)) eqn:E.
    + apply starts_with_true in E. destruct E as [b E].
      exists []. split; [| unfold len; simpl; lia].
      split; [exists b; exact E | intros; simpl; lia].
    + destruct (IH (i + 1)) as (a & [[b Hb] Hmin] & Hidx);
        [lia | exact Hfound |].
      exists (c :: a). split.
      * split; [exists b; simpl; rewrite Hb; reflexivity |].
        intros [| c' a'] b' E'.
        -- assert (starts_with needle (c :: t) = true)
             by (apply starts_with_true; exists b'; exact E').
           congruence.
        -- simpl in E'. injection E' as _ E'.
           specialize (Hmin a' b' E'). simpl. lia.
      * rewrite Hidx, len_cons. lia.
Qed.

Lemma index_from_absent needle t i :
  0 <= i -> ~ occurs needle t -> index_from needle t i < 0.
Proof.
  intros Hi Hno.
  destruct (Z.lt_ge_cases (index_from needle t i) 0) as [H | H]; [exact H |].
  destruct (index_from_inv needle t i Hi H) as (a & [[b Hb] _] & _).
  exfalso. apply Hno. exists a, b. exact Hb.
Qed.

Lemma indexOf_zero t needle : indexOf t needle 0 = index_from needle t 0.
Proof.
  unfold indexOf. pose proof (len_nonneg t).
  replace (Z.min (Z.max 0 0) (len t)) with 0 by lia. reflexivity.
Qed.

Lemma indexOf_after (a b needle : text) :
  indexOf (a ++ b) needle (len a) = index_from needle b (len a).
Proof.
  unfold indexOf. pose proof (len_nonneg a). pose proof (len_nonneg b).
  rewrite len_app.
  replace (Z.min (Z.max (len a) 0) (len a + len b)) with (len a) by lia.
  unfold len. rewrite Nat2Z.id, skipn_app, skipn_all, Nat.sub_diag.
  reflexivity.
Qed.

Lemma in_of_split {A} (y : A) : forall l2 l1 x r1 r2,
  l1 ++ x :: r1 = l2 ++ y :: r2 ->
  (length l2 < length l1)%nat -> In y l1.
Proof.
  induction l2 as [| z l2 IH]; intros l1 x r1 r2 E Hlt.
  - destruct l1 as [| w l1]; simpl in *; [lia |].
    injection E as -> _. left. reflexivity.
  - destruct l1 as [| w l1]; simpl in *; [lia |].
    injection E as _ E. right. apply (IH l1 x r1 r2 E). lia.
Qed.

Lemma first_char_at (c : N) (b rest : text) :
  ~ In c b -> first_at [c] b (b ++ c :: rest).
Proof.
  intros Hno. split; [exists rest; reflexivity |].
  intros a' b' E.
  destruct (Nat.le_gt_cases (length b) (length a')) as [H | H]; [exact H |].
  exfalso. apply Hno. apply (in_of_split c a' b c rest b' E H).
Qed.

Lemma pages_key_no_bracket : ~ In lbracket pages_key.
Proof. vm_compute. intuition discriminate. Qed.

(** The two [indexOf] calls on a text whose array has been located. *)
Lemma locate_array (a b rest : text) :
  first_at pages_key a (a ++ pages_key ++ b ++ lbracket :: rest) ->
  ~ In lbracket b ->
  computePagesRanges (JsString (a ++ pages_key ++ b ++ lbracket :: rest))
  = ranges (loop rest (len a + len pages_key + len b + 1) init_vars).
Proof.
  intros Hfirst Hb. unfold computePagesRanges.
  rewrite indexOf_zero, (index_from_found _ a _ 0 Hfirst). simpl (0 + len a).
  pose proof (len_nonneg a). pose proof (len_nonneg b).
  destruct (Z.ltb_spec (len a) 0); [lia |].
  rewrite indexOf_after.
  assert (Hf : first_at [lbracket] (pages_key ++ b)
                 (pages_key ++ b ++ lbracket :: rest)).
  { rewrite app_assoc. apply first_char_at.
    intro Hin. apply in_app_or in Hin. destruct Hin as [Hin | Hin];
      [exact (pages_key_no_bracket Hin) | exact (Hb Hin)]. }
  rewrite (index_from_found _ _ _ (len a) Hf).
  rewrite len_app.
  pose proof (len_nonneg pages_key).
  destruct (Z.ltb_spec (len a + (len pages_key + len b)) 0); [lia |].
  f_equal. f_equal; [| lia].
  replace (Z.to_nat (len a + (len pages_key + len b) + 1))
    with (length (a ++ pages_key ++ b ++ [lbracket]))
    by (unfold len; rewrite !length_app;
        change (length [lbracket]) with 1%nat; lia).
  replace (a ++ pages_key ++ b ++ lbracket :: rest)
    with ((a ++ pages_key ++ b ++ [lbracket]) ++ rest)
    by (rewrite <- !app_assoc; reflexivity).
  rewrite skipn_app, skipn_all, Nat.sub_diag. reflexivity.
Qed.

(** ** The scanning loop on well-formed pieces of text *)

Lemma eqb_diff (c d : N) : c <> d -> N.eqb c d = false.
Proof. apply N.eqb_neq. Qed.

(** Inside a string only the backslash and the quote are looked at: the
    iteration never leaves the loop and keeps [depth], [start], [ranges]. *)
Lemma body_in_string i ch v :
  inString v = true ->
  exists v', body i ch v = Continue v' /\
             depth v' = depth v /\ start v' = start v /\ ranges v' = ranges v.
Proof.
  intros Hs. unfold body. rewrite Hs.
  destruct (escape v); [eexists; split; [reflexivity | auto] |].
  destruct (N.eqb ch backslash); [eexists; split; [reflexivity | auto] |].
  destruct (N.eqb ch quote); eexists; split; try reflexivity; auto.
Qed.

Lemma loop_str_body s :
  str_body s ->
  forall k i d st rs,
    loop (s ++ quote :: k) i (mkVars true false d st rs)
    = loop k (i + len s + 1) (mkVars false false d st rs).
Proof.
  induction 1 as [| c s Hq Hb _ IH | c s _ IH]; intros k i d st rs.
  - simpl. f_equal. unfold len. simpl. lia.
  - simpl app. loop_step.
    rewrite (eqb_diff _ _ Hb), (eqb_diff _ _ Hq), IH, len_cons.
    f_equal. lia.
  - simpl app. simpl loop. rewrite IH, !len_cons. f_equal. lia.
Qed.

Lemma loop_nested u :
  nested u ->
  forall k i d st rs,
    0 < d ->
    loop (u ++ k) i (mkVars false false d st rs)
    = loop k (i + len u) (mkVars false false d st rs).
Proof.
  induction 1 as [| c u Hq Hl Hr _ IH | s u Hs _ IH | u1 u2 _ IH1 _ IH2];
    intros k i d st rs Hd.
  - simpl. f_equal. unfold len. simpl. lia.
  - simpl app. loop_step.
    rewrite (eqb_diff _ _ Hq), (eqb_diff _ _ Hl), (eqb_diff _ _ Hr).
    replace (d =? 0) with false by (symmetry; apply Z.eqb_neq; lia).
    rewrite andb_false_r, IH by exact Hd. rewrite len_cons. f_equal. lia.
  - assert (El : len (dq s ++ u) = len s + 2 + len u).
    { unfold dq. rewrite len_app, len_cons, len_app.
      change (len [quote]) with 1. lia. }
    rewrite El.
    replace ((dq s ++ u) ++ k) with (quote :: s ++ quote :: (u ++ k))
      by (unfold dq; simpl; rewrite <- !app_assoc; reflexivity).
    simpl loop. rewrite loop_str_body by exact Hs.
    rewrite IH by exact Hd. f_equal. lia.
  - assert (El : len (lbrace :: u1 ++ rbrace :: u2) = len u1 + 2 + len u2).
    { rewrite len_cons, len_app, len_cons. lia. }
    rewrite El.
    replace ((lbrace :: u1 ++ rbrace :: u2) ++ k)
      with (lbrace :: u1 ++ rbrace :: (u2 ++ k))
      by (simpl; rewrite <- app_assoc; reflexivity).
    loop_step.
    replace (d =? 0) with false by (symmetry; apply Z.eqb_neq; lia).
    rewrite IH1 by lia. loop_step.
    replace (d + 1 >? 0) with true by (symmetry; apply Z.gtb_lt; lia).
    replace (d + 1 - 1) with d by lia.
    replace (d =? 0) with false by (symmetry; apply Z.eqb_neq; lia).
    simpl. rewrite IH2 by exact Hd. f_equal. lia.
Qed.

Lemma loop_record u :
  nested u ->
  forall k i rs,
    0 <= i ->
    loop (lbrace :: u ++ rbrace :: k) i (mkVars false false 0 (-1) rs)
    = loop k (i + len u + 2)
        (mkVars false false 0 (-1) (rs ++ [Range.mk i (i + len u + 2)])).
Proof.
  intros Hu k i rs Hi. loop_step.
  rewrite loop_nested by (exact Hu || lia).
  loop_step.
  replace (i >=? 0) with true by (symmetry; apply Z.geb_le; lia).
  replace (i + 1 + len u + 1) with (i + len u + 2) by lia. reflexivity.
Qed.

Lemma render_cons e els : render (e :: els) = render_el e ++ render els.
Proof. reflexivity. Qed.

Lemma len_render_el e :
  len (render_el e)
  = match e with Gap _ => 1 | Lit s => len s + 2 | Rec u => len u + 2 end.
Proof.
  destruct e as [c | s | u]; simpl render_el; unfold dq;
    rewrite ?len_cons, ?len_app; try change (len [quote]) with 1;
    try change (len [rbrace]) with 1; try reflexivity; lia.
Qed.

Lemma loop_elements els :
  Forall element_ok els ->
  forall k i rs,
    0 <= i ->
    loop (render els ++ k) i (mkVars false false 0 (-1) rs)
    = loop k (i + len (render els))
        (mkVars false false 0 (-1) (rs ++ spans i els)).
Proof.
  induction 1 as [| e els He _ IH]; intros k i rs Hi.
  - cbn [render map concat app spans]. rewrite app_nil_r.
    change (len []) with 0. f_equal. lia.
  - rewrite render_cons, <- app_assoc, len_app. cbn [spans].
    pose proof (len_nonneg (render_el e)) as Hlen.
    rewrite len_render_el in *.
    destruct e as [c | s | u]; cbn [element_ok is_record render_el] in *.
    + destruct He as (Hq & Hl & Hr & Hk).
      loop_step.
      rewrite (eqb_diff _ _ Hq), (eqb_diff _ _ Hl), (eqb_diff _ _ Hr),
        (eqb_diff _ _ Hk).
      cbn [andb]. rewrite IH by lia. f_equal. lia.
    + replace (dq s ++ render els ++ k)
        with (quote :: s ++ quote :: (render els ++ k))
        by (unfold dq; simpl; rewrite <- app_assoc; reflexivity).
      loop_step. rewrite loop_str_body by exact He.
      rewrite IH by lia.
      replace (i + 1 + len s + 1) with (i + (len s + 2)) by lia.
      f_equal. lia.
    + replace ((lbrace :: u ++ [rbrace]) ++ render els ++ k)
        with (lbrace :: u ++ rbrace :: (render els ++ k))
        by (simpl; rewrite <- app_assoc; reflexivity).
      rewrite loop_record by (exact He || exact Hi).
      rewrite IH by lia.
      replace (i + len u + 2) with (i + (len u + 2)) by lia.
      rewrite <- app_assoc. f_equal. lia.
Qed.

Lemma spans_length i els : length (spans i els) = count_records els.
Proof.
  revert i. induction els as [| e els IH]; intro i; [reflexivity |].
  unfold count_records in *. simpl. rewrite length_app, IH.
  destruct (is_record e); reflexivity.
Qed.

(** ** Building well-formed pieces *)

Lemma str_body_plain s : forallb plain_in_string s = true -> str_body s.
Proof.
  induction s as [| c s IH]; simpl; [constructor |].
  unfold plain_in_string at 1.
  rewrite !andb_true_iff, !negb_true_iff, !N.eqb_neq.
  intros [[Hq Hb] Hs]. apply sb_plain; auto.
Qed.

Lemma str_body_app s1 s2 : str_body s1 -> str_body s2 -> str_body (s1 ++ s2).
Proof.
  induction 1 as [| c s Hq Hb _ IH | c s _ IH]; intro H2; simpl.
  - exact H2.
  - apply sb_plain; auto.
  - apply sb_escaped; auto.
Qed.

Lemma str_body_backslashes n : str_body (repeat backslash (2 * n)).
Proof.
  induction n as [| n IH]; [constructor |].
  replace (2 * S n)%nat with (S (S (2 * n))) by lia.
  simpl repeat. apply sb_escaped. exact IH.
Qed.

(** An odd run of backslashes followed by a quote is a run of escaped
    characters: it can stand inside a string literal. *)
Lemma str_body_escaped_quote s1 n s2 :
  str_body s1 -> str_body s2 ->
  str_body (s1 ++ repeat backslash (2 * n + 1) ++ quote :: s2).
Proof.
  intros H1 H2. apply str_body_app; [exact H1 |].
  rewrite repeat_app, <- app_assoc. apply str_body_app.
  - apply str_body_backslashes.
  - simpl. apply sb_escaped. exact H2.
Qed.

Lemma nested_plain u : forallb plain_in_record u = true -> nested u.
Proof.
  induction u as [| c u IH]; simpl; [constructor |].
  unfold plain_in_record at 1.
  rewrite !andb_true_iff, !negb_true_iff, !N.eqb_neq.
  intros [[[Hq Hl] Hr] Hu]. apply ne_char; auto.
Qed.

Lemma nested_app u1 u2 : nested u1 -> nested u2 -> nested (u1 ++ u2).
Proof.
  induction 1 as [| c u Hq Hl Hr _ IH | s u Hs _ IH | v1 v2 Hv1 _ _ IH2];
    intro H2; simpl.
  - exact H2.
  - apply ne_char; auto.
  - rewrite <- app_assoc. apply ne_string; auto.
  - rewrite <- app_assoc. simpl. apply ne_group; auto.
Qed.

Lemma nested_field u1 s u2 :
  nested u1 -> str_body s -> nested u2 -> nested (u1 ++ dq s ++ u2).
Proof.
  intros H1 Hs H2. apply nested_app; [exact H1 |].
  apply ne_string; assumption.
Qed.

Lemma first_at_check needle a b :
  index_from needle (a ++ needle ++ b) 0 = len a ->
  first_at needle a (a ++ needle ++ b).
Proof.
  intros Hidx. split; [exists b; reflexivity |].
  intros a' b' E.
  destruct (index_from_inv needle (a ++ needle ++ b) 0) as (a0 & [_ Hmin] & H0);
    [lia | rewrite Hidx; apply len_nonneg |].
  specialize (Hmin a' b' E).
  rewrite Hidx in H0. unfold len in H0. lia.
Qed.

(** ** The scanner on a located, closed array *)

Lemma scan_elements (a b sfx : text) (els : list element) :
  first_at pages_key a
    (a ++ pages_key ++ b ++ lbracket :: render els ++ rbracket :: sfx) ->
  ~ In lbracket b ->
  Forall element_ok els ->
  computePagesRanges
    (JsString
       (a ++ pages_key ++ b ++ lbracket :: render els ++ rbracket :: sfx))
  = spans (len a + len pages_key + len b + 1) els.
Proof.
  intros Hfirst Hb Hok.
  rewrite locate_array by assumption.
  pose proof (len_nonneg a). pose proof (len_nonneg b).
  pose proof (len_nonneg pages_key).
  unfold init_vars. rewrite loop_elements by (assumption || lia).
  loop_step. reflexivity.
Qed.

Lemma scan_single_record (a b u sfx : text) :
  first_at pages_key a
    (a ++ pages_key ++ b ++ lbracket :: (lbrace :: u ++ [rbrace])
       ++ rbracket :: sfx) ->
  ~ In lbracket b ->
  nested u ->
  computePagesRanges
    (JsString (a ++ pages_key ++ b ++ lbracket :: (lbrace :: u ++ [rbrace])
                 ++ rbracket :: sfx))
  = [Range.mk (len a + len pages_key + len b + 1)
       (len a + len pages_key + len b + 1 + (len u + 2))].
Proof.
  intros Hfirst Hb Hu.
  pose proof (scan_elements a b sfx [Rec u]) as H.
  cbn [render map concat render_el] in H. rewrite app_nil_r in H.
  rewrite H by (assumption || (constructor; [exact Hu | constructor])).
  cbn [spans is_record]. rewrite len_render_el, app_nil_r. reflexivity.
Qed.

(** C9: when the quoted key [pages] does not occur in the text, or no [[]
    occurs from its first occurrence on, the scan returns no range, and
    then no offset resolves to a page. *)
Theorem scan_unlocatable_array :
  forall t : text,
    (~ occurs pages_key t \/
     exists a b, first_at pages_key a t /\ t = a ++ b /\ ~ In lbracket b) ->
    computePagesRanges (JsString t) = [] /\
    forall offset,
      findPageIndexAtOffset (computePagesRanges (JsString t)) offset = None.
Proof.
  intros t H.
  assert (E : computePagesRanges (JsString t) = []).
  { unfold computePagesRanges. rewrite indexOf_zero.
    destruct H as [Hno | (a & b & Hfirst & -> & Hb)].
    - pose proof (index_from_absent pages_key t 0 (Z.le_refl 0) Hno) as Hneg.
      destruct (Z.ltb_spec (index_from pages_key t 0) 0); [reflexivity | lia].
    - rewrite (index_from_found _ a _ 0 Hfirst). simpl (0 + len a).
      destruct (len a <? 0); [reflexivity |].
      rewrite indexOf_after.
      assert (Hneg : index_from [lbracket] b (len a) < 0).
      { apply index_from_absent; [apply len_nonneg |].
        intros (x & y & ->). apply Hb. apply in_or_app. right. left.
        reflexivity. }
      destruct (Z.ltb_spec (index_from [lbracket] b (len a)) 0);
        [reflexivity | lia]. }
  rewrite E. split; [reflexivity | intro offset; reflexivity].
Qed.

Lemma scan_unlocatable_array_witness :
  computePagesRanges (JsString (js "{" ++ pages_key ++ js ": 12}")) = [] /\
  forall offset,
    findPageIndexAtOffset
      (computePagesRanges (JsString (js "{" ++ pages_key ++ js ": 12}")))
      offset = None.
Proof.
  apply (scan_unlocatable_array (js "{" ++ pages_key ++ js ": 12}")).
  right. exists (js "{"), (pages_key ++ js ": 12}").
  split; [apply first_at_check; reflexivity |].
  split; [reflexivity |].
  vm_compute. intuition discriminate.
Defined.

Example scan_without_key :
  computePagesRanges (JsString (js "{[{}]}")) = [] /\
  computePagesRanges (JsString []) = [] /\
  computePagesRanges JsOther = [].
Proof. repeat split. Qed.

(** C1: on a text whose array is closed by a []] and holds, between
    characters and closed string literals, records with balanced braces
    and closed string literals, the scan returns the spans of the
    top-level records in their order in the text, one range per record,
    and nothing of what follows the closing []]. *)
Theorem scan_balanced_array :
  forall (a b sfx : text) (els : list element),
    first_at pages_key a
      (a ++ pages_key ++ b ++ lbracket :: render els ++ rbracket :: sfx) ->
    ~ In lbracket b ->
    Forall element_ok els ->
    computePagesRanges
      (JsString
         (a ++ pages_key ++ b ++ lbracket :: render els ++ rbracket :: sfx))
    = spans (len a + len pages_key + len b + 1) els /\
    length
      (computePagesRanges
         (JsString
            (a ++ pages_key ++ b ++ lbracket :: render els ++ rbracket :: sfx)))
    = count_records els.
Proof.
  intros a b sfx els Hfirst Hb Hok.
  rewrite scan_elements by assumption.
  split; [reflexivity | apply spans_length].
Qed.

Lemma scan_balanced_array_witness :
  computePagesRanges (JsString sample_two)
  = [Range.mk 18 28; Range.mk 29 39] /\
  length (computePagesRanges (JsString sample_two)) = 2%nat.
Proof.
  apply (scan_balanced_array (js "{" ++ dq (js "data") ++ js ":{") (js ":")
           (js "}}")
           [Rec (dq (js "id") ++ js ":" ++ dq (js "a")); Gap 44;
            Rec (dq (js "id") ++ js ":" ++ dq (js "b"))]).
  - apply (first_at_check pages_key (js "{" ++ dq (js "data") ++ js ":{")).
    reflexivity.
  - vm_compute. intuition discriminate.
  - repeat apply Forall_cons; try apply Forall_nil.
    + apply (nested_field [] (js "id") (js ":" ++ dq (js "a")));
        [apply ne_nil | apply str_body_plain; reflexivity |].
      apply (nested_field (js ":") (js "a") []);
        [apply nested_plain; reflexivity | apply str_body_plain; reflexivity
        | apply ne_nil].
    + vm_compute. intuition discriminate.
    + apply (nested_field [] (js "id") (js ":" ++ dq (js "b")));
        [apply ne_nil | apply str_body_plain; reflexivity |].
      apply (nested_field (js ":") (js "b") []);
        [apply nested_plain; reflexivity | apply str_body_plain; reflexivity
        | apply ne_nil].
Defined.

(** C3: inside a string an iteration of the loop leaves [depth], [start]
    and [ranges] as they are, whatever the character; hence a record with
    a string field of any content, unbalanced braces included, yields
    exactly one range, from its opening brace to just after its closing
    brace. *)
Theorem string_braces_inert :
  (forall i ch v,
      inString v = true ->
      exists v', body i ch v = Continue v' /\
                 depth v' = depth v /\ start v' = start v /\
                 ranges v' = ranges v) /\
  (forall (a b u1 s u2 sfx : text),
      first_at pages_key a
        (a ++ pages_key ++ b ++ lbracket ::
           (lbrace :: (u1 ++ dq s ++ u2) ++ [rbrace]) ++ rbracket :: sfx) ->
      ~ In lbracket b ->
      nested u1 -> str_body s -> nested u2 ->
      computePagesRanges
        (JsString
           (a ++ pages_key ++ b ++ lbracket ::
              (lbrace :: (u1 ++ dq s ++ u2) ++ [rbrace]) ++ rbracket :: sfx))
      = [Range.mk (len a + len pages_key + len b + 1)
           (len a + len pages_key + len b + 1
            + (len (u1 ++ dq s ++ u2) + 2))]).
Proof.
  split.
  - exact body_in_string.
  - intros a b u1 s u2 sfx Hfirst Hb H1 Hs H2.
    apply scan_single_record; try assumption.
    apply nested_field; assumption.
Qed.

Lemma string_braces_inert_witness :
  In lbrace (js "{unbalanced") /\
  computePagesRanges (JsString sample_unbalanced) = [Range.mk 10 29].
Proof.
  split; [left; reflexivity |].
  apply (proj2 string_braces_inert (js "{") (js ":")
           (dq (js "t") ++ js ":") (js "{unbalanced") [] (js "}")).
  - apply (first_at_check pages_key (js "{")). reflexivity.
  - vm_compute. intuition discriminate.
  - apply (nested_field [] (js "t") (js ":"));
      [apply ne_nil | apply str_body_plain; reflexivity
      | apply nested_plain; reflexivity].
  - apply str_body_plain. reflexivity.
  - apply ne_nil.
Defined.

Lemma loop_backslash_pairs n : forall k i d st rs,
  loop (repeat backslash (2 * n) ++ k) i (mkVars true false d st rs)
  = loop k (i + 2 * Z.of_nat n) (mkVars true false d st rs).
Proof.
  induction n as [| n IH]; intros k i d st rs.
  - simpl. f_equal. lia.
  - replace (2 * S n)%nat with (S (S (2 * n))) by lia.
    cbn [repeat]. loop_step. rewrite IH. f_equal.
    lia.
Qed.

(** After a character other than a backslash has been read inside a
    string, no escape is pending. *)
Lemma body_clears_escape i c v v' :
  inString v = true -> c <> backslash ->
  body i c v = Continue v' -> escape v' = false.
Proof.
  intros Hs Hc. unfold body. rewrite Hs.
  destruct (escape v) eqn:E; [intros [= <-]; reflexivity |].
  rewrite (eqb_diff _ _ Hc).
  destruct (N.eqb c quote); intros [= <-]; simpl; auto.
Qed.

(** C4: inside a string, a run of backslashes starts with no escape
    pending (it follows the opening quote or a character that is no
    backslash), and a quote that follows an odd number of backslashes is
    consumed as an escaped character: the scanner is still inside the
    string after it, with the same depth, start and ranges; so a record
    holding such a string, whatever follows the escaped quote in it,
    yields one range that ends at the record's own closing brace. *)
Theorem escaped_quote_stays_in_string :
  (forall i c v v',
      inString v = true -> c <> backslash ->
      body i c v = Continue v' -> escape v' = false) /\
  (forall (n : nat) (k : text) (i d st : Z) (rs : list Range.t),
      loop (repeat backslash (2 * n + 1) ++ quote :: k) i
           (mkVars true false d st rs)
      = loop k (i + 2 * Z.of_nat n + 2) (mkVars true false d st rs)) /\
  (forall (a b u1 s1 s2 u2 sfx : text) (n : nat),
      first_at pages_key a
        (a ++ pages_key ++ b ++ lbracket ::
           (lbrace ::
              (u1 ++ dq (s1 ++ repeat backslash (2 * n + 1) ++ quote :: s2)
                  ++ u2) ++ [rbrace]) ++ rbracket :: sfx) ->
      ~ In lbracket b ->
      nested u1 -> str_body s1 -> str_body s2 -> nested u2 ->
      computePagesRanges
        (JsString
           (a ++ pages_key ++ b ++ lbracket ::
              (lbrace ::
                 (u1 ++ dq (s1 ++ repeat backslash (2 * n + 1) ++ quote :: s2)
                     ++ u2) ++ [rbrace]) ++ rbracket :: sfx))
      = [Range.mk (len a + len pages_key + len b + 1)
           (len a + len pages_key + len b + 1
            + (len (u1 ++ dq (s1 ++ repeat backslash (2 * n + 1)
                                 ++ quote :: s2) ++ u2) + 2))]).
Proof.
  split; [exact body_clears_escape | split].
  - intros n k i d st rs.
    rewrite repeat_app, <- app_assoc, loop_backslash_pairs.
    cbn [repeat]. loop_step. f_equal. lia.
  - intros a b u1 s1 s2 u2 sfx n Hfirst Hb H1 Hs1 Hs2 H2.
    apply scan_single_record; try assumption.
    apply nested_field; try assumption.
    apply str_body_escaped_quote; assumption.
Qed.

Lemma escaped_quote_stays_in_string_witness :
  computePagesRanges (JsString sample_escaped) = [Range.mk 10 23].
Proof.
  apply (proj2 (proj2 escaped_quote_stays_in_string) (js "{") (js ":")
           (dq (js "t") ++ js ":") (js "a") (js "}b") [] (js "}") 0%nat).
  - apply (first_at_check pages_key (js "{")). reflexivity.
  - vm_compute. intuition discriminate.
  - apply (nested_field [] (js "t") (js ":"));
      [apply ne_nil | apply str_body_plain; reflexivity
      | apply nested_plain; reflexivity].
  - apply str_body_plain. reflexivity.
  - apply str_body_plain. reflexivity.
  - apply ne_nil.
Defined.

(** With an even number of backslashes the quote does close the string. *)
Example even_backslashes_close :
  forall k i d st rs,
    loop (repeat backslash 2 ++ quote :: k) i (mkVars true false d st rs)
    = loop k (i + 3) (mkVars false false d st rs).
Proof.
  intros. loop_step. f_equal. lia.
Qed.

(** ** The invariant of the scanning loop *)

Lemma ordered_snoc rs x :
  ordered rs ->
  (forall r, In r rs -> Range.end_ r <= Range.start x) ->
  ordered (rs ++ [x]).
Proof.
  induction rs as [| r rs IH]; simpl; intros Ho Hx.
  - split; [intros r' [] | exact I].
  - destruct Ho as [Hr Ho]. split.
    + intros r' Hin. apply in_app_or in Hin. destruct Hin as [Hin | [<- | []]].
      * apply Hr. exact Hin.
      * apply Hx. left. reflexivity.
    + apply IH; [exact Ho | intros r' Hin; apply Hx; right; exact Hin].
Qed.

Lemma char_at_app_head (pre rest : text) ch :
  char_at (pre ++ ch :: rest) (len pre) = Some ch.
Proof.
  unfold char_at. pose proof (len_nonneg pre).
  destruct (Z.ltb_spec (len pre) 0); [lia |].
  unfold len. rewrite Nat2Z.id, nth_error_app2, Nat.sub_diag by lia.
  reflexivity.
Qed.

Lemma body_inv (t : text) i ch v :
  scan_inv t i v -> 0 <= i -> i + 1 <= len t -> char_at t i = Some ch ->
  exists v', (body i ch v = Continue v' \/ body i ch v = Break v') /\
             scan_inv t (i + 1) v'.
Proof.
  intros (Hi & Hst & Hrs & Hch & Hord) Hi0 Hi1 Hc.
  assert (Hkeep : forall ins esc,
             scan_inv t (i + 1)
               (mkVars ins esc (depth v) (start v) (ranges v))).
  { intros ins esc. unfold scan_inv. cbn [start ranges].
    split; [lia |]. split; [lia |]. split; [| split; assumption].
    intros r Hr. destruct (Hrs r Hr) as (Hc1 & Hc2 & Hc3).
    split; [exact Hc1 |]. split; [lia | exact Hc3]. }
  assert (Hsame : scan_inv t (i + 1) v).
  { destruct v as [ins esc d st rs]. apply (Hkeep ins esc). }
  unfold body.
  destruct (inString v).
  { destruct (escape v); [eexists; split; [left; reflexivity | apply Hkeep] |].
    destruct (N.eqb ch backslash);
      [eexists; split; [left; reflexivity | apply Hkeep] |].
    destruct (N.eqb ch quote);
      eexists; (split; [left; reflexivity |]); auto. }
  destruct (N.eqb ch quote);
    [eexists; split; [left; reflexivity | apply Hkeep] |].
  destruct (N.eqb_spec ch lbrace) as [-> | _].
  { eexists; split; [left; reflexivity |].
    unfold scan_inv. cbn [start ranges].
    destruct (Z.eqb_spec (depth v) 0) as [Hd | Hd].
    - split; [lia |]. split; [lia |].
      split; [| split; [intros _; exact Hc | exact Hord]].
      intros r Hr. destruct (Hrs r Hr) as (Hc1 & Hc2 & Hc3).
      split; [exact Hc1 |]. split; lia.
    - split; [lia |]. split; [lia |]. split; [| split; assumption].
      intros r Hr. destruct (Hrs r Hr) as (Hc1 & Hc2 & Hc3).
      split; [exact Hc1 |]. split; [lia | exact Hc3]. }
  destruct (N.eqb_spec ch rbrace) as [-> | _].
  { set (depth1 := if depth v >? 0 then depth v - 1 else depth v).
    destruct ((depth1 =? 0) && (start v >=? 0)) eqn:E.
    - apply andb_true_iff in E. destruct E as [_ Hs].
      apply Z.geb_le in Hs.
      eexists; split; [left; reflexivity |].
      unfold scan_inv. cbn [start ranges].
      split; [lia |]. split; [lia |]. split; [| split; [intros; lia |]].
      + intros r Hr. apply in_app_or in Hr. destruct Hr as [Hr | [<- | []]].
        * destruct (Hrs r Hr) as (Hc1 & Hc2 & Hc3).
          split; [exact Hc1 |]. split; lia.
        * split; [| cbn [Range.end_]; split; lia].
          unfold closed_range. cbn [Range.start Range.end_].
          split; [lia |]. split; [lia |]. split; [lia |].
          split; [apply Hch; lia |].
          replace (i + 1 - 1) with i by lia. exact Hc.
      + apply ordered_snoc; [exact Hord |].
        intros r Hr. cbn [Range.start]. apply (Hrs r Hr). exact Hs.
    - eexists; split; [left; reflexivity |].
      unfold scan_inv. cbn [start ranges].
      split; [lia |]. split; [lia |]. split; [| split; assumption].
      intros r Hr. destruct (Hrs r Hr) as (Hc1 & Hc2 & Hc3).
      split; [exact Hc1 |]. split; [lia | exact Hc3]. }
  destruct (N.eqb ch rbracket && (depth v =? 0));
    eexists; (split; [(left; reflexivity) || (right; reflexivity) |]);
    exact Hsame.
Qed.

Lemma scan_inv_end t i v : scan_inv t i v -> scan_inv t (len t) v.
Proof.
  intros (Hi & Hst & Hrs & Hch & Hord). unfold scan_inv.
  split; [lia |]. split; [lia |]. split; [| split; assumption].
  intros r Hr. destruct (Hrs r Hr) as (Hc1 & Hc2 & Hc3).
  split; [exact Hc1 |]. split; [lia | exact Hc3].
Qed.

Lemma loop_inv (t : text) : forall rest pre v,
  t = pre ++ rest -> scan_inv t (len pre) v ->
  scan_inv t (len t) (loop rest (len pre) v).
Proof.
  induction rest as [| ch rest IH]; intros pre v Ht Hinv.
  - simpl. apply (scan_inv_end t (len pre)). exact Hinv.
  - cbn [loop].
    assert (Hlen : len pre + 1 <= len t).
    { rewrite Ht, len_app, len_cons. pose proof (len_nonneg rest). lia. }
    destruct (body_inv t (len pre) ch v Hinv (len_nonneg pre) Hlen)
      as (v' & [E | E] & Hv').
    { rewrite Ht. apply char_at_app_head. }
    + rewrite E.
      replace (len pre + 1) with (len (pre ++ [ch])) in *
        by (rewrite len_app; reflexivity).
      apply IH; [rewrite <- app_assoc; exact Ht | exact Hv'].
    + rewrite E. apply (scan_inv_end t (len pre + 1)). exact Hv'.
Qed.

Lemma scan_inv_init t i : 0 <= i <= len t -> scan_inv t i init_vars.
Proof.
  intros Hi. unfold scan_inv, init_vars. cbn [start ranges].
  split; [lia |]. split; [lia |].
  split; [intros r [] |]. split; [intros; lia | exact I].
Qed.

Lemma scan_open_record (a b u : text) (els : list element) :
  first_at pages_key a
    (a ++ pages_key ++ b ++ lbracket :: render els ++ lbrace :: u) ->
  ~ In lbracket b ->
  Forall element_ok els ->
  nested u ->
  computePagesRanges
    (JsString (a ++ pages_key ++ b ++ lbracket :: render els ++ lbrace :: u))
  = spans (len a + len pages_key + len b + 1) els.
Proof.
  intros Hfirst Hb Hok Hu.
  rewrite locate_array by assumption.
  pose proof (len_nonneg a). pose proof (len_nonneg b).
  pose proof (len_nonneg pages_key).
  unfold init_vars. rewrite loop_elements by (assumption || lia).
  loop_step.
  rewrite <- (app_nil_r u), loop_nested by (exact Hu || lia).
  reflexivity.
Qed.

(** C2: every range the scan emits lies in the text, has [start < end],
    starts at an opening brace and ends just after a closing brace that is
    in the text; the ranges come in left-to-right order and do not
    overlap.  A record whose closing brace is not in the text is thus in
    no range: when the text stops inside a record, the scan returns the
    spans of the records closed before it. *)
Theorem scan_ranges_closed_ordered :
  (forall t : text,
      (forall r, In r (computePagesRanges (JsString t)) -> closed_range t r) /\
      ordered (computePagesRanges (JsString t))) /\
  (forall (a b u : text) (els : list element),
      first_at pages_key a
        (a ++ pages_key ++ b ++ lbracket :: render els ++ lbrace :: u) ->
      ~ In lbracket b ->
      Forall element_ok els ->
      nested u ->
      computePagesRanges
        (JsString
           (a ++ pages_key ++ b ++ lbracket :: render els ++ lbrace :: u))
      = spans (len a + len pages_key + len b + 1) els).
Proof.
  split; [| exact scan_open_record].
  intro t. unfold computePagesRanges.
  destruct (indexOf t pages_key 0 <? 0); [split; [intros r [] | exact I] |].
  set (arrStart := indexOf t [lbracket] (indexOf t pages_key 0)).
  destruct (Z.ltb_spec arrStart 0) as [Hneg | Hpos];
    [split; [intros r [] | exact I] |].
  destruct (Z.le_gt_cases (arrStart + 1) (len t)) as [Hin | Hout].
  - set (n := Z.to_nat (arrStart + 1)).
    assert (Hpre : len (firstn n t) = arrStart + 1).
    { unfold len in *. rewrite length_firstn. lia. }
    pose proof (loop_inv t (skipn n t) (firstn n t) init_vars) as Hl.
    rewrite Hpre in Hl.
    destruct Hl as (_ & _ & Hrs & _ & Hord).
    + symmetry. apply firstn_skipn.
    + apply scan_inv_init. lia.
    + split; [| exact Hord].
      intros r Hr. apply (Hrs r Hr).
  - rewrite skipn_all2 by (unfold len in Hout; lia).
    simpl. split; [intros r [] | exact I].
Qed.

Lemma scan_ranges_closed_ordered_witness :
  computePagesRanges (JsString sample_open) = [Range.mk 10 20] /\
  len sample_open = 27 /\
  char_at sample_open 21 = Some lbrace.
Proof.
  split; [| split; reflexivity].
  apply (proj2 scan_ranges_closed_ordered (js "{") (js ":")
           (dq (js "id") ++ js ":")
           [Rec (dq (js "id") ++ js ":" ++ dq (js "a")); Gap 44]).
  - apply (first_at_check pages_key (js "{")). reflexivity.
  - vm_compute. intuition discriminate.
  - repeat apply Forall_cons; try apply Forall_nil.
    + apply (nested_field [] (js "id") (js ":" ++ dq (js "a")));
        [apply ne_nil | apply str_body_plain; reflexivity |].
      apply (nested_field (js ":") (js "a") []);
        [apply nested_plain; reflexivity | apply str_body_plain; reflexivity
        | apply ne_nil].
    + vm_compute. intuition discriminate.
  - apply (nested_field [] (js "id") (js ":"));
      [apply ne_nil | apply str_body_plain; reflexivity
      | apply nested_plain; reflexivity].
Defined.

(** ** The two triggers *)

Example end_to_end :
  let w := run sample_parse
             [Mount; Loaded sample_two; CursorMove (Some 30); Elapse 120]
             initial in
  activePageIndex w = 1 /\ followCursor w = true /\
  let w' := dispatch sample_parse GoPrev w in
  activePageIndex w' = 0 /\ followCursor w' = false /\
  followCursorRef w' = false.
Proof. vm_compute. repeat split. Qed.

Lemma dispatch_Loaded parse t v w :
  parse t = Some v ->
  dispatch parse (Loaded t) w
  = commit (followCursor w)
      (set_parsedConfig v
         (set_editorTextRef t (set_editorText t (set_ed_value t w)))).
Proof.
  intros H. unfold dispatch, handler, safeJsonParse. rewrite H. reflexivity.
Qed.

(** *** Timers: one per kind *)

Lemma kind_split tm : is_cursor tm = negb (is_parse tm).
Proof. unfold is_cursor, is_parse. destruct (cb tm); reflexivity. Qed.

Lemma timers_ok_frame w w' :
  timers w' = timers w -> next_id w' = next_id w ->
  debounceRef w' = debounceRef w ->
  cursorDebounceRef w' = cursorDebounceRef w ->
  timers_ok w -> timers_ok w'.
Proof.
  unfold timers_ok. intros -> -> -> ->. auto.
Qed.

(** Dropping timers keeps the ids of the others distinct. *)
Lemma ids_distinct_filter (keep : timer -> bool) (tms : list timer) :
  NoDup (map tid tms) -> NoDup (map tid (filter keep tms)).
Proof.
  intros Hnd. induction tms as [| tm tms IH]; simpl; [apply NoDup_nil |].
  apply NoDup_cons_iff in Hnd. destruct Hnd as [Hfresh Hnd].
  destruct (keep tm); [| apply IH; exact Hnd].
  simpl. apply NoDup_cons; [| apply IH; exact Hnd].
  intro Hin. apply Hfresh. apply in_map_iff in Hin.
  destruct Hin as (other & Hid & Hin). apply filter_In in Hin.
  apply in_map_iff. exists other. tauto.
Qed.

Lemma NoDup_map_snoc {A} (f : A -> Z) (l : list A) (x : A) :
  NoDup (map f l) -> (forall y, In y l -> f y < f x) ->
  NoDup (map f (l ++ [x])).
Proof.
  intros Hnd Hlt. rewrite map_app. simpl.
  apply NoDup_app; [exact Hnd | repeat constructor; auto |].
  intros z Hz [<- | []]. apply in_map_iff in Hz.
  destruct Hz as (y & Hy & Hin). specialize (Hlt y Hin). lia.
Qed.

Lemma timers_ok_clear id w : timers_ok w -> timers_ok (clearTimeout id w).
Proof.
  intros (Hlt & Hnd & Hp & Hc & Hd & He).
  destruct w; unfold timers_ok, clearTimeout in *; simpl in *.
  split; [| split; [| split; [| split; [| split]]]]; auto.
  - intros tm Hin. apply filter_In in Hin. apply Hlt. tauto.
  - apply ids_distinct_filter. exact Hnd.
  - intros tm Hin. apply filter_In in Hin. apply Hp. tauto.
  - intros tm Hin. apply filter_In in Hin. apply Hc. tauto.
Qed.

(** [clearTimeout] on a kind's ref removes the timers of that kind and
    no other. *)
Lemma filter_clear_own (p : timer -> bool) (tms : list timer) (id : Z) :
  (forall tm, In tm tms -> p tm = true -> tid tm = id) ->
  filter p (filter (fun tm => negb (tid tm =? id)) tms) = [].
Proof.
  induction tms as [| tm tms IH]; simpl; intros H; [reflexivity |].
  destruct (tid tm =? id) eqn:E; simpl.
  - apply IH. intros tm' Hin. apply H. right. exact Hin.
  - destruct (p tm) eqn:Ep.
    + rewrite (H tm (or_introl eq_refl) Ep), Z.eqb_refl in E. discriminate.
    + apply IH. intros tm' Hin. apply H. right. exact Hin.
Qed.

Lemma filter_clear_other (p : timer -> bool) (tms : list timer) (id : Z) :
  (forall tm, In tm tms -> p tm = true -> tid tm <> id) ->
  filter p (filter (fun tm => negb (tid tm =? id)) tms) = filter p tms.
Proof.
  induction tms as [| tm tms IH]; simpl; intros H; [reflexivity |].
  destruct (tid tm =? id) eqn:E; simpl.
  - destruct (p tm) eqn:Ep.
    + apply Z.eqb_eq in E. exfalso.
      exact (H tm (or_introl eq_refl) Ep E).
    + apply IH. intros tm' Hin. apply H. right. exact Hin.
  - destruct (p tm); [f_equal |]; apply IH; intros tm' Hin; apply H; right;
      exact Hin.
Qed.

Lemma timers_ok_scheduleParse t w :
  timers_ok w -> timers_ok (scheduleParse t w).
Proof.
  intros Hok. unfold scheduleParse.
  set (w1 := match debounceRef w with
             | Some id => clearTimeout id w
             | None => w
             end).
  assert (Hok1 : timers_ok w1)
    by (subst w1; destruct (debounceRef w); [apply timers_ok_clear |];
        exact Hok).
  assert (Hnone : forall tm, In tm (timers w1) -> is_parse tm = false).
  { intros tm Hin. destruct (is_parse tm) eqn:Ep; [| reflexivity]. exfalso.
    subst w1. destruct Hok as (_ & _ & Hp & _).
    destruct (debounceRef w) as [id |] eqn:Ed.
    - assert (Hin0 : In tm (timers w)).
      { destruct w; unfold clearTimeout in Hin; simpl in *.
        apply filter_In in Hin. tauto. }
      pose proof (proj1 (Hp tm Hin0) Ep) as Hid.
      injection Hid as ->.
      destruct w; unfold clearTimeout in Hin; simpl in *.
      apply filter_In in Hin. rewrite Z.eqb_refl in Hin.
      destruct Hin. discriminate.
    - pose proof (proj1 (Hp tm Hin) Ep) as Hid. discriminate. }
  clearbody w1. clear Hok.
  destruct Hok1 as (Hlt & Hnd & Hp & Hc & Hd & He).
  destruct w1; unfold timers_ok, setTimeout in *; simpl in *.
  split; [| split; [| split; [| split; [| split]]]].
  - intros tm Hin. apply in_app_or in Hin. destruct Hin as [Hin | [<- | []]];
      [specialize (Hlt tm Hin) | simpl]; lia.
  - apply NoDup_map_snoc; [exact Hnd | simpl; exact Hlt].
  - intros tm Hin. apply in_app_or in Hin. destruct Hin as [Hin | [<- | []]].
    + rewrite (Hnone tm Hin). specialize (Hlt tm Hin).
      split; [discriminate | intros [= E]; lia].
    + simpl. split; reflexivity.
  - intros tm Hin. apply in_app_or in Hin. destruct Hin as [Hin | [<- | []]].
    + apply Hc. exact Hin.
    + simpl. split; [discriminate |]. intros E. specialize (He _ E). lia.
  - intros id [= <-]. lia.
  - intros id E. specialize (He id E). lia.
Qed.

Lemma timers_ok_scheduleCursorSync c t w :
  timers_ok w -> timers_ok (scheduleCursorSync c t w).
Proof.
  intros Hok. unfold scheduleCursorSync.
  destruct (negb (followCursorRef w)); [exact Hok |].
  destruct (negb (monacoEditorRef w)); [exact Hok |].
  set (w1 := match cursorDebounceRef w with
             | Some id => clearTimeout id w
             | None => w
             end).
  assert (Hok1 : timers_ok w1)
    by (subst w1; destruct (cursorDebounceRef w); [apply timers_ok_clear |];
        exact Hok).
  assert (Hnone : forall tm, In tm (timers w1) -> is_cursor tm = false).
  { intros tm Hin. destruct (is_cursor tm) eqn:Ep; [| reflexivity]. exfalso.
    subst w1. destruct Hok as (_ & _ & _ & Hc & _).
    destruct (cursorDebounceRef w) as [id |] eqn:Ed.
    - assert (Hin0 : In tm (timers w)).
      { destruct w; unfold clearTimeout in Hin; simpl in *.
        apply filter_In in Hin. tauto. }
      pose proof (proj1 (Hc tm Hin0) Ep) as Hid.
      injection Hid as ->.
      destruct w; unfold clearTimeout in Hin; simpl in *.
      apply filter_In in Hin. rewrite Z.eqb_refl in Hin.
      destruct Hin. discriminate.
    - pose proof (proj1 (Hc tm Hin) Ep) as Hid. discriminate. }
  clearbody w1. clear Hok.
  destruct Hok1 as (Hlt & Hnd & Hp & Hc & Hd & He).
  destruct w1; unfold timers_ok, setTimeout in *; simpl in *.
  split; [| split; [| split; [| split; [| split]]]].
  - intros tm Hin. apply in_app_or in Hin. destruct Hin as [Hin | [<- | []]];
      [specialize (Hlt tm Hin) | simpl]; lia.
  - apply NoDup_map_snoc; [exact Hnd | simpl; exact Hlt].
  - intros tm Hin. apply in_app_or in Hin. destruct Hin as [Hin | [<- | []]].
    + apply Hp. exact Hin.
    + simpl. split; [discriminate |]. intros E. specialize (Hd _ E). lia.
  - intros tm Hin. apply in_app_or in Hin. destruct Hin as [Hin | [<- | []]].
    + rewrite (Hnone tm Hin). specialize (Hlt tm Hin).
      split; [discriminate | intros [= E]; lia].
    + simpl. split; reflexivity.
  - intros id E. specialize (Hd id E). lia.
  - intros id [= <-]. lia.
Qed.

Lemma quiet_refl w : quiet w w.
Proof. destruct w; reflexivity. Qed.

Lemma quiet_trans w1 w2 w3 : quiet w1 w2 -> quiet w2 w3 -> quiet w1 w3.
Proof.
  unfold quiet. destruct w1, w2, w3; simpl. intros H12 H23.
  injection H12; injection H23; intros; subst. reflexivity.
Qed.

Lemma quiet_fields w w' :
  quiet w w' ->
  timers w' = timers w /\ next_id w' = next_id w /\
  debounceRef w' = debounceRef w /\
  cursorDebounceRef w' = cursorDebounceRef w /\
  now w' = now w /\ parse_log w' = parse_log w /\
  parsedConfig w' = parsedConfig w /\
  monacoEditorRef w' = monacoEditorRef w /\
  followCursor w' = followCursor w /\
  followCursorRef w' = followCursorRef w.
Proof.
  unfold quiet. intros ->. destruct w; simpl. repeat split.
Qed.

Lemma timers_ok_quiet w w' : quiet w w' -> timers_ok w -> timers_ok w'.
Proof.
  intros H. pose proof (quiet_fields w w' H) as (E1 & E2 & E3 & E4 & _).
  apply timers_ok_frame; assumption.
Qed.

Lemma preview_effect_quiet w : quiet w (preview_effect w).
Proof.
  unfold preview_effect, quiet.
  destruct (truthy (parsedConfig w));
    [destruct (previewPagesLen w) as [m |];
     [destruct (m =? _) |] |];
    destruct w; reflexivity.
Qed.

Lemma cursor_callback_quiet t c w : quiet w (cursor_callback t c w).
Proof.
  unfold cursor_callback, quiet.
  destruct (ed_offset w) as [o |]; [| destruct w; reflexivity].
  destruct (findPageIndexAtOffset _ o); destruct w; reflexivity.
Qed.

(** A render after which [followCursor] is what it was runs the effect
    of [StoryPreview] only. *)
Lemma commit_same_follow w : commit (followCursor w) w = preview_effect w.
Proof.
  unfold commit.
  pose proof (quiet_fields _ _ (preview_effect_quiet w))
    as (_ & _ & _ & _ & _ & _ & _ & _ & E & _).
  rewrite E, Bool.eqb_reflx. reflexivity.
Qed.

Lemma timers_ok_follow_effects w : timers_ok w -> timers_ok (follow_effects w).
Proof.
  intros Hok. unfold follow_effects.
  assert (Hok1 : timers_ok (set_followCursorRef (followCursor w) w))
    by (revert Hok; apply timers_ok_frame; destruct w; reflexivity).
  destruct (negb _); [exact Hok1 |].
  destruct (negb _); [exact Hok1 |].
  apply timers_ok_scheduleCursorSync. exact Hok1.
Qed.

Lemma timers_ok_commit f w : timers_ok w -> timers_ok (commit f w).
Proof.
  intros Hok. unfold commit.
  pose proof (timers_ok_quiet _ _ (preview_effect_quiet w) Hok) as Hok1.
  destruct (Bool.eqb _ _); [exact Hok1 |].
  apply timers_ok_follow_effects. exact Hok1.
Qed.

Lemma timers_ok_run_callback parse c w :
  timers_ok w -> timers_ok (run_callback parse c w).
Proof.
  destruct c as [t | t cfg]; simpl.
  - apply timers_ok_frame; destruct w; reflexivity.
  - apply timers_ok_quiet, cursor_callback_quiet.
Qed.

Lemma timers_ok_fire parse tm w : timers_ok w -> timers_ok (fire parse tm w).
Proof.
  intros Hok. unfold fire. apply timers_ok_commit, timers_ok_run_callback.
  apply (timers_ok_frame (clearTimeout (tid tm) w));
    try (destruct w; reflexivity).
  apply timers_ok_clear. exact Hok.
Qed.

Lemma timers_ok_run_due parse target fuel : forall w,
  timers_ok w -> timers_ok (run_due parse fuel target w).
Proof.
  induction fuel as [| fuel IH]; intros w Hok; simpl; [exact Hok |].
  destruct (next_due target (timers w)); [| exact Hok].
  apply IH, timers_ok_fire. exact Hok.
Qed.

Lemma timers_ok_elapse parse ms w :
  timers_ok w -> timers_ok (elapse parse ms w).
Proof.
  intros Hok. unfold elapse.
  apply (timers_ok_frame (run_due parse (length (timers w))
                            (now w + Z.max 0 ms) w));
    try (destruct (run_due _ _ _ _); reflexivity).
  apply timers_ok_run_due. exact Hok.
Qed.

Lemma timers_ok_handler parse ev w :
  timers_ok w -> timers_ok (handler parse ev w).
Proof.
  intros Hok. destruct ev as [t | | t | o | | | b | ms]; simpl.
  - revert Hok. apply timers_ok_frame; destruct w; reflexivity.
  - destruct (monacoEditorRef w) eqn:E; [exact Hok |].
    revert Hok. apply timers_ok_frame; destruct w; reflexivity.
  - destruct (negb (monacoEditorRef w)); [exact Hok |].
    apply timers_ok_scheduleCursorSync, timers_ok_scheduleParse.
    revert Hok. apply timers_ok_frame; destruct w; reflexivity.
  - destruct (negb (monacoEditorRef w)); [exact Hok |].
    apply timers_ok_scheduleCursorSync.
    revert Hok. apply timers_ok_frame; destruct w; reflexivity.
  - destruct (truthy (parsedConfig w)); [| exact Hok].
    revert Hok. apply timers_ok_frame; destruct w; reflexivity.
  - destruct (truthy (parsedConfig w)); [| exact Hok].
    revert Hok. apply timers_ok_frame; destruct w; reflexivity.
  - destruct (truthy (parsedConfig w)); [| exact Hok].
    revert Hok. apply timers_ok_frame; destruct w; reflexivity.
  - apply timers_ok_elapse. exact Hok.
Qed.

Lemma timers_ok_dispatch parse ev w :
  timers_ok w -> timers_ok (dispatch parse ev w).
Proof.
  intros Hok. unfold dispatch. apply timers_ok_commit, timers_ok_handler.
  exact Hok.
Qed.

Lemma timers_ok_initial : timers_ok initial.
Proof.
  unfold timers_ok, initial; simpl.
  split; [intros tm [] |]. split; [apply NoDup_nil |].
  split; [intros tm [] |]. split; [intros tm [] |].
  split; intros id; discriminate.
Qed.

Lemma timers_ok_run parse evs : forall w,
  timers_ok w -> timers_ok (run parse evs w).
Proof.
  induction evs as [| ev evs IH]; intros w Hok; simpl; [exact Hok |].
  apply IH, timers_ok_dispatch. exact Hok.
Qed.

Lemma timers_ok_reachable parse w : reachable parse w -> timers_ok w.
Proof.
  intros [evs ->]. apply timers_ok_run, timers_ok_initial.
Qed.

Lemma at_most_one {A} (f : A -> Z) (p : A -> bool) (c : Z) (l : list A) :
  NoDup (map f l) ->
  (forall x, In x l -> p x = true -> f x = c) ->
  (length (filter p l) <= 1)%nat.
Proof.
  induction l as [| x l IH]; simpl; intros Hnd Hc; [lia |].
  inversion Hnd as [| y ys Hnot Hnd']; subst.
  destruct (p x) eqn:Ep.
  - assert (E : filter p l = []).
    { destruct (filter p l) as [| z zs] eqn:Ef; [reflexivity |]. exfalso.
      assert (Hz : In z (filter p l)) by (rewrite Ef; left; reflexivity).
      apply filter_In in Hz. destruct Hz as [Hz Hpz].
      apply Hnot. apply in_map_iff. exists z. split; [| exact Hz].
      rewrite (Hc z (or_intror Hz) Hpz), (Hc x (or_introl eq_refl) Ep).
      reflexivity. }
    rewrite E. simpl. lia.
  - apply IH; [exact Hnd' | intros z Hz; apply Hc; right; exact Hz].
Qed.

Lemma timers_ok_one_per_kind w :
  timers_ok w ->
  (length (parse_timers w) <= 1)%nat /\ (length (cursor_timers w) <= 1)%nat.
Proof.
  intros (_ & Hnd & Hp & Hc & _). unfold parse_timers, cursor_timers. split.
  - destruct (debounceRef w) as [id |] eqn:E.
    + apply (at_most_one tid is_parse id); [exact Hnd |].
      intros tm Hin Hk. pose proof (proj1 (Hp tm Hin) Hk) as H.
      congruence.
    + apply (at_most_one tid is_parse 0); [exact Hnd |].
      intros tm Hin Hk. pose proof (proj1 (Hp tm Hin) Hk). congruence.
  - destruct (cursorDebounceRef w) as [id |] eqn:E.
    + apply (at_most_one tid is_cursor id); [exact Hnd |].
      intros tm Hin Hk. pose proof (proj1 (Hc tm Hin) Hk) as H.
      congruence.
    + apply (at_most_one tid is_cursor 0); [exact Hnd |].
      intros tm Hin Hk. pose proof (proj1 (Hc tm Hin) Hk). congruence.
Qed.

(** *** The text-change trigger *)

Lemma filter_none {A} (p : A -> bool) (l : list A) :
  (forall x, In x l -> p x = false) -> filter p l = [].
Proof.
  induction l as [| x l IH]; simpl; intros H; [reflexivity |].
  rewrite (H x (or_introl eq_refl)). apply IH. intros y Hy. apply H.
  right. exact Hy.
Qed.

Lemma NoDup_map_inj {A} (f : A -> Z) (l : list A) x y :
  NoDup (map f l) -> In x l -> In y l -> f x = f y -> x = y.
Proof.
  induction l as [| z l IH]; simpl; intros Hnd Hx Hy E; [contradiction |].
  inversion Hnd as [| ? ? Hnot Hnd']; subst.
  destruct Hx as [-> | Hx], Hy as [-> | Hy]; auto.
  - exfalso. apply Hnot. rewrite E. apply in_map. exact Hy.
  - exfalso. apply Hnot. rewrite <- E. apply in_map. exact Hx.
Qed.

Lemma parse_view_quiet w w' : quiet w w' -> parse_view w' = parse_view w.
Proof.
  intros H. unfold parse_view, parse_timers.
  pose proof (quiet_fields w w' H)
    as (-> & _ & -> & _ & _ & -> & -> & -> & -> & _).
  reflexivity.
Qed.

Lemma scheduleParse_view t w :
  timers_ok w ->
  parse_view (scheduleParse t w)
  = ([mkTimer (next_id w) (now w + 450) (ParseCb t)], Some (next_id w),
     parse_log w, parsedConfig w, monacoEditorRef w, followCursor w) /\
  now (scheduleParse t w) = now w.
Proof.
  intros (_ & _ & Hp & _). unfold parse_view, parse_timers, scheduleParse.
  destruct (debounceRef w) as [id |] eqn:E.
  - assert (F : filter is_parse
                  (filter (fun tm => negb (tid tm =? id)) (timers w)) = []).
    { apply filter_clear_own. intros tm Hin Hk.
      pose proof (proj1 (Hp tm Hin) Hk) as H. congruence. }
    destruct w; unfold clearTimeout, setTimeout in *; simpl in *.
    rewrite filter_app, F. simpl. split; reflexivity.
  - assert (F : filter is_parse (timers w) = []).
    { apply filter_none. intros tm Hin.
      destruct (is_parse tm) eqn:Hk; [| reflexivity].
      pose proof (proj1 (Hp tm Hin) Hk). congruence. }
    destruct w; unfold setTimeout in *; simpl in *.
    rewrite filter_app, F. simpl. split; reflexivity.
Qed.

Lemma scheduleCursorSync_view c t w :
  timers_ok w ->
  parse_view (scheduleCursorSync c t w) = parse_view w /\
  now (scheduleCursorSync c t w) = now w.
Proof.
  intros (_ & _ & _ & Hc & _). unfold scheduleCursorSync.
  destruct (negb (followCursorRef w)); [split; reflexivity |].
  destruct (negb (monacoEditorRef w)); [split; reflexivity |].
  unfold parse_view, parse_timers.
  destruct (cursorDebounceRef w) as [id |] eqn:E.
  - assert (F : filter is_parse
                  (filter (fun tm => negb (tid tm =? id)) (timers w))
                = filter is_parse (timers w)).
    { apply filter_clear_other. intros tm Hin Hk Hid.
      assert (Hcur : is_cursor tm = true)
        by (apply (Hc tm Hin); congruence).
      rewrite kind_split, Hk in Hcur. discriminate. }
    destruct w; unfold clearTimeout, setTimeout in *; simpl in *.
    rewrite filter_app, F. simpl. rewrite app_nil_r. split; reflexivity.
  - destruct w; unfold setTimeout in *; simpl in *.
    rewrite filter_app. simpl. rewrite app_nil_r. split; reflexivity.
Qed.

(** A new event cancels and replaces the pending timer of its kind. *)
Lemma scheduleCursorSync_replaces c t w :
  timers_ok w -> followCursorRef w = true -> monacoEditorRef w = true ->
  cursor_timers (scheduleCursorSync c t w)
  = [mkTimer (next_id w) (now w + 120) (CursorCb t c)].
Proof.
  intros (_ & _ & _ & Hc & _) Hf Hm. unfold scheduleCursorSync.
  rewrite Hf, Hm. simpl negb. cbv iota. unfold cursor_timers.
  destruct (cursorDebounceRef w) as [id |] eqn:E.
  - assert (F : filter is_cursor
                  (filter (fun tm => negb (tid tm =? id)) (timers w)) = []).
    { apply filter_clear_own. intros tm Hin Hk.
      pose proof (proj1 (Hc tm Hin) Hk) as H. congruence. }
    destruct w; unfold clearTimeout, setTimeout in *; simpl in *.
    rewrite filter_app, F. reflexivity.
  - assert (F : filter is_cursor (timers w) = []).
    { apply filter_none. intros tm Hin.
      destruct (is_cursor tm) eqn:Hk; [| reflexivity].
      pose proof (proj1 (Hc tm Hin) Hk). congruence. }
    destruct w; unfold setTimeout in *; simpl in *.
    rewrite filter_app, F. reflexivity.
Qed.

Lemma dispatch_Change_view parse t w :
  timers_ok w -> monacoEditorRef w = true ->
  parse_view (dispatch parse (Change t) w)
  = ([mkTimer (next_id w) (now w + 450) (ParseCb t)], Some (next_id w),
     parse_log w, parsedConfig w, true, followCursor w) /\
  now (dispatch parse (Change t) w) = now w.
Proof.
  intros Hok Hm. unfold dispatch, handler. rewrite Hm. simpl negb. cbv iota.
  set (wa := set_editorTextRef t (set_editorText t (set_ed_value t w))).
  assert (Hoka : timers_ok wa)
    by (revert Hok; apply timers_ok_frame; destruct w; reflexivity).
  assert (Ea : next_id wa = next_id w /\ now wa = now w /\
               parse_log wa = parse_log w /\
               parsedConfig wa = parsedConfig w /\
               monacoEditorRef wa = monacoEditorRef w /\
               followCursor wa = followCursor w)
    by (destruct w; simpl; repeat split).
  destruct Ea as (E1 & E2 & E3 & E4 & E5 & E6).
  clearbody wa.
  pose proof (scheduleParse_view t wa Hoka) as [Hb Hnb].
  pose proof (timers_ok_scheduleParse t wa Hoka) as Hokb.
  pose proof (scheduleCursorSync_view (parsedConfig w) t _ Hokb) as [Hc Hnc].
  set (wc := scheduleCursorSync (parsedConfig w) t (scheduleParse t wa)) in *.
  assert (Ef : followCursor wc = followCursor w).
  { rewrite Hb in Hc. unfold parse_view in Hc. injection Hc as _ _ _ _ _ E.
    congruence. }
  rewrite <- Ef, commit_same_follow.
  rewrite (parse_view_quiet _ _ (preview_effect_quiet wc)).
  pose proof (quiet_fields _ _ (preview_effect_quiet wc))
    as (_ & _ & _ & _ & En & _).
  rewrite En, Hnc, Hnb, Hc, Hb, E1, E2, E3, E4, E5, E6, Hm, Ef.
  split; reflexivity.
Qed.

Lemma next_due_in target tms : forall x,
  next_due target tms = Some x -> In x tms /\ due x <= target.
Proof.
  induction tms as [| tm tms IH]; simpl; intros x H; [discriminate |].
  destruct (Z.leb_spec (due tm) target) as [Hle | Hgt].
  - destruct (next_due target tms) as [tm' |].
    + destruct (before tm' tm); injection H as <-.
      * destruct (IH tm' eq_refl). split; [right |]; assumption.
      * split; [left; reflexivity | exact Hle].
    + injection H as <-. split; [left; reflexivity | exact Hle].
  - destruct (IH x H). split; [right |]; assumption.
Qed.

Lemma next_due_some target tms tm :
  In tm tms -> due tm <= target -> next_due target tms <> None.
Proof.
  induction tms as [| tm' tms IH]; simpl; intros Hin Hle; [contradiction |].
  destruct Hin as [-> | Hin].
  - destruct (Z.leb_spec (due tm) target); [| lia].
    destruct (next_due target tms) as [x |]; [destruct (before x tm) |];
      discriminate.
  - specialize (IH Hin Hle).
    destruct (due tm' <=? target); [| exact IH].
    destruct (next_due target tms) as [x |]; [| contradiction].
    destruct (before x tm'); discriminate.
Qed.

Lemma length_clear (tms : list timer) (x : timer) :
  In x tms ->
  (length (filter (fun tm => negb (tid tm =? tid x)%Z) tms) < length tms)%nat.
Proof.
  induction tms as [| tm tms IH]; simpl; intros Hin; [contradiction |].
  pose proof (filter_length_le (fun tm => negb (tid tm =? tid x)) tms).
  destruct Hin as [-> | Hin].
  - rewrite Z.eqb_refl. simpl. lia.
  - specialize (IH Hin). destruct (negb _); simpl; lia.
Qed.

Lemma fire_unfold parse tm w :
  fire parse tm w
  = preview_effect
      (run_callback parse (cb tm)
         (set_now (Z.max (now w) (due tm)) (clearTimeout (tid tm) w))).
Proof.
  unfold fire.
  set (w1 := set_now (Z.max (now w) (due tm)) (clearTimeout (tid tm) w)).
  assert (E : followCursor (run_callback parse (cb tm) w1) = followCursor w1).
  { destruct (cb tm) as [t | t c]; simpl.
    - destruct w1; reflexivity.
    - apply (quiet_fields _ _ (cursor_callback_quiet t c w1)). }
  rewrite <- E. apply commit_same_follow.
Qed.

Lemma fire_timers parse tm w :
  timers (fire parse tm w)
  = filter (fun x => negb (tid x =? tid tm)) (timers w).
Proof.
  rewrite fire_unfold.
  pose proof (quiet_fields _ _ (preview_effect_quiet
    (run_callback parse (cb tm)
       (set_now (Z.max (now w) (due tm)) (clearTimeout (tid tm) w)))))
    as (-> & _).
  destruct (cb tm) as [t | t c]; simpl.
  - destruct w; reflexivity.
  - pose proof (quiet_fields _ _ (cursor_callback_quiet t c
      (set_now (Z.max (now w) (due tm)) (clearTimeout (tid tm) w))))
      as (-> & _).
    destruct w; reflexivity.
Qed.

(** [elapse] has fuel enough: no timer due is left pending. *)
Lemma run_due_drains parse target fuel : forall w,
  (length (timers w) <= fuel)%nat ->
  next_due target (timers (run_due parse fuel target w)) = None.
Proof.
  induction fuel as [| fuel IH]; intros w Hfuel; simpl.
  - destruct (timers w); [reflexivity | simpl in Hfuel; lia].
  - destruct (next_due target (timers w)) as [x |] eqn:E; [| exact E].
    apply IH. rewrite fire_timers.
    apply next_due_in in E. destruct E as [Hx _].
    pose proof (length_clear _ x Hx). lia.
Qed.

Lemma elapse_drains parse ms w :
  next_due (now (elapse parse ms w)) (timers (elapse parse ms w)) = None.
Proof.
  unfold elapse.
  pose proof (run_due_drains parse (now w + Z.max 0 ms) (length (timers w)) w
                (Nat.le_refl _)) as H.
  destruct (run_due _ _ _ _); exact H.
Qed.

Lemma fire_cursor_view parse tm w :
  timers_ok w -> In tm (timers w) -> is_parse tm = false ->
  parse_view (fire parse tm w) = parse_view w.
Proof.
  intros (_ & Hnd & _) Hin Hk. rewrite fire_unfold.
  rewrite (parse_view_quiet _ _ (preview_effect_quiet _)).
  unfold is_parse in Hk. destruct (cb tm) as [t | t c] eqn:Ecb;
    [discriminate |]. simpl.
  rewrite (parse_view_quiet _ _ (cursor_callback_quiet t c _)).
  unfold parse_view, parse_timers.
  assert (F : filter is_parse
                (filter (fun x => negb (tid x =? tid tm)) (timers w))
              = filter is_parse (timers w)).
  { apply filter_clear_other. intros tm' Hin' Hk' Hid.
    pose proof (NoDup_map_inj tid _ tm' tm Hnd Hin' Hin Hid) as ->.
    unfold is_parse in Hk'. rewrite Ecb in Hk'. discriminate. }
  destruct w; unfold clearTimeout in *; simpl in *. rewrite F. reflexivity.
Qed.

Lemma fire_parse_view parse tm t w :
  timers_ok w -> In tm (timers w) -> cb tm = ParseCb t ->
  parse_view (fire parse tm w)
  = ([], debounceRef w, parse_log w ++ [t], safeJsonParse parse t,
     monacoEditorRef w, followCursor w).
Proof.
  intros (_ & _ & Hp & _) Hin Ecb. rewrite fire_unfold.
  rewrite (parse_view_quiet _ _ (preview_effect_quiet _)).
  rewrite Ecb. simpl. unfold parse_view, parse_timers.
  assert (F : filter is_parse
                (filter (fun x => negb (tid x =? tid tm)) (timers w)) = []).
  { apply filter_clear_own. intros tm' Hin' Hk'.
    assert (Hk : is_parse tm = true)
      by (unfold is_parse; rewrite Ecb; reflexivity).
    pose proof (proj1 (Hp tm Hin) Hk). pose proof (proj1 (Hp tm' Hin') Hk').
    congruence. }
  destruct w; unfold clearTimeout, parse_callback in *; simpl in *.
  rewrite F. reflexivity.
Qed.

Lemma run_due_no_parse parse target fuel : forall w,
  timers_ok w ->
  (forall tm, In tm (parse_timers w) -> target < due tm) ->
  parse_view (run_due parse fuel target w) = parse_view w.
Proof.
  induction fuel as [| fuel IH]; intros w Hok Hlate; simpl; [reflexivity |].
  destruct (next_due target (timers w)) as [x |] eqn:E; [| reflexivity].
  apply next_due_in in E. destruct E as [Hin Hdue].
  assert (Hk : is_parse x = false).
  { destruct (is_parse x) eqn:Hk; [| reflexivity].
    assert (Hx : In x (parse_timers w))
      by (apply filter_In; split; assumption).
    specialize (Hlate x Hx). lia. }
  pose proof (fire_cursor_view parse x w Hok Hin Hk) as Hv.
  rewrite IH; [exact Hv | apply timers_ok_fire; exact Hok |].
  intros tm Htm. apply Hlate.
  unfold parse_view in Hv. injection Hv as Hv _. rewrite <- Hv. exact Htm.
Qed.

Lemma run_due_parse parse target tm t fuel : forall w,
  timers_ok w -> parse_timers w = [tm] -> cb tm = ParseCb t ->
  due tm <= target -> (length (timers w) <= fuel)%nat ->
  parse_view (run_due parse fuel target w)
  = ([], debounceRef w, parse_log w ++ [t], safeJsonParse parse t,
     monacoEditorRef w, followCursor w).
Proof.
  induction fuel as [| fuel IH]; intros w Hok Hone Ecb Hdue Hfuel.
  - assert (Hin : In tm (timers w)).
    { assert (H : In tm (parse_timers w)) by (rewrite Hone; left; reflexivity).
      apply filter_In in H. tauto. }
    destruct (timers w); [contradiction | simpl in Hfuel; lia].
  - assert (Hin : In tm (timers w)).
    { assert (H : In tm (parse_timers w)) by (rewrite Hone; left; reflexivity).
      apply filter_In in H. tauto. }
    simpl.
    destruct (next_due target (timers w)) as [x |] eqn:E;
      [| exfalso; exact (next_due_some target _ tm Hin Hdue E)].
    apply next_due_in in E. destruct E as [Hx Hxdue].
    pose proof (timers_ok_fire parse x w Hok) as Hok'.
    destruct (is_parse x) eqn:Hk.
    + assert (Hxt : x = tm).
      { assert (H : In x (parse_timers w))
          by (apply filter_In; split; assumption).
        rewrite Hone in H. destruct H as [H | []]. congruence. }
      subst x.
      pose proof (fire_parse_view parse tm t w Hok Hin Ecb) as Hv.
      rewrite run_due_no_parse; [exact Hv | exact Hok' |].
      intros tm' Htm'. unfold parse_view in Hv. injection Hv as Hv _.
      rewrite Hv in Htm'. contradiction.
    + pose proof (fire_cursor_view parse x w Hok Hx Hk) as Hv.
      unfold parse_view in Hv. injection Hv as V1 V2 V3 V4 V5 V6.
      rewrite (IH (fire parse x w)); try assumption.
      * rewrite V2, V3, V5, V6. reflexivity.
      * rewrite V1. exact Hone.
      * rewrite fire_timers. pose proof (length_clear _ x Hx). lia.
Qed.

Lemma parse_view_set_now x w : parse_view (set_now x w) = parse_view w.
Proof. destruct w; reflexivity. Qed.

Lemma dispatch_Elapse parse ms w :
  followCursor (elapse parse ms w) = followCursor w ->
  parse_view (dispatch parse (Elapse ms) w) = parse_view (elapse parse ms w)
  /\ now (dispatch parse (Elapse ms) w) = now w + Z.max 0 ms.
Proof.
  intros Ef. unfold dispatch. simpl handler.
  rewrite <- Ef, commit_same_follow.
  rewrite (parse_view_quiet _ _ (preview_effect_quiet _)).
  split; [reflexivity |].
  pose proof (quiet_fields _ _ (preview_effect_quiet (elapse parse ms w)))
    as (_ & _ & _ & _ & -> & _).
  unfold elapse. destruct (run_due _ _ _ _); reflexivity.
Qed.

(** Time passes and no parse timer is due: the text-change trigger is
    left as it is. *)
Lemma dispatch_Elapse_early parse ms w :
  timers_ok w ->
  (forall tm, In tm (parse_timers w) -> now w + Z.max 0 ms < due tm) ->
  parse_view (dispatch parse (Elapse ms) w) = parse_view w /\
  now (dispatch parse (Elapse ms) w) = now w + Z.max 0 ms.
Proof.
  intros Hok Hlate.
  assert (Hv : parse_view (elapse parse ms w) = parse_view w).
  { unfold elapse. rewrite parse_view_set_now.
    apply run_due_no_parse; assumption. }
  destruct (dispatch_Elapse parse ms w) as [E1 E2].
  - unfold parse_view in Hv. injection Hv as _ _ _ _ _ E. exact E.
  - rewrite E1, Hv. split; [reflexivity | exact E2].
Qed.

(** Time passes and the pending parse timer is due: it fires, once. *)
Lemma dispatch_Elapse_due parse ms tm t w :
  timers_ok w -> parse_timers w = [tm] -> cb tm = ParseCb t ->
  due tm <= now w + Z.max 0 ms ->
  parse_view (dispatch parse (Elapse ms) w)
  = ([], debounceRef w, parse_log w ++ [t], safeJsonParse parse t,
     monacoEditorRef w, followCursor w).
Proof.
  intros Hok Hone Ecb Hdue.
  assert (Hv : parse_view (elapse parse ms w)
               = ([], debounceRef w, parse_log w ++ [t],
                  safeJsonParse parse t, monacoEditorRef w, followCursor w)).
  { unfold elapse. rewrite parse_view_set_now.
    apply (run_due_parse parse _ tm t); auto. }
  destruct (dispatch_Elapse parse ms w) as [E1 E2].
  - unfold parse_view in Hv. injection Hv as _ _ _ _ _ E. exact E.
  - rewrite E1. exact Hv.
Qed.

Lemma parse_view_inv w a b c d e f :
  parse_view w = (a, b, c, d, e, f) ->
  parse_timers w = a /\ debounceRef w = b /\ parse_log w = c /\
  parsedConfig w = d /\ monacoEditorRef w = e /\ followCursor w = f.
Proof.
  unfold parse_view. intros H. injection H. intros. repeat split; assumption.
Qed.

Lemma burst_step parse t d w :
  timers_ok w -> monacoEditorRef w = true -> 0 <= d < 450 ->
  let w' := dispatch parse (Elapse d) (dispatch parse (Change t) w) in
  timers_ok w' /\ monacoEditorRef w' = true /\ parse_log w' = parse_log w.
Proof.
  intros Hok Hm Hd w'. subst w'.
  pose proof (dispatch_Change_view parse t w Hok Hm) as [Hv Hn].
  pose proof (timers_ok_dispatch parse (Change t) w Hok) as Hok1.
  set (w1 := dispatch parse (Change t) w) in *.
  destruct (dispatch_Elapse_early parse d w1 Hok1) as [Hv2 _].
  { intros tm Htm. apply parse_view_inv in Hv. destruct Hv as (Hv & _).
    rewrite Hv in Htm. destruct Htm as [<- | []]. simpl. lia. }
  split; [apply timers_ok_dispatch; exact Hok1 |].
  rewrite Hv in Hv2. apply parse_view_inv in Hv2.
  destruct Hv2 as (_ & _ & E3 & _ & E5 & _). split; assumption.
Qed.

Lemma parse_view_follow w w' :
  parse_view w' = parse_view w -> followCursor w' = followCursor w.
Proof. unfold parse_view. intros H. injection H. auto. Qed.

Lemma dispatch_CursorMove_timers parse o w :
  timers_ok w -> monacoEditorRef w = true -> followCursorRef w = true ->
  cursor_timers (dispatch parse (CursorMove o) w)
  = [mkTimer (next_id w) (now w + 120)
       (CursorCb (ed_value w) (listenerConfig w))].
Proof.
  intros Hok Hm Hf. unfold dispatch, handler. rewrite Hm. simpl negb.
  cbv iota zeta.
  set (w1 := set_ed_offset o w).
  assert (Hok1 : timers_ok w1)
    by (revert Hok; apply timers_ok_frame; destruct w; reflexivity).
  assert (E : followCursor
                (scheduleCursorSync (listenerConfig w1) (ed_value w1) w1)
              = followCursor w).
  { destruct (scheduleCursorSync_view (listenerConfig w1) (ed_value w1) w1 Hok1)
      as [Hv _].
    rewrite (parse_view_follow _ _ Hv). destruct w; reflexivity. }
  rewrite <- E, commit_same_follow. unfold cursor_timers.
  pose proof (quiet_fields _ _ (preview_effect_quiet
    (scheduleCursorSync (listenerConfig w1) (ed_value w1) w1))) as (-> & _).
  fold (cursor_timers
          (scheduleCursorSync (listenerConfig w1) (ed_value w1) w1)).
  rewrite scheduleCursorSync_replaces;
    [destruct w; reflexivity | exact Hok1 | destruct w; exact Hf
    | destruct w; exact Hm].
Qed.

(** C8: in every world the component can reach, each kind of trigger has
    at most one timer pending, and a new event of a kind leaves exactly
    its own timer pending for that kind.  Five text changes, each less
    than the 450 ms of quiescence after the one before (in particular all
    five within one such window), run no parse cycle and leave one parse
    timer, holding the fifth text; once 450 ms have passed exactly one
    parse cycle has run, on the fifth text. *)
Theorem debounce_collapse :
  forall (parse : text -> option json) (w0 : world),
    reachable parse w0 ->
    ((length (parse_timers w0) <= 1)%nat /\
     (length (cursor_timers w0) <= 1)%nat) /\
    (forall t,
        monacoEditorRef w0 = true ->
        parse_timers (dispatch parse (Change t) w0)
        = [mkTimer (next_id w0) (now w0 + 450) (ParseCb t)]) /\
    (forall o,
        monacoEditorRef w0 = true -> followCursorRef w0 = true ->
        cursor_timers (dispatch parse (CursorMove o) w0)
        = [mkTimer (next_id w0) (now w0 + 120)
             (CursorCb (ed_value w0) (listenerConfig w0))]) /\
    (forall t1 t2 t3 t4 t5 d1 d2 d3 d4 e,
        monacoEditorRef w0 = true ->
        0 <= d1 < 450 -> 0 <= d2 < 450 -> 0 <= d3 < 450 -> 0 <= d4 < 450 ->
        450 <= e ->
        let w := run parse
                   [Change t1; Elapse d1; Change t2; Elapse d2; Change t3;
                    Elapse d3; Change t4; Elapse d4; Change t5] w0 in
        let w' := dispatch parse (Elapse e) w in
        (exists id, parse_timers w = [mkTimer id (now w + 450) (ParseCb t5)]) /\
        parse_log w = parse_log w0 /\
        parse_log w' = parse_log w0 ++ [t5] /\
        parsedConfig w' = safeJsonParse parse t5 /\
        parse_timers w' = []).
Proof.
  intros parse w0 Hreach.
  pose proof (timers_ok_reachable parse w0 Hreach) as Hok.
  split; [apply timers_ok_one_per_kind; exact Hok |].
  split; [| split].
  - intros t Hm.
    destruct (dispatch_Change_view parse t w0 Hok Hm) as [Hv _].
    apply parse_view_inv in Hv. apply Hv.
  - intros o Hm Hf. apply dispatch_CursorMove_timers; assumption.
  - intros t1 t2 t3 t4 t5 d1 d2 d3 d4 e Hm H1 H2 H3 H4 He w w'.
    subst w w'. cbn [run].
    destruct (burst_step parse t1 d1 w0 Hok Hm H1) as (Hok1 & Hm1 & L1).
    set (w1 := dispatch parse (Elapse d1) (dispatch parse (Change t1) w0)) in *.
    destruct (burst_step parse t2 d2 w1 Hok1 Hm1 H2) as (Hok2 & Hm2 & L2).
    set (w2 := dispatch parse (Elapse d2) (dispatch parse (Change t2) w1)) in *.
    destruct (burst_step parse t3 d3 w2 Hok2 Hm2 H3) as (Hok3 & Hm3 & L3).
    set (w3 := dispatch parse (Elapse d3) (dispatch parse (Change t3) w2)) in *.
    destruct (burst_step parse t4 d4 w3 Hok3 Hm3 H4) as (Hok4 & Hm4 & L4).
    set (w4 := dispatch parse (Elapse d4) (dispatch parse (Change t4) w3)) in *.
    destruct (dispatch_Change_view parse t5 w4 Hok4 Hm4) as [Hv Hn].
    pose proof (timers_ok_dispatch parse (Change t5) w4 Hok4) as Hok5.
    set (w5 := dispatch parse (Change t5) w4) in *.
    apply parse_view_inv in Hv. destruct Hv as (V1 & V2 & V3 & V4 & V5 & V6).
    assert (Hlog : parse_log w5 = parse_log w0) by congruence.
    pose proof (dispatch_Elapse_due parse e
                  (mkTimer (next_id w4) (now w4 + 450) (ParseCb t5)) t5 w5
                  Hok5 V1 eq_refl) as Hdue.
    simpl due in Hdue. rewrite Hn in Hdue. specialize (Hdue ltac:(lia)).
    apply parse_view_inv in Hdue.
    destruct Hdue as (D1 & D2 & D3 & D4 & D5 & D6).
    split; [exists (next_id w4); rewrite V1, Hn; reflexivity |].
    split; [exact Hlog |].
    split; [rewrite D3, Hlog; reflexivity |].
    split; assumption.
Qed.

Lemma debounce_collapse_witness :
  let w0 := run sample_parse [Mount] initial in
  let w := run sample_parse
             [Change (js "{"); Elapse 100; Change (js "{}"); Elapse 100;
              Change sample_one; Elapse 100; Change (js "["); Elapse 100;
              Change sample_two] w0 in
  let w' := dispatch sample_parse (Elapse 450) w in
  parse_log w = [] /\ parse_log w' = [sample_two] /\
  parsedConfig w' = document [page "a"; page "b"] /\ parse_timers w' = [].
Proof.
  intros w0 w w'.
  destruct (debounce_collapse sample_parse w0 (ex_intro _ [Mount] eq_refl))
    as (_ & _ & _ & H).
  destruct (H (js "{") (js "{}") sample_one (js "[") sample_two
              100 100 100 100 450 eq_refl
              ltac:(lia) ltac:(lia) ltac:(lia) ltac:(lia) ltac:(lia))
    as (_ & L & L' & P & T).
  split; [exact L |]. split; [exact L' |]. split; [exact P | exact T].
Defined.

(** *** Follow mode and the cursor trigger *)

(** While the ref of follow mode is off, a cursor movement or a text
    change schedules no cursor timer. *)
Lemma scheduleCursorSync_off c t w :
  followCursorRef w = false -> scheduleCursorSync c t w = w.
Proof. intros H. unfold scheduleCursorSync. rewrite H. reflexivity. Qed.

Lemma dispatch_CursorMove_off parse o w :
  followCursorRef w = false ->
  dispatch parse (CursorMove o) w
  = preview_effect (if monacoEditorRef w then set_ed_offset o w else w).
Proof.
  intros H. unfold dispatch, handler.
  destruct (monacoEditorRef w); simpl negb; cbv iota zeta.
  - rewrite scheduleCursorSync_off by (destruct w; exact H).
    replace (followCursor w) with (followCursor (set_ed_offset o w))
      by (destruct w; reflexivity).
    apply commit_same_follow.
  - apply commit_same_follow.
Qed.

(** *** What a render leaves in place *)

Lemma preview_effect_settles w :
  previewPagesLen (preview_effect w)
  = if truthy (parsedConfig w)
    then Some (Z.of_nat (length (pagesOf (parsedConfig w))))
    else None.
Proof.
  unfold preview_effect.
  destruct (truthy (parsedConfig w)); [| destruct w; reflexivity].
  destruct (previewPagesLen w) as [m |] eqn:E;
    [destruct (Z.eqb_spec m (Z.of_nat (length (pagesOf (parsedConfig w)))))
    |]; try (destruct w; reflexivity).
  rewrite E. f_equal. assumption.
Qed.

Lemma preview_effect_idle w :
  previewPagesLen w
  = (if truthy (parsedConfig w)
     then Some (Z.of_nat (length (pagesOf (parsedConfig w))))
     else None) ->
  preview_effect w = w.
Proof.
  intros H. unfold preview_effect.
  destruct (truthy (parsedConfig w)).
  - rewrite H, Z.eqb_refl. reflexivity.
  - rewrite <- H. destruct w; reflexivity.
Qed.

Lemma scheduleCursorSync_keeps c t w :
  followCursorRef (scheduleCursorSync c t w) = followCursorRef w /\
  followCursor (scheduleCursorSync c t w) = followCursor w /\
  previewPagesLen (scheduleCursorSync c t w) = previewPagesLen w /\
  parsedConfig (scheduleCursorSync c t w) = parsedConfig w /\
  activePageIndex (scheduleCursorSync c t w) = activePageIndex w.
Proof.
  unfold scheduleCursorSync.
  destruct (negb (followCursorRef w)); [repeat split |].
  destruct (negb (monacoEditorRef w)); [repeat split |].
  destruct (cursorDebounceRef w); destruct w; repeat split.
Qed.

Lemma scheduleParse_keeps t w :
  followCursorRef (scheduleParse t w) = followCursorRef w /\
  followCursor (scheduleParse t w) = followCursor w.
Proof.
  unfold scheduleParse. destruct (debounceRef w); destruct w; split;
    reflexivity.
Qed.

Lemma synced_commit f w :
  followCursorRef w = f -> synced (commit f w).
Proof.
  intros Hf. unfold commit.
  pose proof (preview_effect_settles w) as Hp.
  pose proof (quiet_fields _ _ (preview_effect_quiet w))
    as (_ & _ & _ & _ & _ & _ & Ec & _ & Efc & Efr).
  set (w1 := preview_effect w) in *.
  destruct (Bool.eqb f (followCursor w1)) eqn:E.
  - apply Bool.eqb_prop in E. split; [congruence |].
    rewrite Ec. exact Hp.
  - unfold follow_effects.
    set (w2 := set_followCursorRef (followCursor w1) w1).
    assert (H2 : followCursorRef w2 = followCursor w2 /\
                 previewPagesLen w2 = previewPagesLen w1 /\
                 parsedConfig w2 = parsedConfig w1)
      by (subst w2; destruct w1; repeat split).
    destruct H2 as (A & B & C).
    assert (S2 : synced w2) by (split; [exact A | rewrite B, C, Ec; exact Hp]).
    destruct (negb (followCursorRef w2)); [exact S2 |].
    destruct (negb (monacoEditorRef w2)); [exact S2 |].
    destruct (scheduleCursorSync_keeps (parsedConfig w2) (ed_value w2) w2)
      as (K1 & K2 & K3 & K4 & _).
    destruct S2 as [S2a S2b].
    split; [congruence | rewrite K3, K4; exact S2b].
Qed.

Lemma fire_keeps_ref parse tm w :
  followCursorRef (fire parse tm w) = followCursorRef w.
Proof.
  rewrite fire_unfold.
  pose proof (quiet_fields _ _ (preview_effect_quiet
    (run_callback parse (cb tm)
       (set_now (Z.max (now w) (due tm)) (clearTimeout (tid tm) w)))))
    as (_ & _ & _ & _ & _ & _ & _ & _ & _ & ->).
  destruct (cb tm) as [t | t c]; simpl.
  - destruct w; reflexivity.
  - pose proof (quiet_fields _ _ (cursor_callback_quiet t c
      (set_now (Z.max (now w) (due tm)) (clearTimeout (tid tm) w))))
      as (_ & _ & _ & _ & _ & _ & _ & _ & _ & ->).
    destruct w; reflexivity.
Qed.

Lemma run_due_keeps_ref parse target fuel : forall w,
  followCursorRef (run_due parse fuel target w) = followCursorRef w.
Proof.
  induction fuel as [| fuel IH]; intros w; simpl; [reflexivity |].
  destruct (next_due target (timers w)); [| reflexivity].
  rewrite IH. apply fire_keeps_ref.
Qed.

Lemma handler_keeps_ref parse ev w :
  followCursorRef (handler parse ev w) = followCursorRef w.
Proof.
  destruct ev as [t | | t | o | | | b | ms]; simpl.
  - destruct w; reflexivity.
  - destruct (monacoEditorRef w); destruct w; reflexivity.
  - destruct (negb (monacoEditorRef w)); [reflexivity |].
    rewrite (proj1 (scheduleCursorSync_keeps _ _ _)).
    rewrite (proj1 (scheduleParse_keeps _ _)). destruct w; reflexivity.
  - destruct (negb (monacoEditorRef w)); [reflexivity |].
    rewrite (proj1 (scheduleCursorSync_keeps _ _ _)). destruct w; reflexivity.
  - destruct (truthy (parsedConfig w)); destruct w; reflexivity.
  - destruct (truthy (parsedConfig w)); destruct w; reflexivity.
  - destruct (truthy (parsedConfig w)); destruct w; reflexivity.
  - unfold elapse.
    transitivity (followCursorRef
                    (run_due parse (length (timers w))
                       (now w + Z.max 0 ms) w));
      [destruct (run_due _ _ _ _); reflexivity | apply run_due_keeps_ref].
Qed.

Lemma synced_dispatch parse ev w : synced w -> synced (dispatch parse ev w).
Proof.
  intros [Hs _]. unfold dispatch. apply synced_commit.
  rewrite handler_keeps_ref. exact Hs.
Qed.

Lemma synced_reachable parse w : reachable parse w -> synced w.
Proof.
  intros [evs ->].
  assert (H : forall w0, synced w0 -> synced (run parse evs w0)).
  { induction evs as [| ev evs IH]; intros w0 H0; simpl; [exact H0 |].
    apply IH, synced_dispatch. exact H0. }
  apply H. split; reflexivity.
Qed.

(** A manual navigation turns follow mode off, state and ref. *)
Lemma navigation_turns_follow_off parse ev w :
  ev = GoPrev \/ ev = GoNext ->
  synced w -> truthy (parsedConfig w) = true ->
  followCursor (dispatch parse ev w) = false /\
  followCursorRef (dispatch parse ev w) = false.
Proof.
  intros Hev Hs Ht.
  pose proof (synced_dispatch parse ev w Hs) as [Hs' _].
  assert (E : followCursor (dispatch parse ev w) = false).
  { unfold dispatch, commit.
    assert (Hh : followCursor (handler parse ev w) = false)
      by (destruct Hev as [-> | ->]; simpl; rewrite Ht; destruct w;
          reflexivity).
    pose proof (quiet_fields _ _ (preview_effect_quiet (handler parse ev w)))
      as (_ & _ & _ & _ & _ & _ & _ & _ & Efc & _).
    set (w1 := preview_effect (handler parse ev w)) in *.
    destruct (Bool.eqb (followCursor w) (followCursor w1)); [congruence |].
    unfold follow_effects.
    set (w2 := set_followCursorRef (followCursor w1) w1).
    assert (A : followCursor w2 = followCursor w1 /\
                followCursorRef w2 = followCursor w1)
      by (subst w2; destruct w1; split; reflexivity).
    destruct A as [A1 A2].
    rewrite A2, Efc, Hh. simpl. congruence. }
  split; [exact E | congruence].
Qed.

(** While the ref of follow mode is off, a cursor movement changes
    neither the active index nor the timers. *)
Lemma cursor_move_suppressed parse o w :
  synced w -> followCursorRef w = false ->
  activePageIndex (dispatch parse (CursorMove o) w) = activePageIndex w /\
  timers (dispatch parse (CursorMove o) w) = timers w.
Proof.
  intros [_ Hp] Hoff. rewrite dispatch_CursorMove_off by exact Hoff.
  destruct (monacoEditorRef w).
  - rewrite preview_effect_idle by (destruct w; exact Hp).
    destruct w; split; reflexivity.
  - rewrite preview_effect_idle by exact Hp. split; reflexivity.
Qed.

(** C7, on the code: after a manual navigation the ref of follow mode is
    off, and a cursor movement that arrives then changes neither the
    active index nor the timers; but a cursor timer that is already
    pending when the user navigates still fires, and sets the active index
    while follow mode is off.  Here the cursor moves into the second page,
    the user clicks Prev 50 ms later (active index 0, follow mode off), and
    70 ms later the timer sets the active index to 1. *)
Theorem pending_cursor_sync_survives_navigation :
  forall parse : text -> option json,
    parse sample_two = Some (document [page "a"; page "b"]) ->
    (forall w nav o,
        reachable parse w -> truthy (parsedConfig w) = true ->
        nav = GoPrev \/ nav = GoNext ->
        let w1 := dispatch parse nav w in
        followCursor w1 = false /\
        activePageIndex (dispatch parse (CursorMove o) w1)
        = activePageIndex w1 /\
        timers (dispatch parse (CursorMove o) w1) = timers w1) /\
    let w := run parse
               [Mount; Loaded sample_two; CursorMove (Some 30); Elapse 50;
                GoPrev]
               initial in
    let w' := dispatch parse (Elapse 70) w in
    (followCursor w = false /\ followCursorRef w = false /\
     activePageIndex w = 0) /\
    (followCursor w' = false /\ followCursorRef w' = false /\
     activePageIndex w' = 1).
Proof.
  intros parse H. split.
  - intros w nav o Hreach Ht Hnav w1. subst w1.
    pose proof (synced_reachable parse w Hreach) as Hs.
    destruct (navigation_turns_follow_off parse nav w Hnav Hs Ht)
      as [Hoff Href].
    split; [exact Hoff |].
    apply cursor_move_suppressed; [| exact Href].
    apply synced_dispatch. exact Hs.
  - cbv zeta. cbn [run].
    rewrite (dispatch_Loaded parse _ _ _ H). vm_compute.
    repeat split.
Qed.

Lemma pending_cursor_sync_survives_navigation_witness :
  let w := run sample_parse
             [Mount; Loaded sample_two; CursorMove (Some 30); Elapse 50;
              GoPrev]
             initial in
  let w' := dispatch sample_parse (Elapse 70) w in
  (followCursor w = false /\ followCursorRef w = false /\
   activePageIndex w = 0) /\
  (followCursor w' = false /\ followCursorRef w' = false /\
   activePageIndex w' = 1).
Proof.
  exact (proj2 (pending_cursor_sync_survives_navigation sample_parse eq_refl)).
Defined.

Lemma dispatch_Change_cursor_timer parse t w :
  timers_ok w -> monacoEditorRef w = true -> followCursorRef w = true ->
  cursor_timers (dispatch parse (Change t) w)
  = [mkTimer (next_id w + 1) (now w + 120) (CursorCb t (parsedConfig w))].
Proof.
  intros Hok Hm Hf. unfold dispatch, handler. rewrite Hm. simpl negb.
  cbv iota.
  set (wa := set_editorTextRef t (set_editorText t (set_ed_value t w))).
  assert (Hoka : timers_ok wa)
    by (revert Hok; apply timers_ok_frame; destruct w; reflexivity).
  assert (Ea : next_id wa = next_id w /\ now wa = now w /\
               monacoEditorRef wa = monacoEditorRef w /\
               followCursorRef wa = followCursorRef w /\
               followCursor wa = followCursor w)
    by (destruct w; simpl; repeat split).
  destruct Ea as (E1 & E2 & E3 & E4 & E5). clearbody wa.
  pose proof (timers_ok_scheduleParse t wa Hoka) as Hokb.
  destruct (scheduleParse_view t wa Hoka) as [Hvb Hnb].
  assert (Eb : next_id (scheduleParse t wa) = next_id wa + 1 /\
               monacoEditorRef (scheduleParse t wa) = monacoEditorRef wa /\
               followCursorRef (scheduleParse t wa) = followCursorRef wa).
  { unfold scheduleParse. destruct (debounceRef wa); destruct wa;
      simpl; repeat split. }
  destruct Eb as (B1 & B2 & B3).
  set (wb := scheduleParse t wa) in *.
  destruct (scheduleCursorSync_view (parsedConfig w) t wb Hokb) as [Hvc _].
  assert (Ef : followCursor (scheduleCursorSync (parsedConfig w) t wb)
               = followCursor w).
  { rewrite (parse_view_follow _ _ Hvc).
    assert (Hfb : followCursor wb = followCursor wa).
    { subst wb. unfold scheduleParse. destruct (debounceRef wa); destruct wa;
        reflexivity. }
    congruence. }
  rewrite <- Ef, commit_same_follow. unfold cursor_timers.
  pose proof (quiet_fields _ _ (preview_effect_quiet
    (scheduleCursorSync (parsedConfig w) t wb))) as (-> & _).
  fold (cursor_timers (scheduleCursorSync (parsedConfig w) t wb)).
  rewrite scheduleCursorSync_replaces by congruence.
  rewrite B1, Hnb, E1, E2. reflexivity.
Qed.

Lemma cursor_callback_index nextText config w offset idx :
  ed_offset w = Some offset ->
  findPageIndexAtOffset (computePagesRanges (JsString nextText)) offset
  = Some idx ->
  cursor_callback nextText config w
  = set_activePageIndex
      (clampIndex idx
         (clamp_bound config (computePagesRanges (JsString nextText)))) w.
Proof.
  intros Ho Hidx. unfold cursor_callback, clamp_bound. rewrite Ho, Hidx.
  cbv zeta.
  destruct (Z.of_nat (length (pagesOf config)) =? 0) eqn:E; [| rewrite E];
    reflexivity.
Qed.

(** ** The configuration the cursor listener closes over *)

Lemma scheduleCursorSync_listener c t w :
  listenerConfig (scheduleCursorSync c t w) = listenerConfig w.
Proof.
  unfold scheduleCursorSync.
  destruct (negb (followCursorRef w)); [reflexivity |].
  destruct (negb (monacoEditorRef w)); [reflexivity |].
  destruct (cursorDebounceRef w); destruct w; reflexivity.
Qed.

Lemma scheduleParse_listener t w :
  listenerConfig (scheduleParse t w) = listenerConfig w.
Proof.
  unfold scheduleParse. destruct (debounceRef w); destruct w; reflexivity.
Qed.

Lemma commit_listener f w : listenerConfig (commit f w) = listenerConfig w.
Proof.
  assert (P : forall x, listenerConfig (preview_effect x) = listenerConfig x).
  { intros x. unfold preview_effect.
    destruct (truthy (parsedConfig x)); [| destruct x; reflexivity].
    destruct (previewPagesLen x) as [m |];
      [destruct (m =? _); [reflexivity |] |]; destruct x; reflexivity. }
  unfold commit. destruct (Bool.eqb _ _); [apply P |].
  unfold follow_effects. set (w2 := set_followCursorRef _ _).
  assert (H2 : listenerConfig w2 = listenerConfig w)
    by (subst w2; rewrite <- (P w); destruct (preview_effect w); reflexivity).
  destruct (negb (followCursorRef w2)); [exact H2 |].
  destruct (negb (monacoEditorRef w2)); [exact H2 |].
  rewrite scheduleCursorSync_listener. exact H2.
Qed.

Lemma fire_listener parse tm w :
  listenerConfig (fire parse tm w) = listenerConfig w.
Proof.
  unfold fire. rewrite commit_listener.
  destruct (cb tm) as [t | t cfg]; cbn [run_callback].
  - destruct w; reflexivity.
  - unfold cursor_callback.
    set (w1 := set_now _ _).
    assert (H1 : listenerConfig w1 = listenerConfig w)
      by (subst w1; destruct w; reflexivity).
    destruct (ed_offset w1); [| exact H1].
    destruct (findPageIndexAtOffset _ _); [| exact H1].
    rewrite <- H1. destruct w1; reflexivity.
Qed.

Lemma run_due_listener parse target fuel : forall w,
  listenerConfig (run_due parse fuel target w) = listenerConfig w.
Proof.
  induction fuel as [| fuel IH]; intros w; cbn [run_due]; [reflexivity |].
  destruct (next_due target (timers w)); [| reflexivity].
  rewrite IH. apply fire_listener.
Qed.

Lemma handler_listener parse ev w :
  listenerConfig w = JNull -> listenerConfig (handler parse ev w) = JNull.
Proof.
  intros H. destruct ev as [t | | t | o | | | b | ms]; cbn [handler].
  - destruct w; exact H.
  - destruct (monacoEditorRef w); [exact H | destruct w; reflexivity].
  - destruct (negb (monacoEditorRef w)); [exact H |].
    rewrite scheduleCursorSync_listener, scheduleParse_listener.
    destruct w; exact H.
  - destruct (negb (monacoEditorRef w)); [exact H |]. cbv zeta.
    rewrite scheduleCursorSync_listener. destruct w; exact H.
  - destruct (truthy (parsedConfig w)); [destruct w |]; exact H.
  - destruct (truthy (parsedConfig w)); [destruct w |]; exact H.
  - destruct (truthy (parsedConfig w)); [destruct w |]; exact H.
  - unfold elapse.
    pose proof (run_due_listener parse (now w + Z.max 0 ms)
                  (length (timers w)) w) as H1.
    destruct (run_due _ _ _ _). cbn in *. congruence.
Qed.

(** Whatever has been loaded or parsed, the cursor listener closes over
    the [null] of the first render. *)
Lemma listener_reachable parse w :
  reachable parse w -> listenerConfig w = JNull.
Proof.
  intros [evs ->].
  assert (H : forall w0, listenerConfig w0 = JNull ->
                         listenerConfig (run parse evs w0) = JNull).
  { induction evs as [| ev evs IH]; intros w0 H0; cbn [run]; [exact H0 |].
    apply IH. unfold dispatch. rewrite commit_listener.
    apply handler_listener. exact H0. }
  apply H. reflexivity.
Qed.

(** C10: when the cursor timer fires and the offset resolves to [idx],
    the active index it sets is [clampIndex idx n], where [n] is the page
    count of the [parsedConfig] its callback closes over when that count
    is not zero, else the number of ranges just scanned, else 1.  That
    configuration is not the one parsed last.  A callback scheduled by a
    text change closes over the [parsedConfig] of the render before the
    change; a callback scheduled by a cursor movement closes over the
    [null] of the first render, whatever has been parsed since.  With one
    page parsed, the text changed to one of two records and the cursor
    moved into the second record, the index set is 1, where the page count
    of the configuration parsed last gives [clampIndex 1 1 = 0]. *)
Theorem cursor_sync_clamp_bound :
  (forall parse tm nextText config w offset idx,
      reachable parse w ->
      cb tm = CursorCb nextText config ->
      ed_offset w = Some offset ->
      findPageIndexAtOffset (computePagesRanges (JsString nextText)) offset
      = Some idx ->
      activePageIndex (fire parse tm w)
      = clampIndex idx
          (clamp_bound config (computePagesRanges (JsString nextText)))) /\
  (forall parse t w,
      reachable parse w ->
      monacoEditorRef w = true -> followCursorRef w = true ->
      cursor_timers (dispatch parse (Change t) w)
      = [mkTimer (next_id w + 1) (now w + 120)
           (CursorCb t (parsedConfig w))]) /\
  (forall parse o w,
      reachable parse w ->
      monacoEditorRef w = true -> followCursorRef w = true ->
      cursor_timers (dispatch parse (CursorMove o) w)
      = [mkTimer (next_id w) (now w + 120) (CursorCb (ed_value w) JNull)]) /\
  (let w := run sample_parse
              [Mount; Loaded sample_one; Change sample_two;
               CursorMove (Some 30)]
              initial in
   let w' := dispatch sample_parse (Elapse 120) w in
   let ranges := computePagesRanges (JsString (ed_value w')) in
   cursor_timers w = [mkTimer 3 120 (CursorCb sample_two JNull)] /\
   parsedConfig w' = document [page "a"] /\
   parse_log w' = [] /\
   ed_value w' = sample_two /\
   findPageIndexAtOffset ranges 30 = Some 1 /\
   clampIndex 1 (clamp_bound (parsedConfig w') ranges) = 0 /\
   activePageIndex w' = 1).
Proof.
  split; [| split; [| split]].
  - intros parse tm nextText config w offset idx Hreach Ecb Ho Hidx.
    destruct (synced_reachable parse w Hreach) as [_ Hp].
    rewrite fire_unfold, Ecb. cbn [run_callback].
    rewrite (cursor_callback_index nextText config _ offset idx);
      [| destruct w; exact Ho | exact Hidx].
    rewrite preview_effect_idle; destruct w; [reflexivity | exact Hp].
  - intros parse t w Hreach Hm Hf.
    apply dispatch_Change_cursor_timer; try assumption.
    apply (timers_ok_reachable parse). exact Hreach.
  - intros parse o w Hreach Hm Hf.
    rewrite (dispatch_CursorMove_timers parse o w
               (timers_ok_reachable parse w Hreach) Hm Hf).
    rewrite (listener_reachable parse w Hreach). reflexivity.
  - vm_compute. repeat split.
Qed.

Lemma cursor_sync_clamp_bound_witness :
  let w := run sample_parse [Mount; Loaded sample_one; Change sample_two]
             initial in
  parsedConfig w = document [page "a"] /\
  cursor_timers (dispatch sample_parse (CursorMove (Some 30)) w)
  = [mkTimer (next_id w) (now w + 120) (CursorCb sample_two JNull)].
Proof.
  intros w. split; [reflexivity |].
  exact (proj1 (proj2 (proj2 cursor_sync_clamp_bound)) sample_parse
           (Some 30) w
           (ex_intro _ [Mount; Loaded sample_one; Change sample_two]
              eq_refl)
           eq_refl eq_refl).
Defined.

(** * Further properties *)

(** ** The scanner while the text grows *)

Lemma body_ranges_grow i ch v :
  exists extra, ranges (flow_vars (body i ch v)) = ranges v ++ extra.
Proof.
  unfold body.
  destruct (inString v).
  { destruct (escape v); [exists []; simpl; rewrite app_nil_r; reflexivity |].
    destruct (N.eqb ch backslash);
      [exists []; simpl; rewrite app_nil_r; reflexivity |].
    destruct (N.eqb ch quote); exists []; simpl; rewrite app_nil_r;
      reflexivity. }
  destruct (N.eqb ch quote);
    [exists []; simpl; rewrite app_nil_r; reflexivity |].
  destruct (N.eqb ch lbrace);
    [exists []; simpl; rewrite app_nil_r; reflexivity |].
  destruct (N.eqb ch rbrace).
  { destruct (((if depth v >? 0 then depth v - 1 else depth v) =? 0)
              && (start v >=? 0)).
    - eexists. simpl. reflexivity.
    - exists []. simpl. rewrite app_nil_r. reflexivity. }
  destruct (N.eqb ch rbracket && (depth v =? 0));
    exists []; simpl; rewrite app_nil_r; reflexivity.
Qed.

Lemma loop_ranges_grow : forall l i v,
  exists extra, ranges (loop l i v) = ranges v ++ extra.
Proof.
  induction l as [| ch l IH]; intros i v; simpl.
  - exists []. rewrite app_nil_r. reflexivity.
  - destruct (body_ranges_grow i ch v) as [e1 H1].
    destruct (body i ch v) as [v' | v']; simpl in H1.
    + destruct (IH (i + 1) v') as [e2 H2].
      exists (e1 ++ e2). rewrite H2, H1, app_assoc. reflexivity.
    + exists e1. exact H1.
Qed.

Lemma loop_app_grow more : forall rest i v,
  exists extra,
    ranges (loop (rest ++ more) i v) = ranges (loop rest i v) ++ extra.
Proof.
  induction rest as [| ch rest IH]; intros i v; simpl.
  - apply loop_ranges_grow.
  - destruct (body i ch v) as [v' | v'].
    + apply IH.
    + exists []. rewrite app_nil_r. reflexivity.
Qed.

Lemma app_prefix_split {A} : forall (l2 l1 m r : list A),
  l1 ++ m = l2 ++ r -> (length l2 <= length l1)%nat ->
  exists r', l1 = l2 ++ r'.
Proof.
  induction l2 as [| x l2 IH]; intros l1 m r E Hlen.
  - exists l1. reflexivity.
  - destruct l1 as [| y l1]; simpl in *; [lia |].
    injection E as -> E.
    destruct (IH l1 m r E) as [r' ->]; [lia |].
    exists r'. reflexivity.
Qed.

(** The first occurrence in a text is still the first one when text is
    appended. *)
Lemma first_at_app needle a t more :
  first_at needle a t -> first_at needle a (t ++ more).
Proof.
  intros [[b ->] Hmin]. split.
  - exists (b ++ more). rewrite <- !app_assoc. reflexivity.
  - intros a' b' E.
    destruct (Nat.le_gt_cases (length a) (length a')) as [H | H]; [exact H |].
    exfalso.
    assert (Hpre : exists r', a ++ needle ++ b = (a' ++ needle) ++ r').
    { apply (app_prefix_split (a' ++ needle) (a ++ needle ++ b) more b').
      - rewrite E, <- app_assoc. reflexivity.
      - rewrite !length_app. lia. }
    destruct Hpre as [r' Hr'].
    rewrite <- app_assoc in Hr'. specialize (Hmin a' r' Hr'). lia.
Qed.

Lemma index_from_app needle t more i :
  0 <= i -> 0 <= index_from needle t i ->
  index_from needle (t ++ more) i = index_from needle t i.
Proof.
  intros Hi Hfound.
  destruct (index_from_inv needle t i Hi Hfound) as (a & Hfirst & ->).
  apply index_from_found, first_at_app. exact Hfirst.
Qed.

Lemma skipn_len_app (a b : text) : skipn (Z.to_nat (len a)) (a ++ b) = b.
Proof.
  unfold len. rewrite Nat2Z.id, skipn_app, skipn_all, Nat.sub_diag.
  reflexivity.
Qed.

(** X1: text appended to the buffer never removes or changes a range
    already found: the ranges of the longer text start with the ranges of
    the shorter one. *)
Theorem scan_append_stable :
  forall t more : text,
    exists extra,
      computePagesRanges (JsString (t ++ more))
      = computePagesRanges (JsString t) ++ extra.
Proof.
  intros t more. unfold computePagesRanges.
  rewrite !indexOf_zero.
  destruct (Z.ltb_spec (index_from pages_key t 0) 0) as [Hk | Hk].
  { eexists. simpl. reflexivity. }
  rewrite (index_from_app pages_key t more 0 (Z.le_refl 0) Hk).
  destruct (Z.ltb_spec (index_from pages_key t 0) 0); [lia |].
  destruct (index_from_inv pages_key t 0 (Z.le_refl 0) Hk)
    as (a & [[b ->] _] & ->).
  simpl (0 + len a).
  rewrite <- app_assoc. rewrite !indexOf_after.
  pose proof (len_nonneg a) as Ha.
  destruct (Z.ltb_spec (index_from [lbracket] (pages_key ++ b) (len a)) 0)
    as [Hs | Hs].
  { eexists. simpl. reflexivity. }
  rewrite (index_from_app [lbracket] (pages_key ++ b) more (len a) Ha Hs).
  destruct (Z.ltb_spec (index_from [lbracket] (pages_key ++ b) (len a)) 0);
    [lia |].
  destruct (index_from_inv [lbracket] (pages_key ++ b) (len a) Ha Hs)
    as (a2 & [[b2 E2] _] & ->).
  rewrite E2.
  replace (len a + len a2 + 1) with (len (a ++ a2 ++ [lbracket]))
    by (rewrite !len_app; change (len [lbracket]) with 1; lia).
  replace (a ++ (a2 ++ [lbracket] ++ b2) ++ more)
    with ((a ++ a2 ++ [lbracket]) ++ b2 ++ more)
    by (rewrite <- !app_assoc; reflexivity).
  replace (a ++ a2 ++ [lbracket] ++ b2)
    with ((a ++ a2 ++ [lbracket]) ++ b2)
    by (rewrite <- !app_assoc; reflexivity).
  rewrite !skipn_len_app.
  apply loop_app_grow.
Qed.

Example scan_append_sample :
  computePagesRanges (JsString sample_open) = [Range.mk 10 20] /\
  computePagesRanges
    (JsString (sample_open ++ dq (js "b") ++ js "}]}"))
  = [Range.mk 10 20; Range.mk 21 31].
Proof. split; reflexivity. Qed.

(** ** Scanning, then resolving *)

Lemma ordered_nth : forall rs m n r' r,
  ordered rs -> (m < n)%nat ->
  nth_error rs m = Some r' -> nth_error rs n = Some r ->
  Range.end_ r' <= Range.start r.
Proof.
  induction rs as [| x rs IH]; intros m n r' r Ho Hlt Hm Hn.
  - destruct m; discriminate.
  - destruct Ho as [Hx Ho]. destruct n as [| n]; [lia |]. simpl in Hn.
    destruct m as [| m]; simpl in Hm.
    + injection Hm as <-. apply Hx. apply (nth_error_In _ _ Hn).
    + apply (IH m n r' r Ho); [lia | exact Hm | exact Hn].
Qed.

Lemma scan_ordered (t : text) :
  ordered (computePagesRanges (JsString t)).
Proof.
  unfold computePagesRanges.
  destruct (indexOf t pages_key 0 <? 0); [exact I |].
  set (arrStart := indexOf t [lbracket] (indexOf t pages_key 0)).
  destruct (Z.ltb_spec arrStart 0) as [Hneg | Hpos]; [exact I |].
  destruct (Z.le_gt_cases (arrStart + 1) (len t)) as [Hin | Hout].
  - set (n := Z.to_nat (arrStart + 1)).
    assert (Hpre : len (firstn n t) = arrStart + 1).
    { unfold len in *. rewrite length_firstn. lia. }
    pose proof (loop_inv t (skipn n t) (firstn n t) init_vars) as Hl.
    rewrite Hpre in Hl. apply Hl.
    + symmetry. apply firstn_skipn.
    + apply scan_inv_init. lia.
  - rewrite skipn_all2 by (unfold len in Hout; lia). exact I.
Qed.

(** X2: an offset after the opening brace of the k-th scanned record and
    up to just after its closing brace resolves to k; so does the offset
    of the opening brace itself unless an earlier record ends there. *)
Theorem resolve_scanned_record :
  forall (t : text) (k : nat) (r : Range.t) (offset : Z),
    nth_error (computePagesRanges (JsString t)) k = Some r ->
    Range.start r <= offset <= Range.end_ r ->
    (Range.start r < offset \/
     forall r', In r' (computePagesRanges (JsString t)) ->
                Range.end_ r' <> offset) ->
    findPageIndexAtOffset (computePagesRanges (JsString t)) offset
    = Some (Z.of_nat k).
Proof.
  intros t k r offset Hk Hin Hborder.
  unfold findPageIndexAtOffset. apply find_from_some.
  exists k, r. split; [lia |]. split; [exact Hk |]. split; [exact Hin |].
  intros m r' Hm Hr' Hw.
  pose proof (scan_ordered t) as Ho.
  pose proof (ordered_nth _ m k r' r Ho Hm Hr' Hk) as Hle.
  unfold within in Hw.
  destruct Hborder as [Hlt | Hne]; [lia |].
  apply (Hne r' (nth_error_In _ _ Hr')). lia.
Qed.

Lemma resolve_scanned_record_witness :
  findPageIndexAtOffset (computePagesRanges (JsString sample_two)) 30
  = Some 1.
Proof.
  apply (resolve_scanned_record sample_two 1 (Range.mk 29 39) 30).
  - reflexivity.
  - simpl. lia.
  - left. simpl. lia.
Defined.

(** ** Navigation in the preview *)

Lemma reachable_dispatch parse ev w :
  reachable parse w -> reachable parse (dispatch parse ev w).
Proof.
  intros [evs ->]. exists (evs ++ [ev]).
  assert (H : forall w0, run parse (evs ++ [ev]) w0
                         = dispatch parse ev (run parse evs w0)).
  { induction evs as [| e evs IH]; intros w0; simpl; [reflexivity | apply IH]. }
  symmetry. apply H.
Qed.

Lemma reachable_run parse evs w :
  reachable parse w -> reachable parse (run parse evs w).
Proof.
  revert w. induction evs as [| e evs IH]; intros w H; simpl; [exact H |].
  apply IH, reachable_dispatch. exact H.
Qed.

Lemma clampIndex_nonneg i n : 0 <= clampIndex i n.
Proof. unfold clampIndex. destruct (n <=? 0); lia. Qed.

Lemma pageCount_nonneg w : 0 <= pageCount w.
Proof. unfold pageCount. lia. Qed.

(** A render after a navigation in a settled world: only the ref of
    follow mode can change. *)
Lemma commit_after_nav f w :
  previewPagesLen w
  = (if truthy (parsedConfig w)
     then Some (Z.of_nat (length (pagesOf (parsedConfig w))))
     else None) ->
  followCursor w = false ->
  activePageIndex (commit f w) = activePageIndex w /\
  parsedConfig (commit f w) = parsedConfig w /\
  followCursor (commit f w) = false /\
  timers (commit f w) = timers w.
Proof.
  intros Hp Hf. unfold commit. rewrite (preview_effect_idle w Hp), Hf.
  destruct (Bool.eqb f false); [repeat split; assumption |].
  unfold follow_effects.
  replace (followCursorRef (set_followCursorRef (followCursor w) w))
    with false by (rewrite Hf; destruct w; reflexivity).
  simpl negb. cbv iota. rewrite Hf. destruct w; simpl in *.
  repeat split; assumption.
Qed.

Lemma dispatch_GoNext parse w :
  synced w -> truthy (parsedConfig w) = true ->
  activePageIndex (dispatch parse GoNext w)
  = clampIndex (activePageIndex w + 1) (pageCount w) /\
  parsedConfig (dispatch parse GoNext w) = parsedConfig w /\
  followCursor (dispatch parse GoNext w) = false /\
  timers (dispatch parse GoNext w) = timers w.
Proof.
  intros [_ Hp] Ht. unfold dispatch. simpl handler. rewrite Ht.
  destruct (commit_after_nav (followCursor w) (goNext w))
    as (A & B & C & D); try (destruct w; assumption || reflexivity).
  rewrite A, B, C, D. destruct w; repeat split.
Qed.

Lemma dispatch_GoPrev parse w :
  synced w -> truthy (parsedConfig w) = true ->
  activePageIndex (dispatch parse GoPrev w)
  = clampIndex (activePageIndex w - 1) (pageCount w) /\
  parsedConfig (dispatch parse GoPrev w) = parsedConfig w /\
  followCursor (dispatch parse GoPrev w) = false /\
  timers (dispatch parse GoPrev w) = timers w.
Proof.
  intros [_ Hp] Ht. unfold dispatch. simpl handler. rewrite Ht.
  destruct (commit_after_nav (followCursor w) (goPrev w))
    as (A & B & C & D); try (destruct w; assumption || reflexivity).
  rewrite A, B, C, D. destruct w; repeat split.
Qed.

(** X3: a manual navigation leaves the active index inside the pages:
    in [0, pages.length - 1] when there are pages, 0 when there are none,
    whatever the index was; it changes neither the configuration nor the
    timers. *)
Theorem navigation_in_range :
  forall parse w nav,
    reachable parse w -> truthy (parsedConfig w) = true ->
    nav = GoPrev \/ nav = GoNext ->
    (0 < pageCount w ->
     0 <= activePageIndex (dispatch parse nav w) <= pageCount w - 1) /\
    (pageCount w = 0 -> activePageIndex (dispatch parse nav w) = 0) /\
    parsedConfig (dispatch parse nav w) = parsedConfig w /\
    timers (dispatch parse nav w) = timers w.
Proof.
  intros parse w nav Hreach Ht Hnav.
  pose proof (synced_reachable parse w Hreach) as Hs.
  destruct Hnav as [-> | ->];
    [destruct (dispatch_GoPrev parse w Hs Ht) as (A & B & _ & D)
    | destruct (dispatch_GoNext parse w Hs Ht) as (A & B & _ & D)];
    rewrite A, B, D; unfold clampIndex;
    (split; [| split; [| split; reflexivity]]);
    intros Hn; destruct (Z.leb_spec (pageCount w) 0); lia.
Qed.

Lemma navigation_in_range_witness :
  let w := run sample_parse [Mount; Loaded sample_two; GoNext] initial in
  pageCount w = 2 /\
  0 <= activePageIndex (dispatch sample_parse GoNext w) <= pageCount w - 1.
Proof.
  intros w. split; [vm_compute; reflexivity |].
  apply (navigation_in_range sample_parse w GoNext
           (ex_intro _ [Mount; Loaded sample_two; GoNext] eq_refl) eq_refl
           (or_intror eq_refl)).
  vm_compute. reflexivity.
Defined.

(** X4: with the index inside the pages, Next moves it one page forward
    unless the Next button is disabled, Prev one page back unless the Prev
    button is disabled; where a button is disabled the same navigation
    (still possible by a tap on the story) leaves the index where it
    is. *)
Theorem navigation_steps :
  forall parse w,
    reachable parse w -> truthy (parsedConfig w) = true ->
    0 <= activePageIndex w <= pageCount w - 1 ->
    activePageIndex (dispatch parse GoNext w)
    = (if nextDisabled w then activePageIndex w else activePageIndex w + 1)
    /\
    activePageIndex (dispatch parse GoPrev w)
    = (if prevDisabled w then activePageIndex w else activePageIndex w - 1).
Proof.
  intros parse w Hreach Ht Hin.
  pose proof (synced_reachable parse w Hreach) as Hs.
  destruct (dispatch_GoNext parse w Hs Ht) as (A & _).
  destruct (dispatch_GoPrev parse w Hs Ht) as (B & _).
  rewrite A, B. unfold nextDisabled, prevDisabled, clampIndex.
  destruct (Z.leb_spec (pageCount w) 0); [lia |].
  split.
  - destruct (Z.geb_spec (activePageIndex w) (pageCount w - 1)); lia.
  - destruct (Z.eqb_spec (activePageIndex w) 0); lia.
Qed.

Lemma navigation_steps_witness :
  let w := run sample_parse [Mount; Loaded sample_two] initial in
  nextDisabled w = false /\ prevDisabled w = true /\
  activePageIndex (dispatch sample_parse GoNext w) = 1 /\
  activePageIndex (dispatch sample_parse GoPrev w) = 0.
Proof.
  intros w. split; [reflexivity |]. split; [reflexivity |].
  exact (navigation_steps sample_parse w
           (ex_intro _ [Mount; Loaded sample_two] eq_refl) eq_refl
           ltac:(vm_compute; split; discriminate)).
Defined.

(** X5: Next then Prev, and Prev then Next, come back to the page they
    started from, when that page is not the last one (for Next first) or
    not the first one (for Prev first). *)
Theorem navigation_round_trip :
  forall parse w,
    reachable parse w -> truthy (parsedConfig w) = true ->
    0 <= activePageIndex w <= pageCount w - 1 ->
    (activePageIndex w < pageCount w - 1 ->
     activePageIndex (dispatch parse GoPrev (dispatch parse GoNext w))
     = activePageIndex w) /\
    (0 < activePageIndex w ->
     activePageIndex (dispatch parse GoNext (dispatch parse GoPrev w))
     = activePageIndex w).
Proof.
  intros parse w Hreach Ht Hin.
  pose proof (synced_reachable parse w Hreach) as Hs.
  destruct (dispatch_GoNext parse w Hs Ht) as (A1 & A2 & _).
  destruct (dispatch_GoPrev parse w Hs Ht) as (B1 & B2 & _).
  pose proof (synced_dispatch parse GoNext w Hs) as Hsn.
  pose proof (synced_dispatch parse GoPrev w Hs) as Hsp.
  split; intros Hedge.
  - destruct (dispatch_GoPrev parse (dispatch parse GoNext w) Hsn) as (C & _);
      [rewrite A2; exact Ht |].
    rewrite C. unfold pageCount in *. rewrite A2, A1. unfold clampIndex.
    destruct (Z.leb_spec (Z.of_nat (length (pagesOf (parsedConfig w)))) 0);
      lia.
  - destruct (dispatch_GoNext parse (dispatch parse GoPrev w) Hsp) as (C & _);
      [rewrite B2; exact Ht |].
    rewrite C. unfold pageCount in *. rewrite B2, B1. unfold clampIndex.
    destruct (Z.leb_spec (Z.of_nat (length (pagesOf (parsedConfig w)))) 0);
      lia.
Qed.

Lemma navigation_round_trip_witness :
  let w := run sample_parse [Mount; Loaded sample_two] initial in
  activePageIndex
    (dispatch sample_parse GoPrev (dispatch sample_parse GoNext w))
  = activePageIndex w.
Proof.
  intros w.
  exact (proj1 (navigation_round_trip sample_parse w
                  (ex_intro _ [Mount; Loaded sample_two] eq_refl) eq_refl
                  ltac:(vm_compute; split; discriminate))
           ltac:(vm_compute; reflexivity)).
Defined.

(** ** The cursor trigger from movement to index *)

Lemma next_due_none target tms :
  (forall tm, In tm tms -> target < due tm) -> next_due target tms = None.
Proof.
  induction tms as [| tm tms IH]; simpl; intros H; [reflexivity |].
  rewrite IH by (intros x Hx; apply H; right; exact Hx).
  pose proof (H tm (or_introl eq_refl)).
  destruct (Z.leb_spec (due tm) target); [lia | reflexivity].
Qed.

(** When one pending timer is due and no other, the passing of time
    fires that timer and nothing else. *)
Lemma elapse_single parse ms w c :
  timers_ok w -> In c (timers w) -> due c <= now w + Z.max 0 ms ->
  (forall tm, In tm (timers w) -> tm <> c -> now w + Z.max 0 ms < due tm) ->
  elapse parse ms w = set_now (now w + Z.max 0 ms) (fire parse c w).
Proof.
  intros (_ & Hnd & _) Hc Hdue Hlate. unfold elapse. f_equal.
  assert (Hlen : exists f, length (timers w) = S f).
  { destruct (timers w) as [| t0 ts]; [contradiction |].
    exists (length ts). reflexivity. }
  destruct Hlen as [f ->]. cbn [run_due].
  destruct (next_due (now w + Z.max 0 ms) (timers w)) as [x |] eqn:E;
    [| exfalso; exact (next_due_some _ _ c Hc Hdue E)].
  pose proof (next_due_in _ _ _ E) as [Hx Hxdue].
  assert (x = c) as ->.
  { destruct (Z.eq_dec (tid x) (tid c)) as [Hid | Hid].
    - exact (NoDup_map_inj tid _ x c Hnd Hx Hc Hid).
    - assert (x <> c) by congruence. specialize (Hlate x Hx H). lia. }
  assert (Hnone : next_due (now w + Z.max 0 ms) (timers (fire parse c w))
                  = None).
  { apply next_due_none. intros tm Htm. rewrite fire_timers in Htm.
    apply filter_In in Htm. destruct Htm as [Htm Hid].
    apply Hlate; [exact Htm |]. intros ->. rewrite Z.eqb_refl in Hid.
    discriminate. }
  destruct f; simpl; [reflexivity |]. rewrite Hnone. reflexivity.
Qed.

Lemma fire_settled parse c w :
  previewPagesLen (fire parse c w)
  = (if truthy (parsedConfig (fire parse c w))
     then Some (Z.of_nat (length (pagesOf (parsedConfig (fire parse c w)))))
     else None) /\
  followCursor (fire parse c w) = followCursor w.
Proof.
  rewrite fire_unfold.
  set (y := run_callback parse (cb c)
              (set_now (Z.max (now w) (due c)) (clearTimeout (tid c) w))).
  pose proof (quiet_fields _ _ (preview_effect_quiet y))
    as (_ & _ & _ & _ & _ & _ & Ec & _ & Ef & _).
  rewrite Ec, Ef. split; [apply preview_effect_settles |].
  subst y. destruct (cb c) as [t | t cfg]; simpl.
  - destruct w; reflexivity.
  - rewrite (proj1 (proj2 (proj2 (proj2 (proj2 (proj2 (proj2 (proj2 (proj2
        (quiet_fields _ _ (cursor_callback_quiet t cfg _))))))))))).
    destruct w; reflexivity.
Qed.

Lemma dispatch_Elapse_single parse ms w c :
  timers_ok w -> In c (timers w) -> due c <= now w + Z.max 0 ms ->
  (forall tm, In tm (timers w) -> tm <> c -> now w + Z.max 0 ms < due tm) ->
  dispatch parse (Elapse ms) w
  = set_now (now w + Z.max 0 ms) (fire parse c w).
Proof.
  intros Hok Hc Hdue Hlate. unfold dispatch. simpl handler.
  rewrite (elapse_single parse ms w c Hok Hc Hdue Hlate).
  destruct (fire_settled parse c w) as [Hp Hf].
  set (z := fire parse c w) in *.
  replace (followCursor w)
    with (followCursor (set_now (now w + Z.max 0 ms) z))
    by (rewrite <- Hf; destruct z; reflexivity).
  rewrite commit_same_follow. apply preview_effect_idle.
  destruct z; exact Hp.
Qed.

Lemma scheduleCursorSync_editor c t w :
  ed_offset (scheduleCursorSync c t w) = ed_offset w /\
  ed_value (scheduleCursorSync c t w) = ed_value w /\
  monacoEditorRef (scheduleCursorSync c t w) = monacoEditorRef w /\
  listenerConfig (scheduleCursorSync c t w) = listenerConfig w /\
  editorText (scheduleCursorSync c t w) = editorText w.
Proof.
  unfold scheduleCursorSync.
  destruct (negb (followCursorRef w)); [repeat split |].
  destruct (negb (monacoEditorRef w)); [repeat split |].
  destruct (cursorDebounceRef w); destruct w; repeat split.
Qed.

(** The timers of a world are its parse timers and its cursor timers. *)
Lemma timer_kinds w tm :
  In tm (timers w) -> In tm (parse_timers w) \/ In tm (cursor_timers w).
Proof.
  intros Hin. unfold parse_timers, cursor_timers.
  destruct (is_parse tm) eqn:E.
  - left. apply filter_In. split; assumption.
  - right. apply filter_In. split; [exact Hin |]. rewrite kind_split, E.
    reflexivity.
Qed.

(** The world in which a freshly scheduled cursor timer [c] fires
    alone. *)
Lemma fire_cursor_index parse c t cfg w offset :
  previewPagesLen w
  = (if truthy (parsedConfig w)
     then Some (Z.of_nat (length (pagesOf (parsedConfig w))))
     else None) ->
  cb c = CursorCb t cfg -> ed_offset w = Some offset ->
  activePageIndex (fire parse c w)
  = match findPageIndexAtOffset (computePagesRanges (JsString t)) offset with
    | Some idx =>
        clampIndex idx (clamp_bound cfg (computePagesRanges (JsString t)))
    | None => activePageIndex w
    end.
Proof.
  intros Hp Ecb Ho. rewrite fire_unfold, Ecb. cbn [run_callback].
  set (w1 := set_now (Z.max (now w) (due c)) (clearTimeout (tid c) w)).
  assert (H1 : ed_offset w1 = Some offset /\
               activePageIndex w1 = activePageIndex w /\
               previewPagesLen w1 = previewPagesLen w /\
               parsedConfig w1 = parsedConfig w)
    by (subst w1; destruct w; simpl in *; repeat split; assumption).
  destruct H1 as (A & B & C & D). clearbody w1.
  destruct (findPageIndexAtOffset (computePagesRanges (JsString t)) offset)
    as [idx |] eqn:E.
  - rewrite (cursor_callback_index t cfg w1 offset idx A E).
    rewrite preview_effect_idle; destruct w1; simpl in *; [reflexivity |].
    subst. exact Hp.
  - unfold cursor_callback. rewrite A, E.
    rewrite preview_effect_idle; [exact B |]. rewrite C, D. exact Hp.
Qed.

Lemma cursor_sync_alone parse w c t cfg offset ms :
  timers_ok w -> synced w ->
  cursor_timers w = [c] -> cb c = CursorCb t cfg ->
  due c <= now w + Z.max 0 ms ->
  (forall tm, In tm (parse_timers w) -> now w + Z.max 0 ms < due tm) ->
  ed_offset w = Some offset ->
  activePageIndex (dispatch parse (Elapse ms) w)
  = match findPageIndexAtOffset (computePagesRanges (JsString t)) offset with
    | Some idx =>
        clampIndex idx (clamp_bound cfg (computePagesRanges (JsString t)))
    | None => activePageIndex w
    end /\
  cursor_timers (dispatch parse (Elapse ms) w) = [] /\
  parse_timers (dispatch parse (Elapse ms) w) = parse_timers w.
Proof.
  intros Hok [_ Hp] Hone Ecb Hdue Hlate Ho.
  assert (Hc : In c (timers w)).
  { assert (H : In c (cursor_timers w)) by (rewrite Hone; left; reflexivity).
    apply filter_In in H. tauto. }
  assert (Hothers : forall tm, In tm (timers w) -> tm <> c ->
                               now w + Z.max 0 ms < due tm).
  { intros tm Htm Hne. destruct (timer_kinds w tm Htm) as [H | H].
    - apply Hlate. exact H.
    - rewrite Hone in H. destruct H as [H | []]. congruence. }
  rewrite (dispatch_Elapse_single parse ms w c Hok Hc Hdue Hothers).
  split; [| split].
  - rewrite <- (fire_cursor_index parse c t cfg w offset Hp Ecb Ho).
    destruct (fire parse c w); reflexivity.
  - unfold cursor_timers.
    replace (timers (set_now (now w + Z.max 0 ms) (fire parse c w)))
      with (timers (fire parse c w))
      by (destruct (fire parse c w); reflexivity).
    rewrite fire_timers. apply filter_clear_own.
    intros tm Htm Hk.
    assert (H : In tm (cursor_timers w))
      by (apply filter_In; split; assumption).
    rewrite Hone in H. destruct H as [<- | []]. reflexivity.
  - assert (Hk : is_parse c = false)
      by (unfold is_parse; rewrite Ecb; reflexivity).
    pose proof (fire_cursor_view parse c w Hok Hc Hk) as Hv.
    unfold parse_timers.
    replace (timers (set_now (now w + Z.max 0 ms) (fire parse c w)))
      with (timers (fire parse c w))
      by (destruct (fire parse c w); reflexivity).
    apply (f_equal (fun v => fst (fst (fst (fst (fst v)))))) in Hv.
    exact Hv.
Qed.

Lemma scheduleParse_rest t w :
  previewPagesLen (scheduleParse t w) = previewPagesLen w /\
  parsedConfig (scheduleParse t w) = parsedConfig w /\
  activePageIndex (scheduleParse t w) = activePageIndex w /\
  ed_offset (scheduleParse t w) = ed_offset w /\
  ed_value (scheduleParse t w) = ed_value w /\
  editorText (scheduleParse t w) = editorText w.
Proof.
  unfold scheduleParse. destruct (debounceRef w); destruct w; repeat split.
Qed.

(** In a settled world a cursor movement is its scheduling alone. *)
Lemma dispatch_CursorMove_eq parse o w :
  timers_ok w -> synced w -> monacoEditorRef w = true ->
  dispatch parse (CursorMove o) w
  = scheduleCursorSync (listenerConfig w) (ed_value w) (set_ed_offset o w).
Proof.
  intros Hok [_ Hp] Hm. unfold dispatch, handler. rewrite Hm. simpl negb.
  cbv iota zeta.
  set (w1 := set_ed_offset o w).
  replace (listenerConfig w1) with (listenerConfig w)
    by (destruct w; reflexivity).
  replace (ed_value w1) with (ed_value w) by (destruct w; reflexivity).
  destruct (scheduleCursorSync_keeps (listenerConfig w) (ed_value w) w1)
    as (_ & K2 & K3 & K4 & _).
  replace (followCursor w)
    with (followCursor (scheduleCursorSync (listenerConfig w) (ed_value w) w1))
    by (rewrite K2; destruct w; reflexivity).
  rewrite commit_same_follow. apply preview_effect_idle.
  rewrite K3, K4. destruct w; exact Hp.
Qed.

(** In a settled world a text change is its two schedulings alone. *)
Lemma dispatch_Change_eq parse t w :
  synced w -> monacoEditorRef w = true ->
  dispatch parse (Change t) w
  = scheduleCursorSync (parsedConfig w) t
      (scheduleParse t
         (set_editorTextRef t (set_editorText t (set_ed_value t w)))).
Proof.
  intros [_ Hp] Hm. unfold dispatch, handler. rewrite Hm. simpl negb.
  cbv iota.
  set (wa := set_editorTextRef t (set_editorText t (set_ed_value t w))).
  destruct (scheduleParse_rest t wa) as (P1 & P2 & _).
  destruct (scheduleParse_keeps t wa) as (_ & P3).
  destruct (scheduleCursorSync_keeps (parsedConfig w) t (scheduleParse t wa))
    as (_ & K2 & K3 & K4 & _).
  replace (followCursor w)
    with (followCursor
            (scheduleCursorSync (parsedConfig w) t (scheduleParse t wa)))
    by (rewrite K2, P3; destruct w; reflexivity).
  rewrite commit_same_follow. apply preview_effect_idle.
  rewrite K3, K4, P1, P2. destruct w; exact Hp.
Qed.

(** A cursor movement in follow mode, with no parse cycle due in the next
    120 ms, in terms of the configuration the listener closes over. *)
Lemma cursor_move_closure :
  forall parse w offset,
    reachable parse w ->
    monacoEditorRef w = true -> followCursorRef w = true ->
    (forall tm, In tm (parse_timers w) -> now w + 120 < due tm) ->
    let ranges := computePagesRanges (JsString (ed_value w)) in
    let w' := dispatch parse (Elapse 120)
                (dispatch parse (CursorMove (Some offset)) w) in
    activePageIndex w'
    = match findPageIndexAtOffset ranges offset with
      | Some idx => clampIndex idx (clamp_bound (listenerConfig w) ranges)
      | None => activePageIndex w
      end /\
    cursor_timers w' = [].
Proof.
  intros parse w offset Hreach Hm Hf Hlate ranges w'. subst ranges w'.
  pose proof (timers_ok_reachable parse w Hreach) as Hok.
  pose proof (synced_reachable parse w Hreach) as Hs.
  pose proof (dispatch_CursorMove_timers parse (Some offset) w Hok Hm Hf)
    as Hct.
  pose proof (timers_ok_dispatch parse (CursorMove (Some offset)) w Hok)
    as Hok1.
  pose proof (synced_dispatch parse (CursorMove (Some offset)) w Hs) as Hs1.
  pose proof (dispatch_CursorMove_eq parse (Some offset) w Hok Hs Hm) as E.
  set (w0 := set_ed_offset (Some offset) w) in *.
  assert (Hok0 : timers_ok w0)
    by (revert Hok; apply timers_ok_frame; destruct w; reflexivity).
  destruct (scheduleCursorSync_view (listenerConfig w) (ed_value w) w0 Hok0)
    as [Hv Hn].
  destruct (scheduleCursorSync_keeps (listenerConfig w) (ed_value w) w0)
    as (_ & _ & _ & _ & Ka).
  destruct (scheduleCursorSync_editor (listenerConfig w) (ed_value w) w0)
    as (Eo & _).
  rewrite <- E in Hv, Hn, Ka, Eo.
  set (w1 := dispatch parse (CursorMove (Some offset)) w) in *.
  assert (Hnow : now w1 = now w) by (rewrite Hn; destruct w; reflexivity).
  assert (Hpt : parse_timers w1 = parse_timers w).
  { apply (f_equal (fun v => fst (fst (fst (fst (fst v)))))) in Hv.
    simpl in Hv. rewrite Hv. destruct w; reflexivity. }
  destruct (cursor_sync_alone parse w1 _ (ed_value w) (listenerConfig w)
              offset 120 Hok1 Hs1 Hct eq_refl) as (A & B & _).
  - simpl. lia.
  - intros tm Htm. rewrite Hpt in Htm. specialize (Hlate tm Htm).
    change (Z.max 0 120) with 120. lia.
  - rewrite Eo. destruct w; reflexivity.
  - split; [| exact B]. rewrite A.
    replace (activePageIndex w1) with (activePageIndex w)
      by (rewrite Ka; destruct w; reflexivity).
    reflexivity.
Qed.

(** The index the resolver returns is the index of one of the ranges. *)
Lemma resolved_index_bound ranges offset idx :
  findPageIndexAtOffset ranges offset = Some idx ->
  0 <= idx < Z.of_nat (length ranges).
Proof.
  unfold findPageIndexAtOffset. intros H.
  apply find_from_some in H. destruct H as (n & r & -> & Hn & _).
  assert (Hlt : (n < length ranges)%nat)
    by (apply nth_error_Some; congruence).
  lia.
Qed.

(** Clamping by the number of ranges leaves a resolved index as it is. *)
Lemma clamp_resolved ranges offset idx :
  findPageIndexAtOffset ranges offset = Some idx ->
  clampIndex idx (clamp_bound JNull ranges) = idx.
Proof.
  intros H. apply resolved_index_bound in H.
  unfold clamp_bound. cbn [pagesOf get length Z.of_nat Z.eqb].
  cbv beta iota zeta. unfold clampIndex.
  destruct (Z.eqb_spec (Z.of_nat (length ranges)) 0) as [E | E]; [lia |].
  destruct (Z.leb_spec (Z.of_nat (length ranges)) 0); lia.
Qed.

(** X6: a cursor movement in follow mode, with no parse cycle due in the
    next 120 ms: 120 ms later the active index is the index of the record
    of the editor's text that holds the cursor, and it is left as it was
    when no record holds the cursor; no cursor timer is left.  The
    listener closes over the [null] configuration of the first render, so
    the index is clamped by the number of records scanned, never by the
    number of pages parsed: it can lie past the last parsed page. *)
Theorem cursor_move_resolves :
  forall parse w offset,
    reachable parse w ->
    monacoEditorRef w = true -> followCursorRef w = true ->
    (forall tm, In tm (parse_timers w) -> now w + 120 < due tm) ->
    let ranges := computePagesRanges (JsString (ed_value w)) in
    let w' := dispatch parse (Elapse 120)
                (dispatch parse (CursorMove (Some offset)) w) in
    activePageIndex w'
    = match findPageIndexAtOffset ranges offset with
      | Some idx => idx
      | None => activePageIndex w
      end /\
    cursor_timers w' = [].
Proof.
  intros parse w offset Hreach Hm Hf Hlate ranges w'.
  destruct (cursor_move_closure parse w offset Hreach Hm Hf Hlate)
    as [A B].
  fold ranges in A. fold w' in A, B. split; [| exact B].
  rewrite A, (listener_reachable parse w Hreach).
  destruct (findPageIndexAtOffset ranges offset) as [idx |] eqn:E;
    [| reflexivity].
  exact (clamp_resolved ranges offset idx E).
Qed.

Lemma cursor_move_resolves_witness :
  let w := run sample_parse [Mount; Loaded sample_one; Change sample_two]
             initial in
  length (pagesOf (parsedConfig w)) = 1%nat /\
  activePageIndex
    (dispatch sample_parse (Elapse 120)
       (dispatch sample_parse (CursorMove (Some 30)) w)) = 1 /\
  activePageIndex
    (dispatch sample_parse (Elapse 120)
       (dispatch sample_parse (CursorMove (Some 5)) w)) = 0.
Proof.
  intros w.
  assert (Hr : reachable sample_parse w)
    by (exists [Mount; Loaded sample_one; Change sample_two]; reflexivity).
  assert (Hl : forall tm, In tm (parse_timers w) -> now w + 120 < due tm).
  { assert (E : parse_timers w = [mkTimer 1 450 (ParseCb sample_two)])
      by (vm_compute; reflexivity).
    assert (N : now w = 0) by (vm_compute; reflexivity).
    intros tm Htm. rewrite E in Htm. rewrite N.
    destruct Htm as [<- | []]. cbn [due]. lia. }
  split; [vm_compute; reflexivity |]. split.
  - rewrite (proj1 (cursor_move_resolves sample_parse w 30 Hr eq_refl
                      eq_refl Hl)).
    vm_compute. reflexivity.
  - rewrite (proj1 (cursor_move_resolves sample_parse w 5 Hr eq_refl
                      eq_refl Hl)).
    vm_compute. reflexivity.
Defined.

(** X7: a text change in follow mode: 120 ms later the active index is
    the clamped index of the record of the new text that holds the
    cursor, the clamp bound being taken from the configuration parsed
    before the change; it is left as it was when no record of the new text
    holds the cursor.  The parse of the new text is still pending then. *)
Theorem text_change_resolves :
  forall parse w t offset,
    reachable parse w ->
    monacoEditorRef w = true -> followCursorRef w = true ->
    ed_offset w = Some offset ->
    let ranges := computePagesRanges (JsString t) in
    let w' := dispatch parse (Elapse 120) (dispatch parse (Change t) w) in
    activePageIndex w'
    = match findPageIndexAtOffset ranges offset with
      | Some idx => clampIndex idx (clamp_bound (parsedConfig w) ranges)
      | None => activePageIndex w
      end /\
    parse_timers w' = [mkTimer (next_id w) (now w + 450) (ParseCb t)] /\
    parsedConfig w' = parsedConfig w.
Proof.
  intros parse w t offset Hreach Hm Hf Ho ranges w'. subst ranges w'.
  pose proof (timers_ok_reachable parse w Hreach) as Hok.
  pose proof (synced_reachable parse w Hreach) as Hs.
  pose proof (dispatch_Change_cursor_timer parse t w Hok Hm Hf) as Hct.
  destruct (dispatch_Change_view parse t w Hok Hm) as [Hv Hn].
  apply parse_view_inv in Hv. destruct Hv as (V1 & _ & _ & V4 & _).
  pose proof (timers_ok_dispatch parse (Change t) w Hok) as Hok1.
  pose proof (synced_dispatch parse (Change t) w Hs) as Hs1.
  pose proof (dispatch_Change_eq parse t w Hs Hm) as E.
  set (wa := set_editorTextRef t (set_editorText t (set_ed_value t w))) in *.
  destruct (scheduleParse_rest t wa) as (_ & _ & Pa & Po & _).
  destruct (scheduleCursorSync_keeps (parsedConfig w) t (scheduleParse t wa))
    as (_ & _ & _ & _ & Ka).
  destruct (scheduleCursorSync_editor (parsedConfig w) t (scheduleParse t wa))
    as (Eo & _).
  rewrite <- E in Ka, Eo.
  set (w1 := dispatch parse (Change t) w) in *.
  destruct (cursor_sync_alone parse w1 _ t (parsedConfig w)
              offset 120 Hok1 Hs1 Hct eq_refl) as (A & _ & C).
  - simpl. lia.
  - intros tm Htm. rewrite V1 in Htm. destruct Htm as [<- | []].
    simpl. change (Z.max 0 120) with 120. lia.
  - rewrite Eo, Po. destruct w; exact Ho.
  - split; [| split].
    + rewrite A.
      replace (activePageIndex w1) with (activePageIndex w)
        by (rewrite Ka, Pa; destruct w; reflexivity).
      reflexivity.
    + rewrite C. exact V1.
    + pose proof (dispatch_Elapse_early parse 120 w1 Hok1) as [Hv2 _].
      { intros tm Htm. rewrite V1 in Htm. destruct Htm as [<- | []].
        simpl. change (Z.max 0 120) with 120. lia. }
      apply (f_equal (fun v => snd (fst (fst v)))) in Hv2. simpl in Hv2.
      rewrite Hv2. exact V4.
Qed.

Lemma text_change_resolves_witness :
  let w := run sample_parse
             [Loaded sample_one; Mount; CursorMove (Some 30)] initial in
  activePageIndex
    (dispatch sample_parse (Elapse 120)
       (dispatch sample_parse (Change sample_two) w)) = 0.
Proof.
  intros w.
  exact (proj1 (text_change_resolves sample_parse w sample_two 30
                  (ex_intro _ [Loaded sample_one; Mount; CursorMove (Some 30)]
                     eq_refl)
                  eq_refl eq_refl eq_refl)).
Defined.

(** ** Turning follow mode back on *)

Lemma dispatch_SetFollow_on parse w :
  synced w -> truthy (parsedConfig w) = true ->
  followCursor w = false -> monacoEditorRef w = true ->
  dispatch parse (SetFollow true) w
  = scheduleCursorSync (parsedConfig w) (ed_value w)
      (set_followCursorRef true (set_followCursor true w)).
Proof.
  intros [_ Hp] Ht Hf Hm. unfold dispatch. simpl handler. rewrite Ht, Hf.
  unfold commit.
  rewrite (preview_effect_idle (set_followCursor true w))
    by (destruct w; exact Hp).
  replace (followCursor (set_followCursor true w)) with true
    by (destruct w; reflexivity).
  simpl Bool.eqb. cbv iota. unfold follow_effects.
  replace (followCursor (set_followCursor true w)) with true
    by (destruct w; reflexivity).
  replace (followCursorRef (set_followCursorRef true (set_followCursor true w)))
    with true by (destruct w; reflexivity).
  replace (monacoEditorRef (set_followCursorRef true (set_followCursor true w)))
    with true by (rewrite <- Hm; destruct w; reflexivity).
  simpl negb. cbv iota. f_equal; destruct w; reflexivity.
Qed.

(** X8: ticking the follow-cursor checkbox again re-resolves the index:
    with no parse cycle due in the next 120 ms, 120 ms later the active
    index is the clamped index of the record of the editor's text that
    holds the cursor (unchanged when no record holds it), and follow mode
    is on, state and ref. *)
Theorem follow_on_resolves :
  forall parse w offset,
    reachable parse w -> truthy (parsedConfig w) = true ->
    followCursor w = false -> monacoEditorRef w = true ->
    ed_offset w = Some offset ->
    (forall tm, In tm (parse_timers w) -> now w + 120 < due tm) ->
    let ranges := computePagesRanges (JsString (ed_value w)) in
    let w' := dispatch parse (Elapse 120)
                (dispatch parse (SetFollow true) w) in
    activePageIndex w'
    = match findPageIndexAtOffset ranges offset with
      | Some idx => clampIndex idx (clamp_bound (parsedConfig w) ranges)
      | None => activePageIndex w
      end /\
    followCursor w' = true /\ followCursorRef w' = true.
Proof.
  intros parse w offset Hreach Ht Hf Hm Ho Hlate ranges w'. subst ranges w'.
  pose proof (timers_ok_reachable parse w Hreach) as Hok.
  pose proof (synced_reachable parse w Hreach) as Hs.
  pose proof (dispatch_SetFollow_on parse w Hs Ht Hf Hm) as E.
  pose proof (timers_ok_dispatch parse (SetFollow true) w Hok) as Hok1.
  pose proof (synced_dispatch parse (SetFollow true) w Hs) as Hs1.
  set (w0 := set_followCursorRef true (set_followCursor true w)) in *.
  assert (Hok0 : timers_ok w0)
    by (revert Hok; apply timers_ok_frame; destruct w; reflexivity).
  assert (H0 : followCursorRef w0 = true /\ monacoEditorRef w0 = true /\
               next_id w0 = next_id w /\ now w0 = now w /\
               parse_timers w0 = parse_timers w /\
               activePageIndex w0 = activePageIndex w /\
               ed_offset w0 = ed_offset w /\ followCursor w0 = true)
    by (subst w0; destruct w; simpl in *; repeat split; assumption).
  destruct H0 as (R0 & M0 & N0 & T0 & P0 & A0 & O0 & F0).
  pose proof (scheduleCursorSync_replaces (parsedConfig w) (ed_value w) w0
                Hok0 R0 M0) as Hct.
  destruct (scheduleCursorSync_view (parsedConfig w) (ed_value w) w0 Hok0)
    as [Hv Hn].
  destruct (scheduleCursorSync_keeps (parsedConfig w) (ed_value w) w0)
    as (Kr & Kf & _ & _ & Ka).
  destruct (scheduleCursorSync_editor (parsedConfig w) (ed_value w) w0)
    as (Eo & _).
  rewrite <- E in Hct, Hv, Hn, Kr, Kf, Ka, Eo.
  set (w1 := dispatch parse (SetFollow true) w) in *.
  assert (Hpt : parse_timers w1 = parse_timers w).
  { apply (f_equal (fun v => fst (fst (fst (fst (fst v)))))) in Hv.
    simpl in Hv. rewrite Hv. exact P0. }
  destruct (cursor_sync_alone parse w1 _ (ed_value w) (parsedConfig w)
              offset 120 Hok1 Hs1 Hct eq_refl) as (A & _ & _).
  - simpl. rewrite Hn, T0. lia.
  - intros tm Htm. rewrite Hpt in Htm. specialize (Hlate tm Htm).
    rewrite Hn, T0. change (Z.max 0 120) with 120. lia.
  - rewrite Eo, O0. exact Ho.
  - split; [rewrite A, Ka, A0; reflexivity |].
    pose proof (synced_dispatch parse (Elapse 120) w1 Hs1) as [Sr _].
    assert (Ff : followCursor (dispatch parse (Elapse 120) w1) = true).
    { pose proof (dispatch_Elapse_early parse 120 w1 Hok1) as Hx.
      destruct Hx as [Hx _].
      { intros tm Htm. rewrite Hpt in Htm. specialize (Hlate tm Htm).
        rewrite Hn, T0. change (Z.max 0 120) with 120. lia. }
      rewrite (parse_view_follow _ _ Hx), Kf. exact F0. }
    split; [exact Ff | congruence].
Qed.

Lemma follow_on_resolves_witness :
  let w := run sample_parse
             [Mount; Loaded sample_two; CursorMove (Some 30); Elapse 120;
              GoPrev]
             initial in
  activePageIndex w = 0 /\
  activePageIndex
    (dispatch sample_parse (Elapse 120)
       (dispatch sample_parse (SetFollow true) w)) = 1.
Proof.
  intros w. split; [reflexivity |].
  exact (proj1 (follow_on_resolves sample_parse w 30
                  (ex_intro _ [Mount; Loaded sample_two; CursorMove (Some 30);
                               Elapse 120; GoPrev] eq_refl)
                  eq_refl eq_refl eq_refl eq_refl
                  (fun tm (H : In tm []) => match H with end))).
Defined.

(** ** The active index is never negative *)

Lemma preview_effect_nonneg w :
  0 <= activePageIndex w -> 0 <= activePageIndex (preview_effect w).
Proof.
  intros H. unfold preview_effect.
  destruct (truthy (parsedConfig w)); [| destruct w; exact H].
  destruct (previewPagesLen w) as [m |];
    [destruct (m =? _); [exact H |] |];
    destruct w; simpl; apply clampIndex_nonneg.
Qed.

Lemma commit_nonneg f w :
  0 <= activePageIndex w -> 0 <= activePageIndex (commit f w).
Proof.
  intros H. unfold commit.
  pose proof (preview_effect_nonneg w H) as H1.
  destruct (Bool.eqb _ _); [exact H1 |].
  unfold follow_effects.
  set (w2 := set_followCursorRef _ _).
  assert (H2 : 0 <= activePageIndex w2)
    by (subst w2; destruct (preview_effect w); exact H1).
  destruct (negb (followCursorRef w2)); [exact H2 |].
  destruct (negb (monacoEditorRef w2)); [exact H2 |].
  rewrite (proj2 (proj2 (proj2 (proj2
            (scheduleCursorSync_keeps (parsedConfig w2) (ed_value w2) w2))))).
  exact H2.
Qed.

Lemma run_callback_nonneg parse c w :
  0 <= activePageIndex w -> 0 <= activePageIndex (run_callback parse c w).
Proof.
  intros H. destruct c as [t | t cfg]; simpl.
  - destruct w; exact H.
  - unfold cursor_callback.
    destruct (ed_offset w); [| exact H].
    destruct (findPageIndexAtOffset _ _); [| exact H].
    destruct w; simpl. apply clampIndex_nonneg.
Qed.

Lemma fire_nonneg parse tm w :
  0 <= activePageIndex w -> 0 <= activePageIndex (fire parse tm w).
Proof.
  intros H. unfold fire. apply commit_nonneg, run_callback_nonneg.
  destruct w; exact H.
Qed.

Lemma run_due_nonneg parse target fuel : forall w,
  0 <= activePageIndex w ->
  0 <= activePageIndex (run_due parse fuel target w).
Proof.
  induction fuel as [| fuel IH]; intros w H; simpl; [exact H |].
  destruct (next_due target (timers w)); [| exact H].
  apply IH, fire_nonneg. exact H.
Qed.

Lemma handler_nonneg parse ev w :
  0 <= activePageIndex w -> 0 <= activePageIndex (handler parse ev w).
Proof.
  intros H. destruct ev as [t | | t | o | | | b | ms]; simpl.
  - destruct w; exact H.
  - destruct (monacoEditorRef w); destruct w; exact H.
  - destruct (negb (monacoEditorRef w)); [exact H |].
    rewrite (proj2 (proj2 (proj2 (proj2 (scheduleCursorSync_keeps _ _ _))))).
    rewrite (proj1 (proj2 (proj2 (scheduleParse_rest _ _)))).
    destruct w; exact H.
  - destruct (negb (monacoEditorRef w)); [exact H |].
    rewrite (proj2 (proj2 (proj2 (proj2 (scheduleCursorSync_keeps _ _ _))))).
    destruct w; exact H.
  - destruct (truthy (parsedConfig w)); [| exact H].
    destruct w; simpl. apply clampIndex_nonneg.
  - destruct (truthy (parsedConfig w)); [| exact H].
    destruct w; simpl. apply clampIndex_nonneg.
  - destruct (truthy (parsedConfig w)); [| exact H]. destruct w; exact H.
  - unfold elapse.
    pose proof (run_due_nonneg parse (now w + Z.max 0 ms)
                  (length (timers w)) w H) as H1.
    destruct (run_due _ _ _ _); exact H1.
Qed.

Lemma reachable_nonneg parse w :
  reachable parse w -> 0 <= activePageIndex w.
Proof.
  intros [evs ->].
  assert (H : forall w0, 0 <= activePageIndex w0 ->
                         0 <= activePageIndex (run parse evs w0)).
  { induction evs as [| ev evs IH]; intros w0 H0; simpl; [exact H0 |].
    apply IH. unfold dispatch. apply commit_nonneg, handler_nonneg.
    exact H0. }
  apply H. simpl. lia.
Qed.

(** X9: in every world the component can reach the active index is at
    least 0: it is only ever written through [clampIndex]. *)
Theorem active_index_never_negative :
  forall parse w, reachable parse w -> 0 <= activePageIndex w.
Proof. exact reachable_nonneg. Qed.

Lemma active_index_never_negative_witness :
  0 <= activePageIndex
         (run sample_parse
            [Mount; Loaded sample_two; CursorMove (Some 30); Elapse 120;
             GoPrev; GoPrev] initial).
Proof.
  apply (active_index_never_negative sample_parse).
  eexists. reflexivity.
Defined.

(** ** The parse timer and the other events *)

Lemma commit_view f w :
  timers_ok w ->
  parse_view (commit f w) = parse_view w /\ now (commit f w) = now w.
Proof.
  intros Hok. unfold commit.
  pose proof (parse_view_quiet _ _ (preview_effect_quiet w)) as Hv.
  pose proof (quiet_fields _ _ (preview_effect_quiet w))
    as (_ & _ & _ & _ & Hn & _).
  pose proof (timers_ok_quiet _ _ (preview_effect_quiet w) Hok) as Hok1.
  set (w1 := preview_effect w) in *.
  destruct (Bool.eqb f (followCursor w1)); [split; assumption |].
  unfold follow_effects.
  set (w2 := set_followCursorRef (followCursor w1) w1).
  assert (H2 : parse_view w2 = parse_view w1 /\ now w2 = now w1)
    by (subst w2; destruct w1; split; reflexivity).
  destruct H2 as [V2 N2].
  assert (Hok2 : timers_ok w2)
    by (revert Hok1; apply timers_ok_frame; subst w2; destruct w1;
        reflexivity).
  destruct (negb (followCursorRef w2)); [split; congruence |].
  destruct (negb (monacoEditorRef w2)); [split; congruence |].
  destruct (scheduleCursorSync_view (parsedConfig w2) (ed_value w2) w2 Hok2)
    as [V3 N3].
  split; congruence.
Qed.

Lemma parse_view_track w w' :
  parse_view w' = parse_view w ->
  parse_timers w' = parse_timers w /\ debounceRef w' = debounceRef w /\
  parse_log w' = parse_log w.
Proof.
  unfold parse_view. intros H. injection H. intros. repeat split; assumption.
Qed.

(** X10: only a text change or the passing of time touches the parse
    timer: a cursor movement, a navigation, the follow-cursor checkbox,
    the editor mounting or the configuration being loaded leave the
    pending parse timer, its ref and the parse cycles run so far as they
    are. *)
Theorem parse_timer_untouched :
  forall parse w ev,
    reachable parse w ->
    (forall t, ev <> Change t) -> (forall ms, ev <> Elapse ms) ->
    parse_timers (dispatch parse ev w) = parse_timers w /\
    debounceRef (dispatch parse ev w) = debounceRef w /\
    parse_log (dispatch parse ev w) = parse_log w.
Proof.
  intros parse w ev Hreach Hchange Helapse.
  pose proof (timers_ok_reachable parse w Hreach) as Hok.
  unfold dispatch.
  destruct (commit_view (followCursor w) (handler parse ev w)
              (timers_ok_handler parse ev w Hok)) as [Hv _].
  apply parse_view_track in Hv. destruct Hv as (-> & -> & ->).
  destruct ev as [t | | t | o | | | b | ms]; cbn [handler].
  - destruct w; repeat split.
  - destruct (monacoEditorRef w); destruct w; repeat split.
  - exfalso. exact (Hchange t eq_refl).
  - destruct (negb (monacoEditorRef w)); [repeat split |]. cbv zeta.
    destruct (scheduleCursorSync_view
                (listenerConfig (set_ed_offset o w))
                (ed_value (set_ed_offset o w)) (set_ed_offset o w)) as [Hv _].
    { revert Hok. apply timers_ok_frame; destruct w; reflexivity. }
    apply parse_view_track in Hv. destruct Hv as (-> & -> & ->).
    destruct w; repeat split.
  - destruct (truthy (parsedConfig w)); destruct w; repeat split.
  - destruct (truthy (parsedConfig w)); destruct w; repeat split.
  - destruct (truthy (parsedConfig w)); destruct w; repeat split.
  - exfalso. exact (Helapse ms eq_refl).
Qed.

Lemma parse_timer_untouched_witness :
  let w := run sample_parse [Mount; Change sample_two] initial in
  parse_timers (dispatch sample_parse (CursorMove (Some 30)) w)
  = [mkTimer 1 450 (ParseCb sample_two)].
Proof.
  intros w.
  exact (proj1 (parse_timer_untouched sample_parse w (CursorMove (Some 30))
                  (ex_intro _ [Mount; Change sample_two] eq_refl)
                  ltac:(discriminate) ltac:(discriminate))).
Defined.

(** ** Parse cycles and the page count *)

Lemma quiet_editor w w' :
  quiet w w' ->
  editorText w' = editorText w /\ ed_value w' = ed_value w /\
  ed_offset w' = ed_offset w.
Proof. unfold quiet. intros ->. destruct w; simpl. repeat split. Qed.

Lemma fire_keeps_text parse tm w :
  editorText (fire parse tm w) = editorText w /\
  ed_value (fire parse tm w) = ed_value w.
Proof.
  rewrite fire_unfold.
  destruct (quiet_editor _ _ (preview_effect_quiet
    (run_callback parse (cb tm)
       (set_now (Z.max (now w) (due tm)) (clearTimeout (tid tm) w)))))
    as (-> & -> & _).
  destruct (cb tm) as [t | t c]; simpl.
  - destruct w; split; reflexivity.
  - destruct (quiet_editor _ _ (cursor_callback_quiet t c
      (set_now (Z.max (now w) (due tm)) (clearTimeout (tid tm) w))))
      as (-> & -> & _).
    destruct w; split; reflexivity.
Qed.

Lemma run_due_keeps_text parse target fuel : forall w,
  editorText (run_due parse fuel target w) = editorText w /\
  ed_value (run_due parse fuel target w) = ed_value w.
Proof.
  induction fuel as [| fuel IH]; intros w; simpl; [split; reflexivity |].
  destruct (next_due target (timers w)); [| split; reflexivity].
  destruct (IH (fire parse t w)) as [-> ->]. apply fire_keeps_text.
Qed.

Lemma commit_keeps_text f w :
  editorText (commit f w) = editorText w /\ ed_value (commit f w) = ed_value w.
Proof.
  unfold commit.
  destruct (quiet_editor _ _ (preview_effect_quiet w)) as (E1 & E2 & _).
  set (w1 := preview_effect w) in *.
  destruct (Bool.eqb f (followCursor w1)); [split; assumption |].
  unfold follow_effects.
  set (w2 := set_followCursorRef (followCursor w1) w1).
  assert (H2 : editorText w2 = editorText w1 /\ ed_value w2 = ed_value w1)
    by (subst w2; destruct w1; split; reflexivity).
  destruct H2 as [T2 V2].
  destruct (negb (followCursorRef w2)); [split; congruence |].
  destruct (negb (monacoEditorRef w2)); [split; congruence |].
  destruct (scheduleCursorSync_editor (parsedConfig w2) (ed_value w2) w2)
    as (_ & V3 & _ & _ & T3).
  split; congruence.
Qed.

Lemma dispatch_Elapse_keeps_text parse ms w :
  editorText (dispatch parse (Elapse ms) w) = editorText w /\
  ed_value (dispatch parse (Elapse ms) w) = ed_value w.
Proof.
  unfold dispatch. simpl handler.
  destruct (commit_keeps_text (followCursor w) (elapse parse ms w))
    as [-> ->].
  unfold elapse.
  destruct (run_due_keeps_text parse (now w + Z.max 0 ms)
              (length (timers w)) w) as [E1 E2].
  destruct (run_due _ _ _ _); split; assumption.
Qed.

(** X11: loading the configuration does not cancel a pending parse: when
    a text change of text [t] is still waiting for its parse and the
    configuration is then loaded with text [t'], the editor shows [t'],
    and once the timer is due the parse cycle of [t] runs and the parsed
    configuration is that of [t]. *)
Theorem load_keeps_pending_parse :
  forall parse w tm t t' ms,
    reachable parse w ->
    parse_timers w = [tm] -> cb tm = ParseCb t ->
    due tm <= now w + Z.max 0 ms ->
    let w' := dispatch parse (Elapse ms) (dispatch parse (Loaded t') w) in
    editorText w' = t' /\ ed_value w' = t' /\
    parsedConfig w' = safeJsonParse parse t /\
    parse_log w' = parse_log w ++ [t].
Proof.
  intros parse w tm t t' ms Hreach Hone Ecb Hdue w'. subst w'.
  pose proof (timers_ok_reachable parse w Hreach) as Hok.
  pose proof (timers_ok_dispatch parse (Loaded t') w Hok) as Hok1.
  assert (H1 : parse_view (dispatch parse (Loaded t') w)
               = (parse_timers w, debounceRef w, parse_log w,
                  safeJsonParse parse t', monacoEditorRef w, followCursor w)
               /\ now (dispatch parse (Loaded t') w) = now w).
  { unfold dispatch.
    destruct (commit_view (followCursor w) (handler parse (Loaded t') w)
                (timers_ok_handler parse (Loaded t') w Hok)) as [-> ->].
    simpl handler. destruct w; split; reflexivity. }
  destruct H1 as [Hv Hn]. apply parse_view_inv in Hv.
  destruct Hv as (V1 & _ & V3 & _).
  destruct (commit_keeps_text (followCursor w) (handler parse (Loaded t') w))
    as [T1 T2].
  fold (dispatch parse (Loaded t') w) in T1, T2.
  set (w1 := dispatch parse (Loaded t') w) in *.
  pose proof (dispatch_Elapse_due parse ms tm t w1 Hok1) as Hd.
  rewrite V1, Hn in Hd. specialize (Hd Hone Ecb Hdue).
  apply parse_view_inv in Hd. destruct Hd as (_ & _ & D3 & D4 & _).
  destruct (dispatch_Elapse_keeps_text parse ms w1) as [-> ->].
  rewrite T1, T2, D3, D4, V3. simpl handler.
  destruct w; repeat split.
Qed.

Lemma load_keeps_pending_parse_witness :
  let w := run sample_parse [Mount; Change sample_two] initial in
  let w' := dispatch sample_parse (Elapse 450)
              (dispatch sample_parse (Loaded sample_one) w) in
  editorText w' = sample_one /\
  parsedConfig w' = document [page "a"; page "b"].
Proof.
  intros w w'.
  destruct (load_keeps_pending_parse sample_parse w
              (mkTimer 1 450 (ParseCb sample_two)) sample_two sample_one 450
              (ex_intro _ [Mount; Change sample_two] eq_refl)
              eq_refl eq_refl ltac:(simpl; lia)) as (A & _ & C & _).
  split; [exact A | exact C].
Defined.




(** ** What the preview shows *)

Lemma bars_from_none a : forall pages i,
  bars_from a i pages = None <-> In JNull pages.
Proof.
  induction pages as [| p pages IH]; intros i; cbn [bars_from In].
  - split; [discriminate | intros []].
  - specialize (IH (i + 1)).
    destruct p; try (split; [intros _; left; reflexivity | reflexivity]);
      (destruct (bars_from a (i + 1) pages);
       [split; [discriminate | intros [H | H]; [discriminate |]];
        apply IH in H; discriminate
       | split; [intros _; right; apply IH; reflexivity | reflexivity]]).
Qed.

Lemma bars_from_some a : forall pages i bs,
  bars_from a i pages = Some bs ->
  length bs = length pages /\
  length (filter (fun b : bool => b) bs)
  = Z.to_nat (Z.min (Z.of_nat (length pages)) (a + 1 - i)).
Proof.
  induction pages as [| p pages IH]; intros i bs; cbn [bars_from].
  - intros [= <-]. cbn [filter length]. split; [reflexivity | lia].
  - specialize (IH (i + 1)).
    destruct p; try discriminate;
      (destruct (bars_from a (i + 1) pages) as [bs' |]; [| discriminate];
       intros [= <-]; destruct (IH bs' eq_refl) as [L F];
       cbn [length filter]; split; [congruence |];
       destruct (Z.leb_spec i a); cbn [length]; rewrite F; lia).
Qed.

(** X13: the progress bars of the preview.  Their evaluation fails
    exactly when some page is [null]; otherwise there is one bar per
    page, of which [activeIndex + 1] are lit (all of them when the index is
    past the last page, none when it is negative).  [pages[activeIndex]]
    is defined exactly when the index is inside the pages. *)
Theorem preview_bars_and_page :
  forall w : world,
    (bars w = None <-> In JNull (pagesOf (parsedConfig w))) /\
    (forall bs,
        bars w = Some bs ->
        length bs = length (pagesOf (parsedConfig w)) /\
        length (filter (fun b : bool => b) bs)
        = Z.to_nat (Z.min (pageCount w) (activePageIndex w + 1))) /\
    (activePage w <> None <-> 0 <= activePageIndex w < pageCount w).
Proof.
  intros w. unfold bars, activePage, pageCount. split; [| split].
  - apply bars_from_none.
  - intros bs H. apply bars_from_some in H. destruct H as [L F].
    split; [exact L |]. rewrite F. f_equal. lia.
  - destruct (Z.ltb_spec (activePageIndex w) 0) as [Hneg | Hpos].
    + split; [intros H; contradiction | lia].
    + rewrite nth_error_Some. lia.
Qed.

Example preview_sample :
  let w := run sample_parse [Mount; Loaded sample_two; GoNext] initial in
  bars w = Some [true; true] /\ activePage w = Some (page "b") /\
  nextDisabled w = true /\ prevDisabled w = false /\
  bars (set_parsedConfig (document [page "a"; JNull]) w) = None.
Proof. repeat split. Qed.

(** ** Trimming *)

Lemma trim_start_white ws t :
  forallb is_white ws = true -> trim_start (ws ++ t) = trim_start t.
Proof.
  induction ws as [| c ws IH]; simpl; [reflexivity |].
  intros H. apply andb_true_iff in H. destruct H as [Hc Hws].
  rewrite Hc. apply IH. exact Hws.
Qed.

Lemma trim_start_app t u :
  trim_start t <> [] -> trim_start (t ++ u) = trim_start t ++ u.
Proof.
  induction t as [| c t IH]; simpl; [intros H; contradiction |].
  destruct (is_white c); [exact IH | reflexivity].
Qed.

Lemma trim_start_nil t : trim_start t = [] -> forallb is_white t = true.
Proof.
  induction t as [| c t IH]; simpl; [reflexivity |].
  destruct (is_white c); [exact IH | discriminate].
Qed.

Lemma forallb_rev {A} (p : A -> bool) (l : list A) :
  forallb p (rev l) = forallb p l.
Proof.
  induction l as [| x l IH]; simpl; [reflexivity |].
  rewrite forallb_app, IH. simpl. rewrite andb_true_r. apply andb_comm.
Qed.

Lemma trim_white ws1 ws2 t :
  forallb is_white ws1 = true -> forallb is_white ws2 = true ->
  trim (ws1 ++ t ++ ws2) = trim t.
Proof.
  intros H1 H2. unfold trim. rewrite (trim_start_white ws1 _ H1).
  destruct (trim_start t) as [| x m] eqn:E.
  - pose proof (trim_start_nil t E) as Ht.
    rewrite trim_start_white by exact Ht.
    rewrite <- (app_nil_r ws2), trim_start_white by exact H2. reflexivity.
  - rewrite trim_start_app by (rewrite E; discriminate).
    rewrite E, rev_app_distr.
    rewrite trim_start_white by (rewrite forallb_rev; exact H2).
    reflexivity.
Qed.

(** ** computeValueFontSize *)

(** X14: the font size of a value depends on its text without the white
    space around it: white space before and after changes nothing. *)
Theorem font_size_ignores_white_space :
  forall ws1 ws2 t : text,
    forallb is_white ws1 = true -> forallb is_white ws2 = true ->
    computeValueFontSize (JsString (ws1 ++ t ++ ws2))
    = computeValueFontSize (JsString t).
Proof.
  intros ws1 ws2 t H1 H2. unfold computeValueFontSize.
  rewrite (trim_white ws1 ws2 t H1 H2). reflexivity.
Qed.

Lemma font_size_ignores_white_space_witness :
  computeValueFontSize (JsString (js "  " ++ js "12,345 km" ++ js " "))
  = computeValueFontSize (JsString (js "12,345 km")).
Proof.
  apply (font_size_ignores_white_space (js "  ") (js " ") (js "12,345 km"));
    reflexivity.
Defined.

(** X15: the font size is one of 54, 48, 40, 34 and 30, it is 54 for what
    is no string, and a text that is longer once trimmed never gets a
    larger size. *)
Theorem font_size_shrinks :
  (forall v, In (computeValueFontSize v) [54; 48; 40; 34; 30]) /\
  computeValueFontSize JsOther = 54 /\
  (forall s1 s2 : text,
      len (trim s1) <= len (trim s2) ->
      computeValueFontSize (JsString s2)
      <= computeValueFontSize (JsString s1)).
Proof.
  split; [| split].
  - intros v. unfold computeValueFontSize.
    set (n := len _). simpl.
    destruct (n <=? 10); [tauto |]. destruct (n <=? 16); [tauto |].
    destruct (n <=? 26); [tauto |]. destruct (n <=? 40); tauto.
  - reflexivity.
  - intros s1 s2 H. unfold computeValueFontSize.
    set (n1 := len (trim s1)) in *. set (n2 := len (trim s2)) in *.
    destruct (Z.leb_spec n1 10), (Z.leb_spec n2 10),
      (Z.leb_spec n1 16), (Z.leb_spec n2 16),
      (Z.leb_spec n1 26), (Z.leb_spec n2 26),
      (Z.leb_spec n1 40), (Z.leb_spec n2 40); lia.
Qed.

Example font_size_samples :
  computeValueFontSize (JsString (js "1,234")) = 54 /\
  computeValueFontSize (JsString (js "12 hours 30 min")) = 48 /\
  computeValueFontSize
    (JsString (js "a value of forty-one characters in all...")) = 30.
Proof. repeat split. Qed.

(** ** Hexadecimal colours *)

Lemma digit_value_range c d :
  digit_value c = Some d ->
  0 <= d <= 15 /\
  ((48 <= c <= 57) \/ (97 <= c <= 102) \/ (65 <= c <= 70))%N.
Proof.
  unfold digit_value.
  destruct ((48 <=? c) && (c <=? 57))%N eqn:E1.
  { apply andb_true_iff in E1. destruct E1 as [A B].
    apply N.leb_le in A, B. intros [= <-]. split; lia. }
  destruct ((97 <=? c) && (c <=? 102))%N eqn:E2.
  { apply andb_true_iff in E2. destruct E2 as [A B].
    apply N.leb_le in A, B. intros [= <-]. split; lia. }
  destruct ((65 <=? c) && (c <=? 70))%N eqn:E3; [| discriminate].
  apply andb_true_iff in E3. destruct E3 as [A B].
  apply N.leb_le in A, B. intros [= <-]. split; lia.
Qed.

Lemma below_is_not_white c : (c <= 102)%N -> (48 <= c)%N -> is_white c = false.
Proof.
  intros Hhi Hlo. unfold is_white. cbn [existsb].
  repeat match goal with
         | |- context [N.eqb c ?k] =>
             replace (N.eqb c k) with false
               by (symmetry; apply N.eqb_neq; lia)
         end.
  replace (8192 <=? c)%N with false by (symmetry; apply N.leb_gt; lia).
  reflexivity.
Qed.

Lemma digit_is_plain c d :
  digit_value c = Some d ->
  is_white c = false /\ N.eqb c 45 = false /\ N.eqb c 43 = false /\
  N.eqb c 120 = false /\ N.eqb c 88 = false.
Proof.
  intros H. destruct (digit_value_range c d H) as [_ Hc].
  split; [apply below_is_not_white; lia |].
  repeat split; apply N.eqb_neq; lia.
Qed.

(** Two hexadecimal digits are read as the number they write. *)
Lemma parseInt16_digits c1 c2 d1 d2 :
  digit_value c1 = Some d1 -> digit_value c2 = Some d2 ->
  parseInt16 [c1; c2] = Some (16 * d1 + d2).
Proof.
  intros H1 H2.
  destruct (digit_is_plain c1 d1 H1) as (W1 & M1 & P1 & _).
  destruct (digit_is_plain c2 d2 H2) as (_ & _ & _ & X2 & Y2).
  unfold parseInt16. cbn [trim_start]. rewrite W1. cbv beta iota zeta.
  rewrite M1, P1. cbn [orb]. cbv iota. rewrite X2, Y2. cbn [orb].
  rewrite andb_false_r. cbn [leading_digits].
  rewrite H1, H2. cbn [fold_left]. f_equal. lia.
Qed.

Lemma trim_hash_body (body : text) (last : N) :
  is_white last = false ->
  trim (35%N :: body ++ [last]) = 35%N :: body ++ [last].
Proof.
  intros Hl. unfold trim.
  assert (E1 : trim_start (35%N :: body ++ [last]) = 35%N :: body ++ [last])
    by reflexivity.
  assert (E2 : rev (35%N :: body ++ [last]) = last :: rev (35%N :: body))
    by (simpl; rewrite rev_app_distr; reflexivity).
  rewrite E1, E2. cbn [trim_start]. rewrite Hl, <- E2.
  apply rev_involutive.
Qed.

Lemma not_rgb_prefix (ws rest : text) :
  forallb is_white ws = true ->
  starts_with (js "rgba(") (ws ++ 35%N :: rest) = false /\
  starts_with (js "rgb(") (ws ++ 35%N :: rest) = false.
Proof.
  intros H. destruct ws as [| w ws]; [split; reflexivity |].
  simpl in H. apply andb_true_iff in H. destruct H as [Hw _].
  assert (E : N.eqb 114 w = false).
  { apply N.eqb_neq. intros <-. discriminate Hw. }
  change (js "rgba(") with (114%N :: js "gba(").
  change (js "rgb(") with (114%N :: js "gb(").
  cbn [app starts_with]. rewrite E. split; reflexivity.
Qed.

(** X16: a colour written [#] and six hexadecimal digits, in either
    case and with white space around it or not, has the three components
    its digit pairs write, each from 0 to 255, and [toRgba] renders them
    in decimal, followed by [alpha]. *)
Theorem six_digit_colour :
  forall (alpha_t : Type) (show_alpha : alpha_t -> text)
         (ws1 ws2 : text) (c1 c2 c3 c4 c5 c6 : N) (d1 d2 d3 d4 d5 d6 : Z)
         (alpha : alpha_t),
    forallb is_white ws1 = true -> forallb is_white ws2 = true ->
    digit_value c1 = Some d1 -> digit_value c2 = Some d2 ->
    digit_value c3 = Some d3 -> digit_value c4 = Some d4 ->
    digit_value c5 = Some d5 -> digit_value c6 = Some d6 ->
    let colour := ws1 ++ (35%N :: [c1; c2; c3; c4; c5] ++ [c6]) ++ ws2 in
    hexToRgb (JsString colour)
    = Some (mkRgb (Some (16 * d1 + d2)) (Some (16 * d3 + d4))
              (Some (16 * d5 + d6))) /\
    0 <= 16 * d1 + d2 <= 255 /\ 0 <= 16 * d3 + d4 <= 255 /\
    0 <= 16 * d5 + d6 <= 255 /\
    toRgba alpha_t show_alpha (JsString colour) alpha
    = js "rgba(" ++ show_number (Some (16 * d1 + d2)) ++ js ","
         ++ show_number (Some (16 * d3 + d4)) ++ js ","
         ++ show_number (Some (16 * d5 + d6)) ++ js ","
         ++ show_alpha alpha ++ js ")".
Proof.
  intros alpha_t show_alpha ws1 ws2 c1 c2 c3 c4 c5 c6 d1 d2 d3 d4 d5 d6
         alpha Hw1 Hw2 H1 H2 H3 H4 H5 H6 colour.
  assert (Hhex : hexToRgb (JsString colour)
                 = Some (mkRgb (Some (16 * d1 + d2)) (Some (16 * d3 + d4))
                           (Some (16 * d5 + d6)))).
  { subst colour. unfold hexToRgb.
    rewrite (trim_white ws1 ws2 _ Hw1 Hw2).
    rewrite trim_hash_body by (apply (digit_is_plain c6 d6 H6)).
    cbn [starts_with app tl negb N.eqb Pos.eqb andb].
    rewrite (parseInt16_digits c1 c2 d1 d2 H1 H2),
      (parseInt16_digits c3 c4 d3 d4 H3 H4),
      (parseInt16_digits c5 c6 d5 d6 H5 H6).
    reflexivity. }
  split; [exact Hhex |].
  pose proof (proj1 (digit_value_range _ _ H1)).
  pose proof (proj1 (digit_value_range _ _ H2)).
  pose proof (proj1 (digit_value_range _ _ H3)).
  pose proof (proj1 (digit_value_range _ _ H4)).
  pose proof (proj1 (digit_value_range _ _ H5)).
  pose proof (proj1 (digit_value_range _ _ H6)).
  split; [lia |]. split; [lia |]. split; [lia |].
  unfold toRgba. rewrite Hhex. subst colour.
  destruct (not_rgb_prefix ws1 (([c1; c2; c3; c4; c5] ++ [c6]) ++ ws2) Hw1)
    as [E1 E2].
  change (ws1 ++ 35%N :: ([c1; c2; c3; c4; c5] ++ [c6]) ++ ws2)
    with (ws1 ++ (35%N :: [c1; c2; c3; c4; c5] ++ [c6]) ++ ws2) in E1, E2.
  rewrite E1, E2. reflexivity.
Qed.

Lemma six_digit_colour_witness :
  toRgba text (fun x => x) (JsString (js " #6366F1")) (js "0.25")
  = js "rgba(99,102,241,0.25)".
Proof.
  exact (proj2 (proj2 (proj2 (proj2
           (six_digit_colour text (fun x => x) (js " ") []
              54 51 54 54 70 49 6 3 6 6 15 1 (js "0.25")
              eq_refl eq_refl eq_refl eq_refl eq_refl eq_refl eq_refl
              eq_refl))))).
Defined.

(** X17: the short form [#abc] is read as [#aabbcc]: the two give the
    same components, whatever the three characters are (white space
    around the short form is dropped first). *)
Theorem short_colour_doubles :
  forall (ws1 ws2 : text) (c1 c2 c3 : N),
    forallb is_white ws1 = true -> forallb is_white ws2 = true ->
    is_white c3 = false ->
    hexToRgb (JsString (ws1 ++ (35%N :: [c1; c2] ++ [c3]) ++ ws2))
    = hexToRgb (JsString (35%N :: [c1; c1; c2; c2; c3] ++ [c3])).
Proof.
  intros ws1 ws2 c1 c2 c3 Hw1 Hw2 H3. unfold hexToRgb.
  rewrite (trim_white ws1 ws2 _ Hw1 Hw2).
  rewrite !trim_hash_body by exact H3.
  reflexivity.
Qed.

Lemma short_colour_doubles_witness :
  hexToRgb (JsString (js " #fA3 ")) = hexToRgb (JsString (js "#ffAA33")) /\
  hexToRgb (JsString (js "#ffAA33"))
  = Some (mkRgb (Some 255) (Some 170) (Some 51)).
Proof.
  split; [| reflexivity].
  exact (short_colour_doubles (js " ") (js " ") 102 65 51
           eq_refl eq_refl eq_refl).
Defined.

(** X18: what [toRgba] returns starts with [rgba(] or with [rgb(], so
    [toRgba] gives it back unchanged: applying [toRgba] twice is applying
    it once, whatever the two alphas. *)
Theorem toRgba_idempotent :
  forall (alpha_t : Type) (show_alpha : alpha_t -> text)
         (color : js_value) (alpha alpha' : alpha_t),
    (starts_with (js "rgba(") (toRgba alpha_t show_alpha color alpha)
     || starts_with (js "rgb(") (toRgba alpha_t show_alpha color alpha)
     = true) /\
    toRgba alpha_t show_alpha
      (JsString (toRgba alpha_t show_alpha color alpha)) alpha'
    = toRgba alpha_t show_alpha color alpha.
Proof.
  intros alpha_t show_alpha color alpha alpha'.
  assert (H : starts_with (js "rgba(") (toRgba alpha_t show_alpha color alpha)
              || starts_with (js "rgb(")
                   (toRgba alpha_t show_alpha color alpha) = true).
  { unfold toRgba, black. destruct color as [c |]; [| reflexivity].
    destruct (starts_with (js "rgba(") c || starts_with (js "rgb(") c) eqn:E;
      [exact E |].
    destruct (hexToRgb (JsString c)); reflexivity. }
  split; [exact H |].
  unfold toRgba at 1. rewrite H. reflexivity.
Qed.

Example toRgba_samples :
  toRgba text (fun x => x) (JsString (js "rgb(1,2,3)")) (js "0.5")
  = js "rgb(1,2,3)" /\
  toRgba text (fun x => x) (JsString (js "red")) (js "0.5")
  = js "rgba(0,0,0,0.5)" /\
  toRgba text (fun x => x) JsOther (js "0.5") = js "rgba(0,0,0,0.5)" /\
  toRgba text (fun x => x) (JsString (js "#zz0000")) (js "1")
  = js "rgba(NaN,0,0,1)".
Proof. repeat split. Qed.

Lemma some_eq {A} (x y : A) : Some x = Some y -> x = y.
Proof. congruence. Qed.

(** What [parseInt] can make of two characters. *)
Lemma parseInt16_pair c1 c2 z :
  parseInt16 [c1; c2] = Some z -> -15 <= z <= 255.
Proof.
  unfold parseInt16. cbn [trim_start].
  destruct (is_white c1).
  - destruct (is_white c2); [discriminate |]. cbv beta iota zeta.
    destruct (N.eqb c2 45), (N.eqb c2 43); cbn [orb]; cbv iota;
      cbn [leading_digits]; try discriminate.
    destruct (digit_value c2) as [d |] eqn:E; [| discriminate].
    cbn [fold_left]. intros H. apply some_eq in H.
    pose proof (proj1 (digit_value_range _ _ E)). lia.
  - cbv beta iota zeta.
    destruct (N.eqb c1 45) eqn:M; destruct (N.eqb c1 43) eqn:P;
      cbn [orb]; cbv iota; cbn [leading_digits];
      try (destruct (digit_value c2) as [d |] eqn:E; [| discriminate];
           cbn [fold_left]; intros H; apply some_eq in H;
           pose proof (proj1 (digit_value_range _ _ E)); lia).
    destruct (N.eqb c1 48 && (N.eqb c2 120 || N.eqb c2 88));
      cbn [leading_digits]; [discriminate |].
    destruct (digit_value c1) as [d1 |] eqn:E1; [| discriminate].
    pose proof (proj1 (digit_value_range _ _ E1)).
    destruct (digit_value c2) as [d2 |] eqn:E2; cbn [fold_left];
      intros Hz; apply some_eq in Hz;
      [pose proof (proj1 (digit_value_range _ _ E2)) |]; lia.
Qed.

(** X19: whatever the string, a component [hexToRgb] returns is [NaN]
    or an integer from -15 to 255; it is never above 255. *)
Theorem colour_component_bounds :
  forall (hex : js_value) (c : rgb) (z : Z),
    hexToRgb hex = Some c ->
    r c = Some z \/ g c = Some z \/ b c = Some z ->
    -15 <= z <= 255.
Proof.
  intros hex c z Hhex Hz. unfold hexToRgb in Hhex.
  destruct hex as [h |]; [| discriminate].
  destruct (negb (starts_with [35%N] (trim h))); [discriminate |].
  destruct (tl (trim h)) as [| c0 [| c1 [| c2 [| c3 [| c4 [| c5 [| c6 l]]]]]]];
    try discriminate; injection Hhex as <-; simpl in Hz;
    destruct Hz as [Hz | [Hz | Hz]]; exact (parseInt16_pair _ _ _ Hz).
Qed.

Lemma colour_component_bounds_witness :
  hexToRgb (JsString (js "#-f+a 9"))
  = Some (mkRgb (Some (-15)) (Some 10) (Some 9)) /\
  -15 <= -15 <= 255.
Proof.
  split; [reflexivity |].
  exact (colour_component_bounds (JsString (js "#-f+a 9"))
           (mkRgb (Some (-15)) (Some 10) (Some 9)) (-15)
           eq_refl (or_introl eq_refl)).
Defined.

(** X20: [toRgba] falls back to black with the given alpha for what is
    no string, and for a string that starts with neither [rgba(] nor
    [rgb(] and, once trimmed, either does not start with [#] or has a
    number of characters after the [#] that is neither 3 nor 6. *)
Theorem toRgba_falls_back_to_black :
  forall (alpha_t : Type) (show_alpha : alpha_t -> text) (alpha : alpha_t),
    toRgba alpha_t show_alpha JsOther alpha
    = js "rgba(0,0,0," ++ show_alpha alpha ++ js ")" /\
    forall c : text,
      starts_with (js "rgba(") c = false ->
      starts_with (js "rgb(") c = false ->
      (starts_with [35%N] (trim c) = false \/
       (len (tl (trim c)) <> 3 /\ len (tl (trim c)) <> 6)) ->
      toRgba alpha_t show_alpha (JsString c) alpha
      = js "rgba(0,0,0," ++ show_alpha alpha ++ js ")".
Proof.
  intros alpha_t show_alpha alpha. split; [reflexivity |].
  intros c H1 H2 H. unfold toRgba. rewrite H1, H2. cbn [orb].
  unfold hexToRgb.
  destruct H as [H | [H3 H6]]; [rewrite H; reflexivity |].
  destruct (negb (starts_with [35%N] (trim c))); [reflexivity |].
  destruct (tl (trim c)) as [| c0 [| c1 [| c2 [| c3 [| c4 [| c5 [| c6 l]]]]]]];
    try reflexivity; exfalso; [apply H3 | apply H6]; reflexivity.
Qed.

Lemma toRgba_falls_back_to_black_witness :
  toRgba text (fun x => x) (JsString (js " rgb(1,2,3)")) (js "0.5")
  = js "rgba(0,0,0,0.5)" /\
  toRgba text (fun x => x) (JsString (js "#12345")) (js "0.5")
  = js "rgba(0,0,0,0.5)".
Proof.
  split.
  - exact (proj2 (toRgba_falls_back_to_black text (fun x => x) (js "0.5"))
             (js " rgb(1,2,3)") eq_refl eq_refl (or_introl eq_refl)).
  - apply (proj2 (toRgba_falls_back_to_black text (fun x => x) (js "0.5"))
             (js "#12345") eq_refl eq_refl).
    right. split; vm_compute; discriminate.
Defined.

(** ** Theme sets *)

Section ThemeProperties.

Variable num : Type.
Variable num_eq : num -> num -> bool.
Variable num_truthy : num -> bool.

#[local] Abbreviation truthy_v := (value_truthy num num_truthy).
#[local] Abbreviation resolve := (resolveThemeForPage num num_eq num_truthy).
#[local] Abbreviation find_set := (findThemeSet num num_eq num_truthy).

Lemma or_else_some a b s :
  or_else num num_truthy a b = Some s ->
  (a = Some s /\ truthy_v s = true) \/ b = Some s.
Proof.
  unfold or_else. destruct a as [v |]; [| intros H; right; exact H].
  destruct (truthy_v v) eqn:E; [| intros H; right; exact H].
  intros [= <-]. left. split; [reflexivity | exact E].
Qed.

Lemma findThemeSet_some config id s :
  find_set config id = Some s ->
  names num_eq num_truthy id s = true /\
  exists sets, theme_sets num config = Some (VArr sets) /\ In s sets.
Proof.
  unfold findThemeSet.
  destruct (theme_sets num config) as [[| | | | sets |] |]; try discriminate.
  intros H. apply find_some in H. destruct H as [Hin Hm].
  split; [exact Hm |]. exists sets. split; [reflexivity | exact Hin].
Qed.

Lemma findThemeSet_found config id sets :
  theme_sets num config = Some (VArr sets) ->
  (exists s, In s sets /\ names num_eq num_truthy id s = true) ->
  exists s, find_set config id = Some s /\
            names num_eq num_truthy id s = true.
Proof.
  intros Hsets (s0 & Hin & Hm). unfold findThemeSet. rewrite Hsets.
  fold (names num_eq num_truthy id).
  destruct (find (names num_eq num_truthy id) sets) as [s |] eqn:E.
  - exists s. split; [reflexivity |]. apply (find_some _ _ E).
  - pose proof (find_none _ _ E s0 Hin). congruence.
Qed.

Lemma findThemeSet_none config id sets :
  theme_sets num config = Some (VArr sets) ->
  (forall s, In s sets -> names num_eq num_truthy id s = false) ->
  find_set config id = None.
Proof.
  intros Hsets Hno. unfold findThemeSet. rewrite Hsets.
  fold (names num_eq num_truthy id).
  destruct (find (names num_eq num_truthy id) sets) as [s |] eqn:E;
    [| reflexivity].
  apply find_some in E. destruct E as [Hin Hm].
  rewrite (Hno s Hin) in Hm. discriminate.
Qed.

Lemma names_truthy id s :
  names num_eq num_truthy id s = true -> truthy_v s = true.
Proof. unfold names. intros H. apply andb_true_iff in H. tauto. Qed.

(** The theme resolved for a page is [null] or one of the theme sets, and
    a truthy one; it is [null] when [theme_sets] is no array. *)
Lemma resolve_member config page :
  (forall s,
      resolve config page = Some s ->
      truthy_v s = true /\
      exists sets, theme_sets num config = Some (VArr sets) /\ In s sets) /\
  ((forall sets, theme_sets num config <> Some (VArr sets)) ->
   resolve config page = None).
Proof.
  split.
  - intros s H. unfold resolveThemeForPage in H.
    apply or_else_some in H. destruct H as [[H _] | H].
    { destruct (findThemeSet_some _ _ _ H) as [Hm Hsets].
      split; [exact (names_truthy _ _ Hm) | exact Hsets]. }
    apply or_else_some in H. destruct H as [[H _] | H].
    { destruct (findThemeSet_some _ _ _ H) as [Hm Hsets].
      split; [exact (names_truthy _ _ Hm) | exact Hsets]. }
    apply or_else_some in H. destruct H as [[H Ht] | H]; [| discriminate].
    split; [exact Ht |].
    destruct (theme_sets num config) as [[| | | | sets |] |];
      try discriminate.
    exists sets. split; [reflexivity | exact (nth_error_In _ _ H)].
  - intros Hno. unfold resolveThemeForPage, findThemeSet.
    destruct (theme_sets num config) as [[| | | | sets |] |];
      try reflexivity.
    exfalso. exact (Hno sets eq_refl).
Qed.

(** The order of preference: the page's own theme set, then the default
    one, then the first one. *)
Lemma resolve_preference config page sets :
  theme_sets num config = Some (VArr sets) ->
  let pageId := prop num (js "theme_set") page in
  let defaultId :=
    prop num (js "resolved_theme_set")
      (prop num (js "data") (Some config)) in
  ((exists s, In s sets /\ names num_eq num_truthy pageId s = true) ->
   exists s, resolve config page = Some s /\
             names num_eq num_truthy pageId s = true) /\
  ((forall s, In s sets -> names num_eq num_truthy pageId s = false) ->
   (exists s, In s sets /\ names num_eq num_truthy defaultId s = true) ->
   exists s, resolve config page = Some s /\
             names num_eq num_truthy defaultId s = true) /\
  ((forall s, In s sets -> names num_eq num_truthy pageId s = false) ->
   (forall s, In s sets -> names num_eq num_truthy defaultId s = false) ->
   resolve config page
   = match sets with
     | first :: _ => if truthy_v first then Some first else None
     | [] => None
     end).
Proof.
  intros Hsets pageId defaultId. unfold resolveThemeForPage.
  fold pageId defaultId. split; [| split].
  - intros Hex.
    destruct (findThemeSet_found config pageId sets Hsets Hex) as (s & E & Hm).
    exists s. rewrite E. unfold or_else at 1.
    rewrite (names_truthy _ _ Hm). split; [reflexivity | exact Hm].
  - intros Hno Hex.
    rewrite (findThemeSet_none config pageId sets Hsets Hno).
    destruct (findThemeSet_found config defaultId sets Hsets Hex)
      as (s & E & Hm).
    exists s. rewrite E. cbn [or_else].
    rewrite (names_truthy _ _ Hm). split; [reflexivity | exact Hm].
  - intros Hno1 Hno2.
    rewrite (findThemeSet_none config pageId sets Hsets Hno1).
    rewrite (findThemeSet_none config defaultId sets Hsets Hno2).
    rewrite Hsets. cbn [or_else]. destruct sets as [| first rest];
      [reflexivity |].
    cbn [nth_error]. unfold or_else.
    destruct (truthy_v first); reflexivity.
Qed.

End ThemeProperties.

(** X21: the theme resolved for a page is [null] or one of the theme
    sets of the configuration, and then a truthy one; it is [null] when
    [theme_sets] is no array. *)
Theorem resolved_theme_is_a_theme_set :
  forall (num : Type) (num_eq : num -> num -> bool)
         (num_truthy : num -> bool)
         (config : value num) (page : option (value num)),
    (forall s,
        resolveThemeForPage num num_eq num_truthy config page = Some s ->
        value_truthy num num_truthy s = true /\
        exists sets, theme_sets num config = Some (VArr sets) /\ In s sets) /\
    ((forall sets, theme_sets num config <> Some (VArr sets)) ->
     resolveThemeForPage num num_eq num_truthy config page = None).
Proof. exact resolve_member. Qed.

(** X22: the theme set named by the page's [theme_set] is preferred,
    then the one named by [resolved_theme_set], then the first theme set:
    when some truthy set has the page's id the result has that id; when
    none has but some has the default id the result has the default id;
    when none has either the result is the first theme set, or [null] when
    there is none or it is falsy. *)
Theorem theme_preference :
  forall (num : Type) (num_eq : num -> num -> bool)
         (num_truthy : num -> bool)
         (config : value num) (page : option (value num))
         (sets : list (value num)),
    theme_sets num config = Some (VArr sets) ->
    let pageId := prop num (js "theme_set") page in
    let defaultId :=
      prop num (js "resolved_theme_set")
        (prop num (js "data") (Some config)) in
    ((exists s, In s sets /\ names num_eq num_truthy pageId s = true) ->
     exists s,
       resolveThemeForPage num num_eq num_truthy config page = Some s /\
       names num_eq num_truthy pageId s = true) /\
    ((forall s, In s sets -> names num_eq num_truthy pageId s = false) ->
     (exists s, In s sets /\ names num_eq num_truthy defaultId s = true) ->
     exists s,
       resolveThemeForPage num num_eq num_truthy config page = Some s /\
       names num_eq num_truthy defaultId s = true) /\
    ((forall s, In s sets -> names num_eq num_truthy pageId s = false) ->
     (forall s, In s sets -> names num_eq num_truthy defaultId s = false) ->
     resolveThemeForPage num num_eq num_truthy config page
     = match sets with
       | first :: _ =>
           if value_truthy num num_truthy first then Some first else None
       | [] => None
       end).
Proof. exact resolve_preference. Qed.

Lemma theme_preference_witness :
  exists s,
    resolveThemeForPage Z Z.eqb (fun n => negb (n =? 0)) sample_themes
      (Some (VObj [(js "theme_set", VStr (js "light"))])) = Some s /\
    names Z.eqb (fun n => negb (n =? 0)) (Some (VStr (js "light"))) s = true.
Proof.
  apply (proj1 (theme_preference Z Z.eqb (fun n => negb (n =? 0))
                  sample_themes
                  (Some (VObj [(js "theme_set", VStr (js "light"))]))
                  _ eq_refl)).
  exists (VObj [(js "id", VStr (js "light"))]).
  split; [right; left; reflexivity | reflexivity].
Defined.

Example theme_samples :
  resolveThemeForPage Z Z.eqb (fun n => negb (n =? 0)) sample_themes
    (Some (VObj [(js "theme_set", VStr (js "light"))]))
  = Some (VObj [(js "id", VStr (js "light"))]) /\
  resolveThemeForPage Z Z.eqb (fun n => negb (n =? 0)) sample_themes
    (Some (VObj [(js "theme_set", VStr (js "sepia"))]))
  = Some (VObj [(js "id", VStr (js "light"))]) /\
  resolveThemeForPage Z Z.eqb (fun n => negb (n =? 0))
    (VObj [(js "data", VObj [(js "theme_sets", VNull)])]) None
  = None.
Proof. repeat split. Qed.

